(** * SecurRevoke: access-list reconciliation, audit ledger and audit report

    A shallow embedding of [app.py]: the IP set parser
    ([get_ips_from_content]), the address validator ([is_valid_ip]), the
    reconciliation ([update_content], [potential_removals]), the SQLite
    audit ledger ([init_db], [log_audit_event], [load_audit_logs]), the
    report's story ([generate_pdf_report]) and the Streamlit script that
    ties them together.

    Python strings are sequences of Unicode code points; they are modelled
    as lists of code points.  Python sets are finite sets ([gset]), the
    session state is a finite map. *)

From Stdlib Require Import ZArith NArith List Ascii Lia Permutation.
From Stdlib Require String.
From stdpp Require Import base decidable option list sets gmap strings sorting.

Local Open Scope N_scope.

(** ** Python [str] *)

Module Py.

(** A code point. *)
Definition char := N.
(** A [str]: the sequence of its code points. *)
Definition str := list N.

(** *** String literals

    The source file is UTF-8; a literal of the source is written here as a
    byte string and decoded to its code points. *)

Fixpoint utf8_go (pending : nat) (acc : N) (bs : list N) : str :=
  match bs with
  | [] => []
  | b :: bs' =>
      match pending with
      | O =>
          if b <? 128 then b :: utf8_go 0 0 bs'
          else if b <? 224 then utf8_go 1 (N.land b 31) bs'
          else if b <? 240 then utf8_go 2 (N.land b 15) bs'
          else utf8_go 3 (N.land b 7) bs'
      | S p =>
          let acc' := N.lor (N.shiftl acc 6) (N.land b 63) in
          match p with
          | O => acc' :: utf8_go 0 0 bs'
          | S _ => utf8_go p acc' bs'
          end
      end
  end.

Definition lit (s : String.string) : str :=
  utf8_go 0 0 (map N_of_ascii (String.list_ascii_of_string s)).

(** *** Exceptions

    A call either returns a value or raises. *)

Inductive exn :=
| ValueError
| AddressValueError
| UnicodeDecodeError
| OperationalError
| KeyError
| StopException
| RerunException.

Inductive res (A : Type) :=
| Ret (a : A)
| Raise (e : exn).
Arguments Ret {A} a.
Arguments Raise {A} e.

Global Instance res_ret : MRet res := λ A a, Ret a.
Global Instance res_bind : MBind res := λ A B k r,
  match r with
  | Ret a => k a
  | Raise e => Raise e
  end.

Global Instance exn_eq_dec : EqDecision exn.
Proof. solve_decision. Defined.

(** [AddressValueError] and [UnicodeDecodeError] are subclasses of
    [ValueError]: this is what [except ValueError] catches. *)
Definition is_ValueError (e : exn) : bool :=
  match e with
  | ValueError | AddressValueError | UnicodeDecodeError => true
  | _ => false
  end.

(** *** [bytes.decode("utf-8")]

    The strict decoder: a byte that cannot start a sequence, a sequence
    that is cut short, an overlong form, a surrogate and a code point
    above U+10FFFF raise [UnicodeDecodeError].  A byte order mark is
    decoded like any other character. *)

Definition is_continuation (b : N) : bool := (128 <=? b) && (b <=? 191).

Fixpoint decode_utf8 (bs : list N) : res str :=
  match bs with
  | [] => Ret []
  | b0 :: rest =>
      if b0 <? 128 then
        s ← decode_utf8 rest; Ret (b0 :: s)
      else if (194 <=? b0) && (b0 <=? 223) then
        match rest with
        | b1 :: rest1 =>
            if is_continuation b1 then
              s ← decode_utf8 rest1;
              Ret (N.lor (N.shiftl (N.land b0 31) 6) (N.land b1 63) :: s)
            else Raise UnicodeDecodeError
        | [] => Raise UnicodeDecodeError
        end
      else if (224 <=? b0) && (b0 <=? 239) then
        match rest with
        | b1 :: b2 :: rest2 =>
            if ((if b0 =? 224 then 160 else 128) <=? b1)
               && (b1 <=? (if b0 =? 237 then 159 else 191))
               && is_continuation b2
            then
              s ← decode_utf8 rest2;
              Ret (N.lor (N.shiftl (N.land b0 15) 12)
                     (N.lor (N.shiftl (N.land b1 63) 6) (N.land b2 63))
                   :: s)
            else Raise UnicodeDecodeError
        | _ => Raise UnicodeDecodeError
        end
      else if (240 <=? b0) && (b0 <=? 244) then
        match rest with
        | b1 :: b2 :: b3 :: rest3 =>
            if ((if b0 =? 240 then 144 else 128) <=? b1)
               && (b1 <=? (if b0 =? 244 then 143 else 191))
               && is_continuation b2 && is_continuation b3
            then
              s ← decode_utf8 rest3;
              Ret (N.lor (N.shiftl (N.land b0 7) 18)
                     (N.lor (N.shiftl (N.land b1 63) 12)
                        (N.lor (N.shiftl (N.land b2 63) 6) (N.land b3 63)))
                   :: s)
            else Raise UnicodeDecodeError
        | _ => Raise UnicodeDecodeError
        end
      else Raise UnicodeDecodeError
  end.

(** *** Character classes *)

Definition LF : char := 10.
Definition CR : char := 13.
Definition COMMA : char := 44.

(** [str.isspace] on one code point: the characters [str.strip()]
    removes. *)
Definition isspace (c : char) : bool :=
  ((9 <=? c) && (c <=? 13)) || ((28 <=? c) && (c <=? 32))
  || (c =? 133) || (c =? 160) || (c =? 5760)
  || ((8192 <=? c) && (c <=? 8202))
  || (c =? 8232) || (c =? 8233) || (c =? 8239) || (c =? 8287)
  || (c =? 12288).

(** The line boundaries of [str.splitlines]: LF, VT, FF, CR, FS, GS, RS,
    NEL, LS and PS. *)
Definition is_linebreak (c : char) : bool :=
  ((10 <=? c) && (c <=? 13)) || ((28 <=? c) && (c <=? 30))
  || (c =? 133) || (c =? 8232) || (c =? 8233).

(** *** [str.strip], [str.splitlines], [str.split], [str.join] *)

Fixpoint lstrip (s : str) : str :=
  match s with
  | [] => []
  | c :: s' => if isspace c then lstrip s' else s
  end.

Definition rstrip (s : str) : str := reverse (lstrip (reverse s)).

Definition strip (s : str) : str := rstrip (lstrip s).

(** [s.splitlines()]: a line ends at a line boundary, CR LF counting as
    one; the boundaries are dropped and no empty line follows the last
    boundary. *)
Fixpoint splitlines (s : str) : list str :=
  match s with
  | [] => []
  | c :: s' =>
      if is_linebreak c then
        [] :: match s' with
              | c' :: s'' =>
                  if (c =? CR) && (c' =? LF) then splitlines s''
                  else splitlines s'
              | [] => []
              end
      else
        match splitlines s' with
        | [] => [[c]]
        | l :: ls => (c :: l) :: ls
        end
  end.

(** [strip_prefix p s]: what follows [p] when [s] starts with [p]. *)
Fixpoint strip_prefix (p s : str) : option str :=
  match p with
  | [] => Some s
  | a :: p' =>
      match s with
      | [] => None
      | b :: s' => if a =? b then strip_prefix p' s' else None
      end
  end.

(** The scan of [s.split(sep)] for a non-empty [sep]: the leftmost
    occurrence of [sep] ends the current token and the scan resumes behind
    it.  [n] bounds the number of steps; [length s] is enough. *)
Fixpoint split_scan (n : nat) (sep s : str) : list str :=
  match s with
  | [] => [[]]
  | c :: s' =>
      match n with
      | O => [s]
      | S n' =>
          match strip_prefix sep s with
          | Some rest => [] :: split_scan n' sep rest
          | None =>
              match split_scan n' sep s' with
              | [] => [[c]]
              | t :: ts => (c :: t) :: ts
              end
          end
      end
  end.

(** [s.split(sep)]; an empty separator raises [ValueError]. *)
Definition split (s sep : str) : res (list str) :=
  match sep with
  | [] => Raise ValueError
  | _ :: _ => Ret (split_scan (length s) sep s)
  end.

(** [sep.join(l)]. *)
Fixpoint join (sep : str) (l : list str) : str :=
  match l with
  | [] => []
  | [x] => x
  | x :: l' => x ++ sep ++ join sep l'
  end.

(** [s.replace(old, new)] for a non-empty [old]: the non-overlapping
    occurrences of [old], leftmost first, are the ones [split] finds. *)
Definition replace (s old new : str) : res str :=
  pieces ← split s old; Ret (join new pieces).

(** [c in s] for a one-character [c]. *)
Definition in_str (c : char) (s : str) : bool := existsb (N.eqb c) s.

(** [re.split(r'[...]+', s)] for a character class [cls]: the tokens
    between the maximal runs of characters of the class; a run at either
    end leaves an empty token there. *)
Fixpoint re_split_runs (cls : char → bool) (s : str) : list str :=
  match s with
  | [] => [[]]
  | c :: s' =>
      if cls c then
        match s' with
        | c' :: _ => if cls c' then re_split_runs cls s'
                     else [] :: re_split_runs cls s'
        | [] => [] :: re_split_runs cls s'
        end
      else
        match re_split_runs cls s' with
        | [] => [[c]]
        | t :: ts => (c :: t) :: ts
        end
  end.

(** *** Numbers to text *)

Definition digit_char (d : N) : char := 48 + d.

(** The last [width] decimal digits of [n]: [%0<width>d] for
    [n < 10 ^ width]. *)
Fixpoint zfill (width : nat) (n : N) (acc : str) : str :=
  match width with
  | O => acc
  | S w => zfill w (n / 10) (digit_char (n mod 10) :: acc)
  end.

Fixpoint decimal_go (fuel : nat) (n : N) (acc : str) : str :=
  let acc' := digit_char (n mod 10) :: acc in
  match fuel with
  | O => acc'
  | S f => if n / 10 =? 0 then acc' else decimal_go f (n / 10) acc'
  end.

(** [str(n)] for a natural number. *)
Definition str_of_nat (n : nat) : str :=
  decimal_go n (N.of_nat n) [].

Definition hex_char (d : N) : char := if d <? 10 then 48 + d else 87 + d.

Fixpoint hex_go (fuel : nat) (n : N) (acc : str) : str :=
  let acc' := hex_char (n mod 16) :: acc in
  match fuel with
  | O => acc'
  | S f => if n / 16 =? 0 then acc' else hex_go f (n / 16) acc'
  end.

(** ['%x' % n]. *)
Definition format_x (n : N) : str := hex_go (N.to_nat (N.log2 n)) n [].

(** *** Comparison of strings: code point by code point *)

Fixpoint str_leb (a b : str) : bool :=
  match a, b with
  | [], _ => true
  | _ :: _, [] => false
  | x :: a', y :: b' =>
      if x <? y then true else if y <? x then false else str_leb a' b'
  end.

Definition str_le (a b : str) : Prop := str_leb a b = true.

Global Instance str_le_dec : RelDecision str_le.
Proof. intros a b. unfold str_le. apply _. Defined.

(** [sorted(l)] on strings. *)
Definition sorted (l : list str) : list str := merge_sort str_le l.

End Py.

Import Py.

(** ** The IP set parser and the reconciliation *)

(** [{ip.strip() for ip in raw_ips if ip.strip()}] *)
Definition clean_set (raw_ips : list str) : gset str :=
  list_to_set (strip <$> filter (λ ip, strip ip ≠ []) raw_ips).

Definition get_ips_from_content (content delimiter_value : str)
  : res (gset str) :=
  raw_ips ← (if decide (delimiter_value = [LF])
             then Ret (splitlines content)
             else split content delimiter_value);
  Ret (clean_set raw_ips).

(** The local [ips_to_keep] of [update_content]. *)
Definition ips_to_keep (original_ips remove_set : gset str) : gset str :=
  original_ips ∖ remove_set.

Definition update_content (content : str) (remove_set : gset str)
    (delimiter_value : str) : res str :=
  original_ips ← get_ips_from_content content delimiter_value;
  Ret (join [LF] (sorted (elements (ips_to_keep original_ips remove_set)))).

(** [re.split(r'[,\n\r]+', remove_input)] and the comprehension that
    follows it. *)
Definition is_revoke_separator (c : char) : bool :=
  (c =? COMMA) || (c =? LF) || (c =? CR).

Definition raw_remove_list (remove_input : str) : list str :=
  re_split_runs is_revoke_separator remove_input.

Definition remove_list_clean (remove_input : str) : gset str :=
  clean_set (raw_remove_list remove_input).

(** [original_ips_loaded.intersection(remove_list_clean)] *)
Definition potential_removals (original_ips_loaded remove_set : gset str)
  : gset str :=
  original_ips_loaded ∩ remove_set.

(** ** The address validator

    [is_valid_ip] calls [ipaddress.ip_address] of Python's standard
    library, which is not part of the repository.  The functions of that
    module are transcribed here as CPython (3.9.5 and later) defines them
    for a [str] argument: an IPv4 octet with a leading zero is refused and
    an IPv6 address may carry a scope id.  Each definition names the
    method of [Lib/ipaddress.py] it follows. *)

Module Ipaddress.

Definition DOT : char := 46.
Definition COLON : char := 58.
Definition SLASH : char := 47.
Definition PERCENT : char := 37.
Definition ZERO : char := 48.

Definition is_ascii_digit (c : char) : bool := (48 <=? c) && (c <=? 57).

Definition is_hex_digit (c : char) : bool :=
  is_ascii_digit c || ((65 <=? c) && (c <=? 70)) || ((97 <=? c) && (c <=? 102)).

Definition hex_val (c : char) : N :=
  if is_ascii_digit c then c - 48
  else if c <=? 70 then c - 55 else c - 87.

(** [int(s, 10)] and [int(s, 16)] on a non-empty string of digits. *)
Definition int10 (s : str) : N :=
  fold_left (λ acc c, acc * 10 + (c - 48)) s 0.
Definition int16 (s : str) : N :=
  fold_left (λ acc c, acc * 16 + hex_val c) s 0.

(** [except ValueError as exc: raise AddressValueError(...)] *)
Definition reraise_as_AddressValueError {A} (r : res A) : res A :=
  match r with
  | Ret a => Ret a
  | Raise e => if is_ValueError e then Raise AddressValueError else Raise e
  end.

(** [IPv4Address._parse_octet] *)
Definition parse_octet (octet_str : str) : res N :=
  match octet_str with
  | [] => Raise ValueError
  | c0 :: _ =>
      if negb (forallb is_ascii_digit octet_str) then Raise ValueError
      else if (3 <? length octet_str)%nat then Raise ValueError
      else if negb (bool_decide (octet_str = [ZERO])) && (c0 =? ZERO)
      then Raise ValueError
      else
        let octet_int := int10 octet_str in
        if 255 <? octet_int then Raise ValueError else Ret octet_int
  end.

(** [int.from_bytes(map(cls._parse_octet, octets), 'big')]: the octets are
    parsed from left to right and the first failure is raised. *)
Fixpoint from_octets (acc : N) (octets : list str) : res N :=
  match octets with
  | [] => Ret acc
  | o :: os => v ← parse_octet o; from_octets (acc * 256 + v) os
  end.

(** [IPv4Address._ip_int_from_string] *)
Definition v4_ip_int_from_string (ip_str : str) : res N :=
  match ip_str with
  | [] => Raise AddressValueError
  | _ :: _ =>
      octets ← split ip_str [DOT];
      if negb (length octets =? 4)%nat then Raise AddressValueError
      else reraise_as_AddressValueError (from_octets 0 octets)
  end.

(** [IPv4Address(address)._ip] for a string. *)
Definition IPv4Address (address : str) : res N :=
  if in_str SLASH address then Raise AddressValueError
  else v4_ip_int_from_string address.

(** [IPv6Address._parse_hextet] *)
Definition parse_hextet (hextet_str : str) : res N :=
  if negb (forallb is_hex_digit hextet_str) then Raise ValueError
  else if (4 <? length hextet_str)%nat then Raise ValueError
  else
    match hextet_str with
    | [] => Raise ValueError
    | _ :: _ => Ret (int16 hextet_str)
    end.

(** [ip_str.partition('%')]: the text before the first [%] and, when there
    is one, the text behind it. *)
Fixpoint partition (c : char) (s : str) : str * option str :=
  match s with
  | [] => ([], None)
  | x :: s' =>
      if x =? c then ([], Some s')
      else let '(a, b) := partition c s' in (x :: a, b)
  end.

(** [IPv6Address._split_scope_id] *)
Definition split_scope_id (ip_str : str) : res (str * option str) :=
  match partition PERCENT ip_str with
  | (addr, None) => Ret (addr, None)
  | (addr, Some scope_id) =>
      match scope_id with
      | [] => Raise AddressValueError
      | _ :: _ =>
          if in_str PERCENT scope_id then Raise AddressValueError
          else Ret (addr, Some scope_id)
      end
  end.

(** The loop that looks for the one empty part between the ends:
    [for i in range(1, len(parts) - 1)]. *)
Fixpoint find_skip_index (parts : list str) (indices : list nat)
    (skip_index : option nat) : res (option nat) :=
  match indices with
  | [] => Ret skip_index
  | i :: rest =>
      match nth i parts [] with
      | [] =>
          match skip_index with
          | Some _ => Raise AddressValueError
          | None => find_skip_index parts rest (Some i)
          end
      | _ :: _ => find_skip_index parts rest skip_index
      end
  end.

(** [ip_int <<= 16; ip_int |= cls._parse_hextet(part)] over some parts. *)
Fixpoint shift_in_hextets (ip_int : N) (parts : list str) : res N :=
  match parts with
  | [] => Ret ip_int
  | p :: ps =>
      h ← parse_hextet p;
      shift_in_hextets (N.lor (N.shiftl ip_int 16) h) ps
  end.

Definition is_empty (s : str) : bool :=
  match s with [] => true | _ :: _ => false end.

(** The parts to copy before and behind the [::] and the number of hextets
    the [::] stands for. *)
Definition plan_parts (parts : list str) (skip_index : option nat)
  : res (nat * nat * nat) :=
  match skip_index with
  | Some k =>
      let parts_hi := k in
      let parts_lo := (length parts - k - 1)%nat in
      parts_hi ← (if is_empty (nth 0 parts [])
                  then match (parts_hi - 1)%nat with
                       | O => Ret O
                       | S _ => Raise AddressValueError
                       end
                  else Ret parts_hi);
      parts_lo ← (if is_empty (List.last parts [])
                  then match (parts_lo - 1)%nat with
                       | O => Ret O
                       | S _ => Raise AddressValueError
                       end
                  else Ret parts_lo);
      let parts_skipped := (8 - Z.of_nat (parts_hi + parts_lo))%Z in
      if (parts_skipped <? 1)%Z then Raise AddressValueError
      else Ret (parts_hi, parts_lo, Z.to_nat parts_skipped)
  | None =>
      if negb (length parts =? 8)%nat then Raise AddressValueError
      else if is_empty (nth 0 parts []) then Raise AddressValueError
      else if is_empty (List.last parts []) then Raise AddressValueError
      else Ret (length parts, O, O)
  end.

(** [IPv6Address._ip_int_from_string] *)
Definition v6_ip_int_from_string (ip_str : str) : res N :=
  match ip_str with
  | [] => Raise AddressValueError
  | _ :: _ =>
      parts ← split ip_str [COLON];
      if (length parts <? 3)%nat then Raise AddressValueError
      else
        parts ← (if in_str DOT (List.last parts [])
                 then
                   ipv4_int ← reraise_as_AddressValueError
                                (IPv4Address (List.last parts []));
                   Ret (removelast parts
                        ++ [format_x (N.land (N.shiftr ipv4_int 16) 65535);
                            format_x (N.land ipv4_int 65535)])
                 else Ret parts);
        if (9 <? length parts)%nat then Raise AddressValueError
        else
          skip_index ←
            find_skip_index parts (seq 1 (length parts - 2)) None;
          '(parts_hi, parts_lo, parts_skipped) ←
            plan_parts parts skip_index;
          reraise_as_AddressValueError
            (ip_int ← shift_in_hextets 0 (take parts_hi parts);
             shift_in_hextets
               (N.shiftl ip_int (16 * N.of_nat parts_skipped))
               (drop (length parts - parts_lo) parts))
  end.

(** [IPv6Address(address)] for a string: the integer and the scope id. *)
Definition IPv6Address (address : str) : res (N * option str) :=
  if in_str SLASH address then Raise AddressValueError
  else
    '(addr_str, scope_id) ← split_scope_id address;
    ip ← v6_ip_int_from_string addr_str;
    Ret (ip, scope_id).

Inductive address :=
| V4 (ip : N)
| V6 (ip : N) (scope_id : option str).

(** [except (AddressValueError, NetmaskValueError): pass] *)
Definition ip_address (a : str) : res address :=
  match IPv4Address a with
  | Ret ip => Ret (V4 ip)
  | Raise AddressValueError =>
      match IPv6Address a with
      | Ret (ip, scope_id) => Ret (V6 ip scope_id)
      | Raise AddressValueError => Raise ValueError
      | Raise e => Raise e
      end
  | Raise e => Raise e
  end.

End Ipaddress.

Definition is_valid_ip (ip_string : str) : res bool :=
  match Ipaddress.ip_address ip_string with
  | Ret _ => Ret true
  | Raise e => if is_ValueError e then Ret false else Raise e
  end.

(** ** The audit ledger

    The SQLite file [audit_log.db]: the table [audit_events] when it
    exists, its rows in insertion order, the AUTOINCREMENT counter that
    SQLite keeps in [sqlite_sequence], and whether the file can be
    written.  A statement that has to write a read-only file, or that
    names a missing table, raises [sqlite3.OperationalError]. *)

Record datetime := {
  year : N; month : N; day : N;
  hour : N; minute : N; second : N; microsecond : N
}.

(** [datetime.isoformat()]: the fraction is left out when it is zero. *)
Definition isoformat (d : datetime) : str :=
  zfill 4 (year d) [] ++ lit "-" ++ zfill 2 (month d) [] ++ lit "-"
  ++ zfill 2 (day d) [] ++ lit "T" ++ zfill 2 (hour d) [] ++ lit ":"
  ++ zfill 2 (minute d) [] ++ lit ":" ++ zfill 2 (second d) []
  ++ (if microsecond d =? 0 then []
      else lit "." ++ zfill 6 (microsecond d) []).

(** [strftime('%Y-%m-%d %H:%M:%S')] *)
Definition strftime_report (d : datetime) : str :=
  zfill 4 (year d) [] ++ lit "-" ++ zfill 2 (month d) [] ++ lit "-"
  ++ zfill 2 (day d) [] ++ lit " " ++ zfill 2 (hour d) [] ++ lit ":"
  ++ zfill 2 (minute d) [] ++ lit ":" ++ zfill 2 (second d) [].

Record audit_event := {
  id : Z;
  timestamp : str;
  action : str;
  user_id : option str;
  target_file : str;
  ips_revoked : Z
}.

Record database := {
  audit_events : option (list audit_event);
  sqlite_sequence : Z;
  readonly : bool
}.

(** [CREATE TABLE IF NOT EXISTS audit_events (...)] *)
Definition init_db (db : database) : res database :=
  match audit_events db with
  | Some _ => Ret db
  | None =>
      if readonly db then Raise OperationalError
      else Ret {| audit_events := Some [];
                  sqlite_sequence := sqlite_sequence db;
                  readonly := readonly db |}
  end.

(** The largest [id] of the table, 0 when it is empty. *)
Definition max_rowid (rows : list audit_event) : Z :=
  foldr (λ r m, Z.max (id r) m) 0%Z rows.

(** The largest rowid SQLite can store: 2^63 - 1. *)
Definition largest_rowid : Z := 9223372036854775807.

(** [INSERT INTO audit_events (timestamp, action, user_id, target_file,
    ips_revoked) VALUES (?, ?, ?, ?, ?)]: an AUTOINCREMENT key is one more
    than the largest key the table has ever held; once the largest rowid
    has been used the insert is refused ([SQLITE_FULL], an
    [OperationalError]). *)
Definition log_audit_event (now : datetime) (user target : str)
    (count : nat) (db : database) : res database :=
  let timestamp := isoformat now in
  let action := lit "Access Revocation Audit" in
  match audit_events db with
  | None => Raise OperationalError
  | Some rows =>
      if readonly db then Raise OperationalError
      else if (largest_rowid <=? Z.max (max_rowid rows) (sqlite_sequence db))%Z
      then Raise OperationalError
      else
        let new_id := (Z.max (max_rowid rows) (sqlite_sequence db) + 1)%Z in
        Ret {| audit_events :=
                 Some (rows ++ [{| id := new_id;
                                   timestamp := timestamp;
                                   action := action;
                                   user_id := Some user;
                                   target_file := target;
                                   ips_revoked := Z.of_nat count |}]);
               sqlite_sequence := new_id;
               readonly := readonly db |}
  end.

(** [ORDER BY timestamp DESC]: text compares byte by byte, which for UTF-8
    is code point by code point. *)
Definition timestamp_desc (a b : audit_event) : Prop :=
  str_le (timestamp b) (timestamp a).

Global Instance timestamp_desc_dec : RelDecision timestamp_desc.
Proof. intros a b. unfold timestamp_desc. apply _. Defined.

Definition select_all_order_by_timestamp_desc (db : database)
  : res (list audit_event) :=
  match audit_events db with
  | None => Raise OperationalError
  | Some rows => Ret (merge_sort timestamp_desc rows)
  end.

(** A row of the data frame once the [id] column is dropped. *)
Record log_row := {
  row_timestamp : str;
  row_action : str;
  row_user_id : option str;
  row_target_file : str;
  row_ips_revoked : Z
}.

Definition drop_id (e : audit_event) : log_row :=
  {| row_timestamp := timestamp e;
     row_action := action e;
     row_user_id := user_id e;
     row_target_file := target_file e;
     row_ips_revoked := ips_revoked e |}.

Definition load_audit_logs (db : database) : res (list log_row) :=
  df ← select_all_order_by_timestamp_desc db;
  Ret (map drop_id df).

(** ** The report

    [generate_pdf_report] builds a ReportLab story and renders it; the
    story is the content of the document and is what is modelled. *)

Inductive lang := es | en.

Global Instance lang_eq_dec : EqDecision lang.
Proof. solve_decision. Defined.

Record report_labels := {
  r_title : str;
  r_date : str;
  r_section_summary : str;
  r_section_details : str;
  r_total_initial : str;
  r_total_removed : str;
  r_total_final : str;
  r_ip_list_header : list str;
  r_status_removed : str;
  r_status_maintained : str;
  r_conclusion : str
}.

Definition report_labels_of (language : lang) : report_labels :=
  match language with
  | es =>
      {| r_title := lit "Reporte de Auditoría de Acceso Restringido";
         r_date := lit "Fecha de Generación:";
         r_section_summary := lit "1. Resumen Ejecutivo de la Auditoría";
         r_section_details := lit "2. Detalle de IPs Revocadas";
         r_total_initial := lit "Total de IPs Iniciales:";
         r_total_removed := lit "Total de IPs Eliminadas:";
         r_total_final := lit "Total de IPs Finales:";
         r_ip_list_header := [lit "IP Revocada"; lit "Estado"];
         r_status_removed := lit "REVOCADA (Coincidencia)";
         r_status_maintained := lit "Mantenida";
         r_conclusion := lit "La herramienta ejecutó la revocación de acceso según lo planificado, garantizando el principio de mínimo privilegio y el cumplimiento normativo." |}
  | en =>
      {| r_title := lit "Restricted Access Audit Report";
         r_date := lit "Generation Date:";
         r_section_summary := lit "1. Executive Audit Summary";
         r_section_details := lit "2. Revoked IPs Detail";
         r_total_initial := lit "Total Initial IPs:";
         r_total_removed := lit "Total Removed IPs:";
         r_total_final := lit "Total Final IPs:";
         r_ip_list_header := [lit "Revoked IP"; lit "Status"];
         r_status_removed := lit "REVOKED (Match Found)";
         r_status_maintained := lit "Maintained";
         r_conclusion := lit "The tool executed access revocation as planned, ensuring the principle of least privilege and regulatory compliance." |}
  end.

Inductive cell :=
| CStr (s : str)
| CInt (n : nat).

Inductive style := Title | Normal | h2.

Inductive flowable :=
| Paragraph (text : str) (sty : style)
| Spacer
| Table (data : list (list cell)).

(** The rows of the detail table behind its header. *)
Definition detail_rows (R : report_labels) (removals : gset str)
  : list (list cell) :=
  ((λ ip, [CStr ip; CStr (r_status_removed R)])
     <$> sorted (elements removals))
  ++ (if decide (removals = ∅)
      then [[CStr (lit "N/A"); CStr (r_status_maintained R)]]
      else []).

Definition generate_pdf_report (now : datetime)
    (original_ips potential_removals updated_ips : gset str)
    (language : lang) : list flowable :=
  let R := report_labels_of language in
  let summary_data :=
    [ [CStr (r_total_initial R); CInt (size original_ips)];
      [CStr (r_total_removed R); CInt (size potential_removals)];
      [CStr (r_total_final R); CInt (size updated_ips)] ] in
  let ip_data :=
    (CStr <$> r_ip_list_header R) :: detail_rows R potential_removals in
  [ Paragraph (lit "<b>" ++ r_title R ++ lit "</b>") Title;
    Spacer;
    Paragraph (lit "<b>" ++ r_date R ++ lit "</b> " ++ strftime_report now)
              Normal;
    Spacer;
    Paragraph (r_section_summary R) h2;
    Table summary_data;
    Spacer;
    Paragraph (r_conclusion R) Normal;
    Spacer;
    Paragraph (r_section_details R) h2;
    Table ip_data ].

(** ** The Streamlit script

    Streamlit runs the whole script once per interaction.  A run reads the
    widgets, the session state, the ledger and the clock, and writes
    elements to the screen.  [st.stop()] and [st.rerun()] end the run by
    raising; any other exception that is not caught ends it as well.
    Titles, dividers, columns, the expander and the spinner are layout and
    are left out. *)

Record texts := {
  t_success : str;
  t_warning_audit : str;
  t_info_no_match : str;
  t_error_validation : str;
  t_error_empty : str;
  t_download_label : str;
  t_pdf_download : str
}.

Definition TEXTS (l : lang) : texts :=
  match l with
  | es =>
      {| t_success := lit "✅ ¡Lista de acceso actualizada con éxito! Haga clic para descargar.";
         t_warning_audit := lit "⚠️ Se eliminarán **{removals}** de **{total}** IPs que coinciden. Confirme la acción.";
         t_info_no_match := lit "ℹ️ No se encontraron coincidencias para revocar. El archivo permanecerá sin cambios.";
         t_error_validation := lit "❌ ERROR de Validación: Al menos una de las entradas no es una dirección IP válida. Por favor, corrija los datos y reintente.";
         t_error_empty := lit "❌ ERROR: La lista de IPs a revocar está vacía.";
         t_download_label := lit "⬇️ Descargar Lista Actualizada";
         t_pdf_download := lit "📄 Descargar Reporte PDF" |}
  | en =>
      {| t_success := lit "✅ Access List updated successfully! Click to download.";
         t_warning_audit := lit "⚠️ **{removals}** out of **{total}** matching IPs will be removed. Confirm the action.";
         t_info_no_match := lit "ℹ️ No matches found to revoke. The file will remain unchanged.";
         t_error_validation := lit "❌ Validation ERROR: At least one of the entries is not a valid IP address. Please correct the data and retry.";
         t_error_empty := lit "❌ ERROR: The list of IPs to revoke is empty.";
         t_download_label := lit "⬇️ Download Updated List";
         t_pdf_download := lit "📄 Download PDF Report" |}
  end.

(** The four entries of [delimiter_options], and [delimiter_map]. *)
Inductive delimiter_option := NewLine | Comma | Space | Tab.

Definition delimiter_map (d : delimiter_option) : str :=
  match d with
  | NewLine => [LF]
  | Comma => [COMMA]
  | Space => [32]
  | Tab => [9]
  end.

(** A value stored in [st.session_state]. *)
Inductive sval :=
| VBool (b : bool)
| VStr (s : str)
| VReport (story : list flowable).

Inductive element :=
| st_error (msg : str)
| st_warning (msg : str)
| st_info (msg : str)
| st_success (msg : str)
| st_download_button (label : str) (data : sval) (file_name mime : str)
| st_dataframe (rows : list log_row)
| st_write (msg : str)
| st_error_audit_logs (e : exn).

Record world := {
  session_state : gmap string sval;
  db : database;
  screen : list element
}.

(** The uploaded file: its name and the bytes that [read()] returns. *)
Record uploaded := {
  file_name : str;
  file_bytes : list N
}.

(** What one run reads: the widgets and the clock (once when the report is
    built, once when the ledger row is written). *)
Record run_input := {
  lang_selection : lang;
  delimiter_name : delimiter_option;
  uploaded_file : option uploaded;
  remove_input : str;
  button : bool;
  clock_report : datetime;
  clock_log : datetime
}.

(** A piece of the script: it may change the world and returns or
    raises. *)
Definition script (A : Type) : Type := world → res A * world.

Global Instance script_ret : MRet script := λ A a w, (Ret a, w).
Global Instance script_bind : MBind script := λ A B k m w,
  match m w with
  | (Ret a, w') => k a w'
  | (Raise e, w') => (Raise e, w')
  end.

Definition lift {A} (r : res A) : script A := λ w, (r, w).

Definition show (e : element) : script unit := λ w,
  (Ret tt, {| session_state := session_state w;
              db := db w;
              screen := screen w ++ [e] |}).

Definition get_session : script (gmap string sval) := λ w,
  (Ret (session_state w), w).

Definition set_session (key : string) (v : sval) : script unit := λ w,
  (Ret tt, {| session_state := <[key := v]> (session_state w);
              db := db w;
              screen := screen w |}).

(** [st.session_state[key]] *)
Definition session_item (key : string) : script sval := λ w,
  match session_state w !! key with
  | Some v => (Ret v, w)
  | None => (Raise KeyError, w)
  end.

(** A statement on the ledger: the file changes only when it succeeds. *)
Definition on_db (f : database → res database) : script unit := λ w,
  match f (db w) with
  | Ret db' => (Ret tt, {| session_state := session_state w;
                           db := db';
                           screen := screen w |})
  | Raise e => (Raise e, w)
  end.

Definition query_db {A} (f : database → res A) : script A := λ w,
  (f (db w), w).

(** [try: body except Exception as e: handler(e)]; [st.stop()] and
    [st.rerun()] are not raised inside the one [try] of the script. *)
Definition try_except {A} (body : script A) (handler : exn → script A)
  : script A := λ w,
  match body w with
  | (Ret a, w') => (Ret a, w')
  | (Raise e, w') => handler e w'
  end.

Definition truthy (v : sval) : bool :=
  match v with
  | VBool b => b
  | VStr s => negb (Ipaddress.is_empty s)
  | VReport _ => true
  end.

(** [[ip for ip in remove_list_clean if not is_valid_ip(ip)]] *)
Fixpoint invalid_ips (ips : list str) : res (list str) :=
  match ips with
  | [] => Ret []
  | ip :: rest =>
      ok ← is_valid_ip ip;
      bad ← invalid_ips rest;
      Ret (if (ok : bool) then (bad : list str) else ip :: bad)
  end.

(** [T["warning_audit"].format(removals=..., total=...)]: the two fields
    of the template are replaced by the numbers. *)
Definition format_warning_audit (T : texts) (removals total : nat)
  : res str :=
  s ← replace (t_warning_audit T) (lit "{removals}") (str_of_nat removals);
  replace s (lit "{total}") (str_of_nat total).

Definition validation_message (T : texts) (invalid : list str) : str :=
  t_error_validation T ++ lit " IPs no válidas encontradas: "
  ++ join (lit ", ") invalid.

(** Lines 278 to 310: the confirmed action. *)
Definition confirm_action (i : run_input) (f : uploaded) (content : str)
    (delimiter_value : str) (remove_set removals : gset str)
  : script unit :=
  updated_content ←
    lift (update_content content remove_set delimiter_value);
  original_ips ←
    lift (get_ips_from_content content delimiter_value);
  updated_ips ← lift (get_ips_from_content updated_content [LF]);
  let pdf_buffer :=
    generate_pdf_report (clock_report i) original_ips removals updated_ips
                        (lang_selection i) in
  let user := lit "admin_default" in
  let target := file_name f in
  let count := size removals in
  on_db (log_audit_event (clock_log i) user target count);;
  set_session "updated_content_txt" (VStr updated_content);;
  set_session "pdf_report" (VReport pdf_buffer);;
  base ← lift (replace (file_name f) (lit ".txt") []);
  set_session "file_name_base" (VStr base);;
  set_session "success" (VBool true);;
  lift (Raise RerunException).

(** Lines 238 to 310: what the script does with an uploaded file. *)
Definition with_uploaded_file (i : run_input) (T : texts)
    (delimiter_value : str) (f : uploaded) : script unit :=
  content ← lift (decode_utf8 (file_bytes f));
  original_ips_loaded ←
    lift (get_ips_from_content content delimiter_value);
  if Ipaddress.is_empty (remove_input i) then mret tt
  else
    let remove_set := remove_list_clean (remove_input i) in
    if decide (remove_set = ∅) then
      show (st_error (t_error_empty T));;
      set_session "success" (VBool false);;
      lift (Raise StopException)
    else
      invalid ← lift (invalid_ips (elements remove_set));
      match invalid with
      | _ :: _ =>
          show (st_error (validation_message T invalid));;
          set_session "success" (VBool false);;
          lift (Raise StopException)
      | [] =>
          let removals := potential_removals original_ips_loaded remove_set in
          (if decide (removals = ∅) then show (st_info (t_info_no_match T))
           else
             msg ← lift (format_warning_audit T (size removals)
                                              (size original_ips_loaded));
             show (st_warning msg));;
          if button i
          then confirm_action i f content delimiter_value remove_set removals
          else mret tt
      end.

(** Lines 312 to 332: the download buttons. *)
Definition downloads (T : texts) : script unit :=
  success ← session_item "success";
  if truthy success then
    show (st_success (t_success T));;
    txt ← session_item "updated_content_txt";
    base ← session_item "file_name_base";
    let base := match base with VStr b => b | _ => [] end in
    show (st_download_button (t_download_label T ++ lit " (.txt)") txt
            (base ++ lit "_updated.txt") (lit "text/plain"));;
    pdf ← session_item "pdf_report";
    show (st_download_button (t_pdf_download T) pdf
            (base ++ lit "_Audit_Report.pdf") (lit "application/pdf"))
  else mret tt.

(** Lines 342 to 353: the audit history. *)
Definition audit_history : script unit :=
  try_except
    (audit_df ← query_db load_audit_logs;
     match audit_df with
     | _ :: _ => show (st_dataframe audit_df)
     | [] => show (st_write (lit "No se han registrado eventos de auditoría."))
     end)
    (λ e, show (st_error_audit_logs e)).

(** The script, top to bottom. *)
Definition app (i : run_input) : script unit :=
  on_db init_db;;
  let T := TEXTS (lang_selection i) in
  let delimiter_value := delimiter_map (delimiter_name i) in
  s ← get_session;
  (if decide (s !! "success" = None)
   then set_session "success" (VBool false) else mret tt);;
  match uploaded_file i with
  | Some f => with_uploaded_file i T delimiter_value f
  | None => mret tt
  end;;
  downloads T;;
  audit_history.

(** One run starts from an empty screen. *)
Definition run (i : run_input) (w : world) : res unit * world :=
  app i {| session_state := session_state w; db := db w; screen := [] |}.

Definition released (i : run_input) : run_input :=
  {| lang_selection := lang_selection i;
     delimiter_name := delimiter_name i;
     uploaded_file := uploaded_file i;
     remove_input := remove_input i;
     button := false;
     clock_report := clock_report i;
     clock_log := clock_log i |}.

(** One interaction: [st.rerun()] makes Streamlit run the script again at
    once, with the same widgets and the button released. *)
Definition interact (i : run_input) (w : world) : res unit * world :=
  match run i w with
  | (Raise RerunException, w') => run (released i) w'
  | r => r
  end.

(** ** Vocabulary of the statements *)

(** The upload decodes: [uploaded_file.read().decode("utf-8")] returns. *)
Definition decodes (f : uploaded) : Prop :=
  ∃ content, decode_utf8 (file_bytes f) = Ret content.

(** The text of an upload that decodes (the empty text stands in for an
    upload that does not; the statements then speak of uploads that
    decode). *)
Definition file_content (f : uploaded) : str :=
  match decode_utf8 (file_bytes f) with
  | Ret content => content
  | Raise _ => []
  end.

Definition all_space (s : str) : Prop := Forall (λ c, isspace c = true) s.

Definition no_linebreak (s : str) : Prop :=
  Forall (λ c, is_linebreak c = false) s.

(** [x] is [tok] without the whitespace around it. *)
Definition trimmed (tok x : str) : Prop :=
  ∃ l r, tok = l ++ x ++ r ∧ all_space l ∧ all_space r
         ∧ (∀ c, head x = Some c → isspace c = false)
         ∧ (∀ c, last x = Some c → isspace c = false).

(** [sep] occurs in [t]. *)
Definition occurs_in (sep t : str) : Prop := ∃ a b, t = a ++ sep ++ b.

(** The tokens between the occurrences of a literal separator, found
    leftmost first: up to the end of an occurrence no earlier occurrence
    starts. *)
Inductive split_of (sep : str) : str → list str → Prop :=
| split_of_last t :
    ¬ occurs_in sep t → split_of sep t [t]
| split_of_cons t rest ts :
    ¬ occurs_in sep (t ++ removelast sep) →
    split_of sep rest ts →
    split_of sep (t ++ sep ++ rest) (t :: ts).

(** [e] ends a line in front of [rest]: CR LF, or one boundary character
    that is not the CR of a CR LF. *)
Inductive line_ending : str → str → Prop :=
| ending_crlf rest : line_ending [CR; LF] rest
| ending_one c rest :
    is_linebreak c = true →
    ¬ (c = CR ∧ head rest = Some LF) →
    line_ending [c] rest.

(** The lines of a text: each line is free of boundary characters and
    ends at a line ending, the last one possibly at the end of the
    text. *)
Inductive lines_of : str → list str → Prop :=
| lines_of_nil : lines_of [] []
| lines_of_last l :
    l ≠ [] → no_linebreak l → lines_of l [l]
| lines_of_cons l e rest ls :
    no_linebreak l → line_ending e rest → lines_of rest ls →
    lines_of (l ++ e ++ rest) (l :: ls).

(** The tokens between the maximal runs of characters of a class. *)
Inductive runs_split (cls : char → bool) : str → list str → Prop :=
| runs_split_last t :
    Forall (λ c, cls c = false) t → runs_split cls t [t]
| runs_split_cons t run rest ts :
    Forall (λ c, cls c = false) t →
    run ≠ [] → Forall (λ c, cls c = true) run →
    (∀ c, head rest = Some c → cls c = false) →
    runs_split cls rest ts →
    runs_split cls (t ++ run ++ rest) (t :: ts).

(** Serialization of an address set: sorted, one address per line. *)
Definition serialize (S : gset str) : str :=
  join [LF] (sorted (elements S)).

(** An address set as the parser builds it: every element is stripped and
    non-empty. *)
Definition normalized (S : gset str) : Prop :=
  ∀ x, x ∈ S → strip x = x ∧ x ≠ [].

(** The rows of the ledger, none while the table is missing. *)
Definition rows_of (d : database) : list audit_event :=
  default [] (audit_events d).

(** The ledger takes one more row: its file can be written and the
    largest rowid has not been handed out. *)
Definition can_append (d : database) : Prop :=
  readonly d = false
  ∧ (Z.max (max_rowid (rows_of d)) (sqlite_sequence d) < largest_rowid)%Z.

(** [r] raises nothing but exceptions of [P]. *)
Definition raises_only {A} (P : exn → Prop) (r : res A) : Prop :=
  ∀ e, r = Raise e → P e.

(** The verdict of the validator as a boolean. *)
Definition valid_ip (s : str) : bool :=
  match Ipaddress.ip_address s with
  | Ret _ => true
  | Raise _ => false
  end.

(** What [replace] returns for a non-empty [old]. *)
Definition replaced (s old new : str) : str :=
  join new (split_scan (length s) old s).

(** The text of the warning shown before the action is confirmed. *)
Definition warning_text (T : texts) (removals total : nat) : str :=
  replaced (replaced (t_warning_audit T) (lit "{removals}")
                     (str_of_nat removals))
           (lit "{total}") (str_of_nat total).

(** The element that announces the matches: a warning with the two
    counts, or the note that nothing matches. *)
Definition notice (T : texts) (removals original : gset str) : element :=
  if decide (removals = ∅) then st_info (t_info_no_match T)
  else st_warning (warning_text T (size removals) (size original)).

(** [uploaded_file.name.replace(".txt", "")] *)
Definition base_name (f : uploaded) : str :=
  replaced (file_name f) (lit ".txt") [].

(** The session state once the script has made sure it has a [success]
    flag. *)
Definition with_success_default (ss : gmap string sval) : gmap string sval :=
  if decide (ss !! "success" = None) then <["success" := VBool false]> ss
  else ss.

(** The session state after a confirmed action. *)
Definition stored (ss : gmap string sval) (updated_content : str)
    (pdf : list flowable) (base : str) : gmap string sval :=
  <["success" := VBool true]>
    (<["file_name_base" := VStr base]>
       (<["pdf_report" := VReport pdf]>
          (<["updated_content_txt" := VStr updated_content]> ss))).

Definition is_download_button (e : element) : bool :=
  match e with
  | st_download_button _ _ _ _ => true
  | _ => false
  end.

(** The revoke request of a run passes validation: it is not empty and
    every entry is a valid address. *)
Definition valid_request (remove_input : str) : Prop :=
  remove_list_clean remove_input ≠ ∅
  ∧ ∀ x, x ∈ remove_list_clean remove_input → valid_ip x = true.

(** The updated list, the sets of the report and the report of a
    confirmed action. *)
Definition updated_text (original remove_set : gset str) : str :=
  serialize (ips_to_keep original remove_set).

Definition updated_ips (original remove_set : gset str) : gset str :=
  clean_set (splitlines (updated_text original remove_set)).

Definition report_of (i : run_input) (original remove_set : gset str)
  : list flowable :=
  generate_pdf_report (clock_report i) original
    (potential_removals original remove_set)
    (updated_ips original remove_set) (lang_selection i).

(** The tables of a story, in order. *)
Definition tables (story : list flowable) : list (list (list cell)) :=
  omap (λ fl, match fl with Table data => Some data | _ => None end) story.

(** The same widgets with another delimiter selected. *)
Definition with_delimiter (d : delimiter_option) (i : run_input)
  : run_input :=
  {| lang_selection := lang_selection i;
     delimiter_name := d;
     uploaded_file := uploaded_file i;
     remove_input := remove_input i;
     button := button i;
     clock_report := clock_report i;
     clock_log := clock_log i |}.

(** ** Sample inputs *)

(** The file [1.1.1.1,2.2.2.2<LF>3.3.3.3] read with the comma as
    delimiter: its second address spans two lines. *)
Definition two_line_address : str := lit "2.2.2.2" ++ [LF] ++ lit "3.3.3.3".

Definition comma_file : str := lit "1.1.1.1," ++ two_line_address.

Definition comma_file_set : gset str :=
  {[ lit "1.1.1.1"; two_line_address ]}.

Definition sample_clock : datetime :=
  {| year := 2024; month := 3; day := 9;
     hour := 10; minute := 5; second := 7; microsecond := 0 |}.

Definition fresh_db : database :=
  {| audit_events := None; sqlite_sequence := 0; readonly := false |}.

Definition fresh_world : world :=
  {| session_state := ∅; db := fresh_db; screen := [] |}.

Definition sample_file : uploaded :=
  {| file_name := lit "allow.txt"; file_bytes := lit "10.0.0.1" |}.

Definition request (text : str) (pressed : bool) : run_input :=
  {| lang_selection := en;
     delimiter_name := NewLine;
     uploaded_file := Some sample_file;
     remove_input := text;
     button := pressed;
     clock_report := sample_clock;
     clock_log := sample_clock |}.

(** The scenario of three addresses, one of which is revoked. *)
Definition scenario_file : uploaded :=
  {| file_name := lit "allow.txt";
     file_bytes := lit "1.1.1.1" ++ [LF] ++ lit "2.2.2.2" ++ [LF]
                   ++ lit "3.3.3.3" |}.

Definition scenario (d : database) (pressed : bool) : run_input * world :=
  ({| lang_selection := en;
      delimiter_name := NewLine;
      uploaded_file := Some scenario_file;
      remove_input := lit "2.2.2.2, 9.9.9.9";
      button := pressed;
      clock_report := sample_clock;
      clock_log := sample_clock |},
   {| session_state := ∅; db := d; screen := [] |}).


(** The comma-delimited file of two lines, with [1.1.1.1] revoked. *)
Definition comma_scenario : run_input * world :=
  ({| lang_selection := en;
      delimiter_name := Comma;
      uploaded_file := Some {| file_name := lit "allow.txt";
                               file_bytes := comma_file |};
      remove_input := lit "1.1.1.1";
      button := true;
      clock_report := sample_clock;
      clock_log := sample_clock |},
   fresh_world).

(** The world in which a run stopped itself with [st.stop()], if it
    did. *)
Definition validation_stop (r : res unit * world) : option world :=
  match r with
  | (Raise StopException, w') => Some w'
  | _ => None
  end.

(** ** Vocabulary of the ledger statements *)

(** One call of [log_audit_event]: the clock reading and the
    arguments. *)
Record append_call := {
  call_now : datetime;
  call_user : str;
  call_target : str;
  call_count : nat
}.

(** A sequence of calls, each of which succeeds. *)
Fixpoint appends (calls : list append_call) (d : database) : res database :=
  match calls with
  | [] => Ret d
  | c :: cs =>
      d' ← log_audit_event (call_now c) (call_user c) (call_target c)
                           (call_count c) d;
      appends cs d'
  end.

(** Three-way comparison of strings, code point by code point. *)
Fixpoint str_compare (a b : str) : comparison :=
  match a, b with
  | [], [] => Eq
  | [], _ :: _ => Lt
  | _ :: _, [] => Gt
  | x :: a', y :: b' =>
      match x ?= y with
      | Eq => str_compare a' b'
      | c => c
      end
  end.

(** Then the first of two results decides unless it is [Eq]. *)
Definition lex (c1 c2 : comparison) : comparison :=
  match c1 with
  | Eq => c2
  | _ => c1
  end.

(** Clock readings in the order of time. *)
Definition datetime_compare (a b : datetime) : comparison :=
  lex (year a ?= year b)
    (lex (month a ?= month b)
       (lex (day a ?= day b)
          (lex (hour a ?= hour b)
             (lex (minute a ?= minute b)
                (lex (second a ?= second b)
                   (microsecond a ?= microsecond b)))))).


(** The fields of a [datetime] fit their widths: four digits for the year,
    two for month, day, hour, minute and second, six for the
    microsecond. *)
Definition fits_widths (d : datetime) : Prop :=
  year d < 10000 ∧ month d < 100 ∧ day d < 100 ∧ hour d < 100
  ∧ minute d < 100 ∧ second d < 100 ∧ microsecond d < 1000000.


(** Two appends, one second apart. *)
Definition sample_calls : list append_call :=
  [ {| call_now := sample_clock;
       call_user := lit "admin_default";
       call_target := lit "allow.txt";
       call_count := 1 |};
    {| call_now := {| year := 2024; month := 3; day := 9;
                      hour := 10; minute := 5; second := 8;
                      microsecond := 250 |};
       call_user := lit "admin_default";
       call_target := lit "allow.txt";
       call_count := 0 |} ].

(** The ledger a fresh file holds after [init_db] and some appends. *)
Definition ledger_after (calls : list append_call) : database :=
  match init_db fresh_db ≫= appends calls with
  | Ret d => d
  | Raise _ => fresh_db
  end.

(** ** Well-formed addresses

    The textual forms of an address: dotted decimal for IPv4 (four
    decimal numbers of at most 255 without leading zeros) and colon
    hexadecimal for IPv6 (eight groups of one to four hexadecimal digits,
    one run of groups possibly replaced by a double colon, the last two
    groups possibly written as a dotted IPv4 address, and possibly a zone
    behind a percent sign). *)

(** [r] returns. *)
Definition succeeds {A} (r : res A) : Prop := ∃ a, r = Ret a.

Definition decimal_octet (o : str) : Prop :=
  o ≠ []
  ∧ Forall (λ c, Ipaddress.is_ascii_digit c = true) o
  ∧ (length o ≤ 3)%nat
  ∧ (o = [Ipaddress.ZERO] ∨ head o ≠ Some Ipaddress.ZERO)
  ∧ Ipaddress.int10 o ≤ 255.

Definition wf_ipv4 (s : str) : Prop :=
  ∃ octets, length octets = 4%nat ∧ Forall decimal_octet octets
            ∧ s = join [Ipaddress.DOT] octets.

Definition hextet (h : str) : Prop :=
  h ≠ [] ∧ (length h ≤ 4)%nat
  ∧ Forall (λ c, Ipaddress.is_hex_digit c = true) h.

(** [groups gs n]: the texts [gs] are groups that stand for [n] times 16
    bits; only the last may be a dotted IPv4 address, which stands for
    two. *)
Inductive groups : list str → nat → Prop :=
| groups_hextets hs :
    Forall hextet hs → groups hs (length hs)
| groups_dotted hs v4 :
    Forall hextet hs → wf_ipv4 v4 → groups (hs ++ [v4]) (length hs + 2).

Definition wf_ipv6_address (s : str) : Prop :=
  (∃ gs, groups gs 8 ∧ s = join [Ipaddress.COLON] gs)
  ∨ (∃ hi lo n,
       Forall hextet hi ∧ groups lo n ∧ (length hi + n ≤ 7)%nat
       ∧ s = join [Ipaddress.COLON] hi
             ++ [Ipaddress.COLON; Ipaddress.COLON]
             ++ join [Ipaddress.COLON] lo).

Definition wf_ipv6 (s : str) : Prop :=
  wf_ipv6_address s
  ∨ ∃ a zone,
      s = a ++ [Ipaddress.PERCENT] ++ zone
      ∧ wf_ipv6_address a
      ∧ zone ≠ []
      ∧ in_str Ipaddress.PERCENT zone = false
      ∧ in_str Ipaddress.SLASH zone = false.

(** The part of [IPv6Address._ip_int_from_string] behind the check of the
    number of parts. *)
Definition hextets_value (parts : list str) : res N :=
  skip_index ←
    Ipaddress.find_skip_index parts (seq 1 (length parts - 2)) None;
  '(parts_hi, parts_lo, parts_skipped) ←
    Ipaddress.plan_parts parts skip_index;
  Ipaddress.reraise_as_AddressValueError
    (ip_int ← Ipaddress.shift_in_hextets 0 (take parts_hi parts);
     Ipaddress.shift_in_hextets
       (N.shiftl ip_int (16 * N.of_nat parts_skipped))
       (drop (length parts - parts_lo) parts)).

(** The parts of a side of the double colon: an empty side leaves one
    empty part. *)
Definition pad (l : list str) : list str :=
  match l with
  | [] => [[]]
  | _ :: _ => l
  end.

(** The parts of an address in which every group is a hextet. *)
Definition hextet_parts (parts : list str) : Prop :=
  (length parts = 8%nat ∧ Forall hextet parts)
  ∨ (∃ hi lo, Forall hextet hi ∧ Forall hextet lo
              ∧ (length hi + length lo ≤ 7)%nat
              ∧ parts = pad hi ++ [[]] ++ pad lo).

(** The two hextets that stand for a dotted suffix. *)
Definition suffix_hextets (ip : N) : list str :=
  [format_x (N.land (N.shiftr ip 16) 65535); format_x (N.land ip 65535)].

(** The characters of an address without its zone. *)
Definition address_char (c : char) : Prop :=
  Ipaddress.is_hex_digit c = true ∨ c = Ipaddress.COLON ∨ c = Ipaddress.DOT.

(** ** Vocabulary of the session statements *)

(** The world with more elements on the screen. *)
Definition shown (w : world) (es : list element) : world :=
  {| session_state := session_state w; db := db w;
     screen := screen w ++ es |}.

(** The [success] flag is there and set. *)
Definition success_set (ss : gmap string sval) : Prop :=
  ∃ v, ss !! "success" = Some v ∧ truthy v = true.


(** A sequence of interactions in one browser session: the session state
    and the ledger go from one interaction to the next. *)
Fixpoint interactions (inputs : list run_input) (w : world) : world :=
  match inputs with
  | [] => w
  | i :: rest => interactions rest (interact i w).2
  end.

(** The download buttons of a screen. *)
Definition download_buttons (scr : list element) : list element :=
  filter (λ e, is_download_button e = true) scr.

(** ** The delimiter selection of the sidebar

    [T["delimiter_options"]] and [T["delimiter_values"]] of [TEXTS], the
    dictionary [dict(zip(options, values))] and its lookup
    [delimiter_map[delimiter_name]].  The select box offers the options
    and returns one of them. *)

Definition delimiter_options (l : lang) : list str :=
  match l with
  | es => [lit "Salto de Línea"; lit "Coma"; lit "Espacio"; lit "Tabulación"]
  | en => [lit "New Line"; lit "Comma"; lit "Space"; lit "Tab"]
  end.

Definition delimiter_values (l : lang) : list str :=
  match l with
  | es => [[LF]; [COMMA]; [32]; [9]]
  | en => [[LF]; [COMMA]; [32]; [9]]
  end.

(** [dict(pairs)]: a later pair with the same key replaces an earlier
    one. *)
Definition dict (pairs : list (str * str)) : gmap str str :=
  foldl (λ m kv, <[kv.1 := kv.2]> m) ∅ pairs.

Definition delimiter_dict (l : lang) : gmap str str :=
  dict (zip (delimiter_options l) (delimiter_values l)).

(** [d[key]] *)
Definition dict_item (d : gmap str str) (key : str) : res str :=
  match d !! key with
  | Some v => Ret v
  | None => Raise KeyError
  end.

(** The label under which the select box of a language offers an
    option. *)
Definition option_label (l : lang) (d : delimiter_option) : str :=
  nth (match d with NewLine => 0 | Comma => 1 | Space => 2 | Tab => 3 end)%nat
      (delimiter_options l) [].

(** The same widgets with another language selected. *)
Definition with_language (l : lang) (i : run_input) : run_input :=
  {| lang_selection := l;
     delimiter_name := delimiter_name i;
     uploaded_file := uploaded_file i;
     remove_input := remove_input i;
     button := button i;
     clock_report := clock_report i;
     clock_log := clock_log i |}.

(** Two worlds that differ in the texts on the screen and in the stored
    report at most. *)
Definition same_but_texts (w1 w2 : world) : Prop :=
  db w1 = db w2
  ∧ length (screen w1) = length (screen w2)
  ∧ ∀ k : string, k ≠ "pdf_report" →
      session_state w1 !! k = session_state w2 !! k.


(** ** Stripping *)

Section strip.

Lemma lstrip_all_space l s : all_space l → lstrip (l ++ s) = lstrip s.
Proof.
  induction 1 as [|c l Hc _ IH]; simpl; [done|]. by rewrite Hc.
Qed.

Lemma lstrip_fixed s :
  (∀ c, head s = Some c → isspace c = false) → lstrip s = s.
Proof.
  destruct s as [|c s]; simpl; [done|]. intros H. by rewrite (H c).
Qed.

Lemma lstrip_decompose s :
  ∃ l, s = l ++ lstrip s ∧ all_space l
       ∧ ∀ c, head (lstrip s) = Some c → isspace c = false.
Proof.
  induction s as [|c s (l & Hs & Hl & Hh)]; simpl.
  - exists []. repeat split; [constructor | done].
  - destruct (isspace c) eqn:Hc.
    + exists (c :: l). simpl. rewrite <- Hs. repeat split; [|done].
      by constructor.
    + exists []. repeat split; [constructor|].
      simpl. intros ? [= <-]. done.
Qed.

Lemma all_space_reverse l : all_space l → all_space (reverse l).
Proof. unfold all_space. by rewrite Forall_reverse. Qed.

Lemma rstrip_decompose s :
  ∃ r, s = rstrip s ++ r ∧ all_space r
       ∧ ∀ c, last (rstrip s) = Some c → isspace c = false.
Proof.
  unfold rstrip.
  destruct (lstrip_decompose (reverse s)) as (l & Hs & Hl & Hh).
  exists (reverse l). repeat split.
  - rewrite <- reverse_app, <- Hs. by rewrite reverse_involutive.
  - by apply all_space_reverse.
  - intros c. rewrite last_reverse. apply Hh.
Qed.

Lemma strip_trimmed tok : trimmed tok (strip tok).
Proof.
  unfold strip.
  destruct (lstrip_decompose tok) as (l & Htok & Hl & Hhead).
  destruct (rstrip_decompose (lstrip tok)) as (r & Hm & Hr & Hlast).
  exists l, r. repeat split; try done.
  - by rewrite <- Hm.
  - intros c Hc. apply Hhead. rewrite Hm.
    destruct (rstrip (lstrip tok)); simpl in *; [done | done].
Qed.

Lemma rstrip_all_space s r : all_space r → rstrip (s ++ r) = rstrip s.
Proof.
  intros Hr. unfold rstrip. rewrite reverse_app.
  rewrite lstrip_all_space; [done | by apply all_space_reverse].
Qed.

Lemma rstrip_fixed s :
  (∀ c, last s = Some c → isspace c = false) → rstrip s = s.
Proof.
  intros H. unfold rstrip. rewrite lstrip_fixed; [apply reverse_involutive|].
  intros c. rewrite head_reverse. apply H.
Qed.

Lemma all_space_strip s : all_space s → strip s = [].
Proof.
  intros H. unfold strip.
  replace s with (s ++ []) by apply app_nil_r.
  by rewrite lstrip_all_space.
Qed.

Lemma trimmed_unique tok x : trimmed tok x → x = strip tok.
Proof.
  intros (l & r & -> & Hl & Hr & Hh & Ht). unfold strip.
  rewrite lstrip_all_space by done.
  destruct x as [|c x].
  - simpl. fold (strip r). by rewrite all_space_strip.
  - rewrite lstrip_fixed.
    + rewrite rstrip_all_space by done. by rewrite rstrip_fixed.
    + simpl. intros ? [= <-]. apply Hh. done.
Qed.

Lemma strip_idemp s : strip (strip s) = strip s.
Proof. symmetry. apply trimmed_unique.
  destruct (strip_trimmed s) as (l & r & _ & _ & _ & Hh & Ht).
  exists [], []. rewrite app_nil_r. repeat split; try done; constructor.
Qed.

End strip.

(** ** Lines *)

Section lines.

Lemma lines_of_nil_inv s : lines_of s [] → s = [].
Proof. by inversion 1. Qed.

Lemma lines_of_push c s l ls :
  is_linebreak c = false → lines_of s (l :: ls) →
  lines_of (c :: s) ((c :: l) :: ls).
Proof.
  intros Hc H. inversion H; subst.
  - apply lines_of_last; [done | by constructor].
  - apply (lines_of_cons (c :: l)); [by constructor | done | done].
Qed.

Lemma splitlines_lines_of_bounded n s :
  (length s ≤ n)%nat → lines_of s (splitlines s).
Proof.
  revert s. induction n as [|n IH]; intros [|c s] Hn; simpl in *;
    try lia; try apply lines_of_nil.
  destruct (is_linebreak c) eqn:Hc.
  - destruct s as [|c' s'].
    + apply (lines_of_cons [] [c] []); [constructor | | constructor].
      apply ending_one; [done | naive_solver].
    + destruct ((c =? CR) && (c' =? LF)) eqn:Hcrlf.
      * apply andb_true_iff in Hcrlf as [->%N.eqb_eq ->%N.eqb_eq].
        apply (lines_of_cons [] [CR; LF] s'); [constructor | constructor |].
        apply IH. simpl in Hn. lia.
      * apply (lines_of_cons [] [c] (c' :: s')); [constructor | |].
        -- apply ending_one; [done|]. simpl. intros [-> [= ->]]. done.
        -- apply IH. lia.
  - assert (lines_of s (splitlines s)) as H by (apply IH; lia).
    destruct (splitlines s) as [|l ls].
    + apply lines_of_nil_inv in H as ->.
      apply lines_of_last; [done | by repeat constructor].
    + by apply lines_of_push.
Qed.

Lemma splitlines_lines_of s : lines_of s (splitlines s).
Proof. by apply (splitlines_lines_of_bounded (length s)). Qed.

Lemma splitlines_no_linebreak s :
  Forall no_linebreak (splitlines s).
Proof.
  generalize (splitlines_lines_of s).
  induction 1; repeat constructor; done.
Qed.

Lemma splitlines_one_line l :
  l ≠ [] → no_linebreak l → splitlines l = [l].
Proof.
  induction l as [|c l IH]; [done|]. intros _ Hl.
  apply Forall_cons in Hl as [Hc Hl]. simpl. rewrite Hc.
  destruct l as [|c' l]; [done|]. by rewrite IH.
Qed.

Lemma splitlines_line_LF l rest :
  no_linebreak l → splitlines (l ++ LF :: rest) = l :: splitlines rest.
Proof.
  induction 1 as [|c l Hc _ IH]; simpl.
  - by destruct rest.
  - by rewrite Hc, IH.
Qed.

Lemma splitlines_join l :
  Forall (λ x, x ≠ [] ∧ no_linebreak x) l →
  splitlines (join [LF] l) = l.
Proof.
  induction 1 as [|x l [Hx Hnl] Hl IH]; [done|].
  destruct l as [|y l].
  - simpl. by apply splitlines_one_line.
  - change (join [LF] (x :: y :: l)) with (x ++ LF :: join [LF] (y :: l)).
    rewrite splitlines_line_LF by done. by rewrite IH.
Qed.

End lines.

(** ** Literal separators *)

Section split.

Lemma strip_prefix_Some p s r : strip_prefix p s = Some r ↔ s = p ++ r.
Proof.
  revert s. induction p as [|a p IH]; intros s; simpl.
  - naive_solver.
  - destruct s as [|b s]; [naive_solver|].
    destruct (N.eqb_spec a b) as [->|Hne].
    + rewrite IH. naive_solver.
    + naive_solver.
Qed.

Lemma strip_prefix_None p s : strip_prefix p s = None → ∀ r, s ≠ p ++ r.
Proof.
  intros H r Hs. apply strip_prefix_Some in Hs. congruence.
Qed.

Lemma snoc_removelast (sep : str) :
  sep ≠ [] → sep = removelast sep ++ [List.last sep 0].
Proof. apply app_removelast_last. Qed.

Lemma length_removelast (sep : str) :
  sep ≠ [] → S (length (removelast sep)) = length sep.
Proof.
  intros H. rewrite (snoc_removelast sep H) at 2.
  rewrite length_app. simpl. lia.
Qed.

Lemma occurs_in_length sep t : occurs_in sep t → (length sep ≤ length t)%nat.
Proof. intros (a & b & ->). rewrite !length_app. lia. Qed.

Lemma not_occurs_in_removelast sep : sep ≠ [] → ¬ occurs_in sep (removelast sep).
Proof.
  intros H Ho%occurs_in_length. pose proof (length_removelast sep H). lia.
Qed.

Lemma occurs_in_cons sep c t :
  occurs_in sep (c :: t) → (∃ b, c :: t = sep ++ b) ∨ occurs_in sep t.
Proof.
  intros ([|a0 a] & b & H).
  - left. by exists b.
  - right. injection H as -> ->. by exists a, b.
Qed.

Lemma split_scan_split_of n sep s :
  sep ≠ [] → (length s ≤ n)%nat → split_of sep s (split_scan n sep s).
Proof.
  intros Hsep. revert s.
  induction n as [|n IH]; intros [|c s] Hn; simpl in *; try lia.
  - apply split_of_last. intros Ho%occurs_in_length.
    destruct sep; simpl in *; [done | lia].
  - apply split_of_last. intros Ho%occurs_in_length.
    destruct sep; simpl in *; [done | lia].
  - destruct (strip_prefix sep (c :: s)) as [rest|] eqn:Hp.
    + apply strip_prefix_Some in Hp. rewrite Hp.
      apply (split_of_cons sep [] rest).
      * by apply not_occurs_in_removelast.
      * apply IH. apply (f_equal length) in Hp.
        rewrite length_app in Hp. simpl in Hp.
        destruct sep; simpl in *; [done | lia].
    + pose proof (strip_prefix_None _ _ Hp) as Hnp.
      assert (split_of sep s (split_scan n sep s)) as H by (apply IH; lia).
      destruct (split_scan n sep s) as [|t ts]; [inversion H|].
      inversion H; subst.
      * apply split_of_last.
        intros [[b Hb] | Ho]%occurs_in_cons; [by eapply Hnp | done].
      * apply (split_of_cons sep (c :: t)); [|done].
        intros [[b Hb] | Ho]%occurs_in_cons; [|done].
        apply (Hnp (b ++ [List.last sep 0] ++ rest)).
        rewrite (app_assoc sep b), <- Hb. simpl. rewrite <- app_assoc.
        do 2 f_equal.
        rewrite (snoc_removelast sep Hsep) at 1. by rewrite <- app_assoc.
Qed.

Lemma split_of_join sep s ts : split_of sep s ts → s = join sep ts.
Proof.
  induction 1 as [t _ | t rest ts _ H IH]; [done|].
  destruct ts as [|t' ts]; [inversion H|].
  change (join sep (t :: t' :: ts)) with (t ++ sep ++ join sep (t' :: ts)).
  by rewrite <- IH.
Qed.

Lemma split_of_no_occurrence sep s ts :
  split_of sep s ts → Forall (λ t, ¬ occurs_in sep t) ts.
Proof.
  induction 1 as [t Ht | t rest ts Ht _ IH]; repeat constructor; try done.
  intros (a & b & ->). apply Ht. exists a, (b ++ removelast sep).
  by rewrite <- !app_assoc.
Qed.

(** The tokens are determined by the text. *)
Lemma split_of_functional sep s ts1 ts2 :
  sep ≠ [] → split_of sep s ts1 → split_of sep s ts2 → ts1 = ts2.
Proof.
  intros Hsep H1. revert ts2.
  assert (∀ t1 r1 t2 r2,
    ¬ occurs_in sep (t1 ++ removelast sep) →
    t1 ++ sep ++ r1 = t2 ++ sep ++ r2 →
    (length t1 < length t2)%nat → occurs_in sep (t2 ++ removelast sep))
    as Hshort.
  { intros t1 r1 t2 r2 _ Heq Hlen.
    apply app_eq_inv in Heq as [(k & -> & Hk) | (k & -> & Hk)].
    - rewrite length_app in Hlen. lia.
    - destruct k as [|x k]; [rewrite length_app in Hlen; simpl in Hlen; lia|].
      (* sep ++ r1 = x :: k ++ sep ++ r2 *)
      assert (length sep ≤ length (x :: k ++ removelast sep))%nat as Hl.
      { simpl. rewrite length_app.
        pose proof (length_removelast sep Hsep). lia. }
      assert (∃ b, (x :: k) ++ removelast sep = sep ++ b) as [b Hb].
      { assert (sep `prefix_of` sep ++ r1) as P1 by by exists r1.
        assert (((x :: k) ++ removelast sep) `prefix_of` sep ++ r1) as P2.
        { exists (List.last sep 0 :: r2). rewrite Hk.
          rewrite (snoc_removelast sep Hsep) at 1.
          by rewrite <- !app_assoc. }
        destruct (prefix_weak_total _ _ _ P1 P2) as [[b Hb] | P3].
        - by exists b.
        - exists []. rewrite app_nil_r.
          apply prefix_length_eq; [done | exact Hl]. }
      exists t1, b. rewrite <- app_assoc. by rewrite Hb. }
  induction H1 as [t Ht | t1 r1 ts1 Ht1 H1 IH]; intros ts2 H2.
  - inversion H2; subst; [done|]. exfalso. apply Ht. eexists _, _. done.
  - inversion H2 as [t Ht Heq | t2 r2 ts2' Ht2 H2' Heq]; subst.
    + exfalso. apply Ht. eexists _, _. done.
    + assert (length t1 = length t2) as Hlen.
      { destruct (Nat.lt_trichotomy (length t1) (length t2)) as [Hl|[Hl|Hl]];
          [|done|].
        - exfalso. apply Ht2.
          apply (Hshort t1 r1 t2 r2); [done | congruence | done].
        - exfalso. apply Ht1.
          apply (Hshort t2 r2 t1 r1); [done | congruence | done]. }
      apply app_inj_1 in Heq as [-> Heq]; [|done].
      apply app_inv_head in Heq as ->. f_equal. by apply IH.
Qed.

Lemma split_scan_fuel n m sep s :
  sep ≠ [] → (length s ≤ n)%nat → (length s ≤ m)%nat →
  split_scan n sep s = split_scan m sep s.
Proof.
  intros Hsep Hn Hm.
  eapply split_of_functional; [done | |]; by apply split_scan_split_of.
Qed.

Lemma split_Ret s sep :
  sep ≠ [] → split s sep = Ret (split_scan (length s) sep s).
Proof. by destruct sep. Qed.

Lemma split_spec s sep ts :
  sep ≠ [] → split_of sep s ts → split s sep = Ret ts.
Proof.
  intros Hsep H. rewrite split_Ret by done. f_equal.
  eapply split_of_functional; [done | | done].
  by apply split_scan_split_of.
Qed.

End split.


(** ** Runs of separators *)

Section runs.

Context (cls : char → bool).

Lemma runs_split_push c s t ts :
  cls c = false → runs_split cls s (t :: ts) →
  runs_split cls (c :: s) ((c :: t) :: ts).
Proof.
  intros Hc H. inversion H; subst.
  - apply runs_split_last. by constructor.
  - apply (runs_split_cons cls (c :: t)); try done. by constructor.
Qed.

Lemma runs_split_extend c c' s ts :
  cls c = true → cls c' = true → runs_split cls (c' :: s) ts →
  runs_split cls (c :: c' :: s) ts.
Proof.
  intros Hc Hc' H.
  inversion H as [t Ht Heq | t run rest ts' Ht Hrun Hall Hhead Hrest Heq];
    subst.
  - apply Forall_cons in Ht as [Ht _]. congruence.
  - destruct t as [|x t].
    + simpl.
      apply (runs_split_cons cls [] (c :: run) rest); try done.
      by constructor.
    + injection Heq as -> _. apply Forall_cons in Ht as [Ht _]. congruence.
Qed.

Lemma re_split_runs_spec s : runs_split cls s (re_split_runs cls s).
Proof.
  induction s as [|c s IH]; simpl.
  - apply runs_split_last. constructor.
  - destruct (cls c) eqn:Hc.
    + destruct s as [|c' s].
      * apply (runs_split_cons cls [] [c] []); try done; by repeat constructor.
      * destruct (cls c') eqn:Hc'.
        -- by apply runs_split_extend.
        -- apply (runs_split_cons cls [] [c] (c' :: s)); try done.
           ++ by repeat constructor.
           ++ simpl. by intros ? [= <-].
    + destruct (re_split_runs cls s) as [|t ts]; [inversion IH|].
      by apply runs_split_push.
Qed.

End runs.

(** ** Sorting strings *)

Section sorting.

Lemma str_leb_refl a : str_leb a a = true.
Proof. induction a as [|x a IH]; simpl; [done|]. by rewrite N.ltb_irrefl. Qed.

Global Instance str_le_total : Total str_le.
Proof.
  intros a. unfold str_le. induction a as [|x a IH]; intros [|y b]; simpl;
    auto.
  destruct (N.ltb_spec x y), (N.ltb_spec y x); auto; lia.
Qed.

Global Instance str_le_trans : Transitive str_le.
Proof.
  intros a. unfold str_le.
  induction a as [|x a IH]; intros [|y b] [|z c]; simpl; try done.
  destruct (N.ltb_spec x y), (N.ltb_spec y x), (N.ltb_spec y z),
    (N.ltb_spec z y), (N.ltb_spec x z), (N.ltb_spec z x);
    try done; try lia.
  apply IH.
Qed.

Global Instance str_le_antisymm : AntiSymm (=) str_le.
Proof.
  intros a. unfold str_le. induction a as [|x a IH]; intros [|y b]; simpl;
    try done.
  destruct (N.ltb_spec x y), (N.ltb_spec y x); try done; try lia.
  intros H1 H2. f_equal; [lia | by apply IH].
Qed.

Lemma sorted_perm l : sorted l ≡ₚ l.
Proof. apply merge_sort_Permutation. Qed.

Lemma sorted_Sorted l : Sorted str_le (sorted l).
Proof. apply (Sorted_merge_sort str_le). Qed.

Lemma elem_of_sorted (x : str) l : x ∈ sorted l ↔ x ∈ l.
Proof. by rewrite sorted_perm. Qed.

Lemma NoDup_sorted_elements (S : gset str) : NoDup (sorted (elements S)).
Proof. rewrite sorted_perm. apply NoDup_elements. Qed.

Lemma elem_of_sorted_elements (x : str) (S : gset str) :
  x ∈ sorted (elements S) ↔ x ∈ S.
Proof. by rewrite elem_of_sorted, elem_of_elements. Qed.

Lemma list_to_set_sorted_elements (S : gset str) :
  list_to_set (sorted (elements S)) = S.
Proof. apply set_eq. intros x. by rewrite elem_of_list_to_set, elem_of_sorted_elements. Qed.

Lemma length_sorted_elements (S : gset str) :
  length (sorted (elements S)) = size S.
Proof. by rewrite sorted_perm. Qed.

End sorting.

(** ** The parser *)

Section parser.

Lemma elem_of_clean_set (x : str) raw_ips :
  x ∈ clean_set raw_ips ↔ x ≠ [] ∧ ∃ tok, tok ∈ raw_ips ∧ x = strip tok.
Proof.
  unfold clean_set. rewrite elem_of_list_to_set, list_elem_of_fmap.
  split.
  - intros (tok & -> & [Hne Htok]%list_elem_of_filter). eauto.
  - intros (Hne & tok & Htok & ->). exists tok. split; [done|].
    by apply list_elem_of_filter.
Qed.

Lemma elem_of_clean_set_trimmed (x : str) raw_ips :
  x ∈ clean_set raw_ips ↔ x ≠ [] ∧ ∃ tok, tok ∈ raw_ips ∧ trimmed tok x.
Proof.
  rewrite elem_of_clean_set. split; intros (Hne & tok & Htok & H).
  - subst x. eauto using strip_trimmed.
  - eauto using trimmed_unique.
Qed.

Lemma clean_set_normalized raw_ips : normalized (clean_set raw_ips).
Proof.
  intros x (Hne & tok & _ & ->)%elem_of_clean_set.
  split; [apply strip_idemp | done].
Qed.

Lemma clean_set_fixed l :
  Forall (λ x, strip x = x ∧ x ≠ []) l → clean_set l = list_to_set l.
Proof.
  intros H. apply set_eq. intros x.
  rewrite elem_of_clean_set, elem_of_list_to_set.
  rewrite Forall_forall in H. split.
  - intros (_ & tok & Htok & ->). destruct (H tok Htok) as [-> _]. done.
  - intros Hx. destruct (H x Hx) as [Hs Hne]. eauto.
Qed.

Lemma get_ips_newline content :
  get_ips_from_content content [LF] = Ret (clean_set (splitlines content)).
Proof. unfold get_ips_from_content. by rewrite decide_True. Qed.

Lemma get_ips_literal content delimiter :
  delimiter ≠ [] → delimiter ≠ [LF] →
  get_ips_from_content content delimiter
  = Ret (clean_set (split_scan (length content) delimiter content)).
Proof.
  intros H1 H2. unfold get_ips_from_content.
  rewrite decide_False by done. by rewrite split_Ret.
Qed.

Lemma get_ips_empty_delimiter content :
  get_ips_from_content content [] = Raise ValueError.
Proof. done. Qed.

Lemma get_ips_delimiter_map content d :
  ∃ original, get_ips_from_content content (delimiter_map d) = Ret original
              ∧ normalized original.
Proof.
  destruct d; simpl.
  - rewrite get_ips_newline. eauto using clean_set_normalized.
  - rewrite get_ips_literal by done. eauto using clean_set_normalized.
  - rewrite get_ips_literal by done. eauto using clean_set_normalized.
  - rewrite get_ips_literal by done. eauto using clean_set_normalized.
Qed.

Lemma get_ips_newline_no_linebreak content (x : str) :
  x ∈ clean_set (splitlines content) → no_linebreak x.
Proof.
  intros (_ & tok & Htok & ->)%elem_of_clean_set.
  pose proof (splitlines_no_linebreak content) as H.
  rewrite Forall_forall in H. specialize (H tok Htok).
  destruct (strip_trimmed tok) as (l & r & Heq & _).
  unfold no_linebreak in *. rewrite Heq in H.
  apply Forall_app in H as [_ H]. by apply Forall_app in H as [H _].
Qed.

(** Serializing and reading back by lines. *)
Lemma reparse_serialize (S : gset str) :
  (∀ x, x ∈ S → strip x = x ∧ x ≠ [] ∧ no_linebreak x) →
  get_ips_from_content (serialize S) [LF] = Ret S.
Proof.
  intros H. rewrite get_ips_newline. f_equal. unfold serialize.
  rewrite splitlines_join.
  - rewrite clean_set_fixed; [apply list_to_set_sorted_elements|].
    apply Forall_forall. intros x Hx%elem_of_sorted_elements. naive_solver.
  - apply Forall_forall. intros x Hx%elem_of_sorted_elements. naive_solver.
Qed.

End parser.


(** ** The tokens are determined by the text *)

Section functional.

(** A text is cut in one way into a prefix of characters of [P] and a rest
    that does not start with one. *)
Lemma prefix_break (P : char → Prop) (l1 l2 r1 r2 : str) :
  Forall P l1 → Forall P l2 →
  (∀ c, head r1 = Some c → ¬ P c) →
  (∀ c, head r2 = Some c → ¬ P c) →
  l1 ++ r1 = l2 ++ r2 → l1 = l2 ∧ r1 = r2.
Proof.
  intros H1. revert l2. induction H1 as [|x l1 Hx _ IH]; intros l2 H2 Hr1 Hr2 Heq.
  - destruct H2 as [|y l2 Hy _]; [done|].
    simpl in Heq. subst r1. exfalso. by apply (Hr1 y).
  - destruct H2 as [|y l2 Hy H2].
    + simpl in Heq. subst r2. exfalso. by apply (Hr2 x).
    + injection Heq as -> Heq.
      destruct (IH l2 H2 Hr1 Hr2 Heq) as [-> ->]. done.
Qed.

Lemma line_ending_head e rest :
  line_ending e rest → ∃ c e', e = c :: e' ∧ is_linebreak c = true.
Proof. intros [|c ? Hc _]; eauto. Qed.

Lemma line_ending_rest_head e rest (c : char) :
  line_ending e rest → head (e ++ rest) = Some c →
  ¬ is_linebreak c = false.
Proof.
  intros (c' & e' & -> & Hc)%line_ending_head. simpl. intros [= <-].
  by rewrite Hc.
Qed.

Lemma line_ending_functional e1 e2 rest1 rest2 :
  line_ending e1 rest1 → line_ending e2 rest2 →
  e1 ++ rest1 = e2 ++ rest2 → e1 = e2 ∧ rest1 = rest2.
Proof.
  intros [r1 | c1 r1 Hc1 Hn1] [r2 | c2 r2 Hc2 Hn2]; simpl.
  - by intros [= ->].
  - intros [= <- <-]. exfalso. by apply Hn2.
  - intros [= -> ->]. exfalso. by apply Hn1.
  - by intros [= -> ->].
Qed.

Lemma lines_of_functional s ls1 ls2 :
  lines_of s ls1 → lines_of s ls2 → ls1 = ls2.
Proof.
  intros H1. revert ls2.
  induction H1 as [|l Hne Hl | l e rest ls Hl He Hrest IH]; intros ls2 H2.
  - inversion H2 as [| |l' e' rest' ls' Hl' He' Hrest' Heq]; subst; try done.
    apply line_ending_head in He' as (c & e'' & -> & _).
    by destruct l'.
  - inversion H2 as [| |l' e' rest' ls' Hl' He' Hrest' Heq]; subst; try done.
    apply line_ending_head in He' as (c & e'' & -> & Hc).
    unfold no_linebreak in Hl. rewrite Forall_forall in Hl.
    assert (is_linebreak c = false) as Hc' by (apply Hl; set_solver).
    congruence.
  - inversion H2 as [|l' Hne' Hl' Heq
                     |l' e' rest' ls' Hl' He' Hrest' Heq]; subst.
    + apply line_ending_head in He as (c & e'' & -> & _). by destruct l.
    + apply line_ending_head in He as (c & e'' & -> & Hc).
      unfold no_linebreak in Hl'. rewrite Forall_forall in Hl'.
      assert (is_linebreak c = false) as Hc' by (apply Hl'; set_solver).
      congruence.
    + apply (prefix_break (λ c, is_linebreak c = false)) in Heq
        as [-> Heq]; try done; try (intros c; by apply line_ending_rest_head).
      apply line_ending_functional in Heq as [-> ->]; [|done..].
      f_equal. by apply IH.
Qed.

Lemma runs_split_functional cls s ts1 ts2 :
  runs_split cls s ts1 → runs_split cls s ts2 → ts1 = ts2.
Proof.
  assert (∀ (run rest : str) c,
    run ≠ [] → Forall (λ c, cls c = true) run →
    head (run ++ rest) = Some c → ¬ cls c = false) as Hhead.
  { intros [|x run] rest c Hne Hall; [done|]. simpl. intros [= <-].
    apply Forall_cons in Hall as [-> _]. done. }
  intros H1. revert ts2.
  induction H1 as [t Ht | t run rest ts Ht Hne Hrun Hrest H1 IH];
    intros ts2 H2.
  - inversion H2 as [|t' run' rest' ts' Ht' Hne' Hrun' Hrest' H2' Heq];
      subst; [done|]. exfalso.
    destruct run' as [|x run']; [done|].
    apply Forall_cons in Hrun' as [Hx _].
    rewrite Forall_forall in Ht.
    assert (cls x = false) by (apply Ht; set_solver). congruence.
  - inversion H2 as [t' Ht' Heq
                     |t' run' rest' ts' Ht' Hne' Hrun' Hrest' H2' Heq]; subst.
    + exfalso. destruct run as [|x run]; [done|].
      apply Forall_cons in Hrun as [Hx _].
      rewrite Forall_forall in Ht'.
      assert (cls x = false) by (apply Ht'; set_solver). congruence.
    + apply (prefix_break (λ c, cls c = false)) in Heq as [-> Heq];
        try done; try (intros c; by apply Hhead).
      apply (prefix_break (λ c, cls c = true)) in Heq as [-> ->]; try done.
      * f_equal. by apply IH.
      * intros c Hc. rewrite (Hrest' c Hc). done.
      * intros c Hc. rewrite (Hrest c Hc). done.
Qed.

End functional.


(** ** Reconciliation *)

Section reconciliation.

Lemma update_content_serialize content requested delimiter original :
  get_ips_from_content content delimiter = Ret original →
  update_content content requested delimiter
  = Ret (serialize (ips_to_keep original requested)).
Proof. intros H. unfold update_content. by rewrite H. Qed.

(** C1. The matched set is the intersection of the original and the
    requested set, the retained set is the original without the matched
    set, and the two partition the original: their union is the original
    and they are disjoint. *)
Theorem reconciliation_partition (original requested : gset str) :
  let matched := potential_removals original requested in
  let retained := ips_to_keep original requested in
  matched = original ∩ requested
  ∧ retained = original ∖ matched
  ∧ retained ∪ matched = original
  ∧ retained ∩ matched = ∅.
Proof.
  unfold potential_removals, ips_to_keep. simpl.
  repeat split; try set_solver.
  apply set_eq. intros x. rewrite elem_of_union, elem_of_difference,
    elem_of_intersection.
  destruct (decide (x ∈ requested)); naive_solver.
Qed.

End reconciliation.

(** ** Round trip *)

Section roundtrip.

Lemma comma_file_parsed :
  get_ips_from_content comma_file [COMMA] = Ret comma_file_set.
Proof. vm_compute. reflexivity. Qed.

(** C3, as stated, fails: an address set the parser builds (here from a
    comma-delimited file of two lines) is normalized, yet serializing it
    and reading it back by lines gives another set. *)
Lemma roundtrip_breaks_on_embedded_newline :
  normalized comma_file_set
  ∧ get_ips_from_content (serialize comma_file_set) [LF]
    = Ret {[ lit "1.1.1.1"; lit "2.2.2.2"; lit "3.3.3.3" ]}
  ∧ get_ips_from_content (serialize comma_file_set) [LF]
    ≠ Ret comma_file_set.
Proof.
  split; [|split].
  - rewrite <- (f_equal (λ r, match r with Ret s => s | _ => ∅ end)
                        comma_file_parsed).
    simpl. apply clean_set_normalized.
  - vm_compute. reflexivity.
  - vm_compute. discriminate.
Qed.

(** C3, amended. For every address set whose elements are stripped,
    non-empty and free of line-boundary characters, sorting it, joining it
    with newlines and reading the text back by lines gives the same
    set. *)
Theorem serialize_roundtrip (S : gset str) :
  (∀ x, x ∈ S → strip x = x ∧ x ≠ [] ∧ no_linebreak x) →
  get_ips_from_content (serialize S) [LF] = Ret S.
Proof. apply reparse_serialize. Qed.

Lemma serialize_roundtrip_witness :
  get_ips_from_content (serialize {[ lit "1.1.1.1"; lit "3.3.3.3" ]}) [LF]
  = Ret {[ lit "1.1.1.1"; lit "3.3.3.3" ]}.
Proof.
  apply serialize_roundtrip.
  intros x [->%elem_of_singleton | ->%elem_of_singleton]%elem_of_union;
    (split; [vm_compute; reflexivity |
     split; [discriminate | repeat constructor]]).
Defined.

(** What a newline-delimited file parses to can always be read back. *)
Lemma newline_file_roundtrip content requested original :
  get_ips_from_content content [LF] = Ret original →
  get_ips_from_content (serialize (ips_to_keep original requested)) [LF]
  = Ret (ips_to_keep original requested).
Proof.
  rewrite get_ips_newline. intros [= <-]. apply reparse_serialize.
  intros x [Hx _]%elem_of_difference.
  destruct (clean_set_normalized _ x Hx) as [? ?].
  eauto using get_ips_newline_no_linebreak.
Qed.

End roundtrip.

(** ** The parser's contract *)

Section parser_contract.

(** C7, as stated, fails for one delimiter: the empty one, on which
    [split] raises. *)
Lemma parse_raises_on_empty_delimiter :
  ¬ ∃ result, get_ips_from_content (lit "1.1.1.1") [] = Ret result.
Proof. intros [result H]. discriminate H. Qed.

(** C7, amended. For every content and every non-empty delimiter the
    parser returns a set; its tokens are the lines of the content when the
    delimiter is the newline character and the pieces between the
    occurrences of the delimiter otherwise, and the content determines
    them; the set holds exactly the non-empty trimmed tokens, each
    once. *)
Theorem parse_contract (content delimiter : str) :
  delimiter ≠ [] →
  ∃ tokens result,
    (if decide (delimiter = [LF]) then lines_of content tokens
     else split_of delimiter content tokens)
    ∧ (∀ tokens',
         (if decide (delimiter = [LF]) then lines_of content tokens'
          else split_of delimiter content tokens') → tokens' = tokens)
    ∧ get_ips_from_content content delimiter = Ret result
    ∧ (∀ x, x ∈ result ↔ x ≠ [] ∧ ∃ tok, tok ∈ tokens ∧ trimmed tok x)
    ∧ NoDup (elements result).
Proof.
  intros Hne. destruct (decide (delimiter = [LF])) as [->|Hnl].
  - exists (splitlines content), (clean_set (splitlines content)).
    split; [apply splitlines_lines_of|].
    split.
    { intros tokens' H. eapply lines_of_functional; [exact H|].
      apply splitlines_lines_of. }
    split; [apply get_ips_newline|].
    split; [intros x; apply elem_of_clean_set_trimmed | apply NoDup_elements].
  - exists (split_scan (length content) delimiter content),
      (clean_set (split_scan (length content) delimiter content)).
    split; [by apply split_scan_split_of|].
    split.
    { intros tokens' H. eapply split_of_functional; [done | exact H|].
      by apply split_scan_split_of. }
    split; [by apply get_ips_literal|].
    split; [intros x; apply elem_of_clean_set_trimmed | apply NoDup_elements].
Qed.

Lemma parse_contract_witness :
  ∃ tokens result,
    split_of [COMMA] (lit " 10.0.0.1 ,10.0.0.1") tokens
    ∧ (∀ tokens', split_of [COMMA] (lit " 10.0.0.1 ,10.0.0.1") tokens' →
                  tokens' = tokens)
    ∧ get_ips_from_content (lit " 10.0.0.1 ,10.0.0.1") [COMMA] = Ret result
    ∧ (∀ x, x ∈ result ↔ x ≠ [] ∧ ∃ tok, tok ∈ tokens ∧ trimmed tok x)
    ∧ NoDup (elements result).
Proof. apply (parse_contract (lit " 10.0.0.1 ,10.0.0.1") [COMMA]). discriminate. Defined.

End parser_contract.


(** ** What the validator can raise *)

Section raises.

Import Ipaddress.

Lemma raises_only_Ret {A} P (a : A) : raises_only P (Ret a).
Proof. intros e. discriminate. Qed.

Lemma raises_only_Raise {A} (P : exn → Prop) e :
  P e → raises_only P (@Raise A e).
Proof. intros H e' [= <-]. done. Qed.

Lemma raises_only_bind {A B} P (r : res A) (k : A → res B) :
  raises_only P r → (∀ a, r = Ret a → raises_only P (k a)) →
  raises_only P (r ≫= k).
Proof.
  intros Hr Hk. destruct r as [a|e]; simpl.
  - by apply Hk.
  - apply raises_only_Raise. by apply Hr.
Qed.

Lemma raises_only_reraise {A} (r : res A) :
  raises_only (λ e, is_ValueError e = true) r →
  raises_only (λ e, e = AddressValueError) (reraise_as_AddressValueError r).
Proof.
  intros Hr. destruct r as [a|e]; simpl; [apply raises_only_Ret|].
  rewrite (Hr e eq_refl). by apply raises_only_Raise.
Qed.

Create HintDb raises.
#[local] Hint Resolve raises_only_Ret raises_only_Raise : raises.

Lemma parse_octet_raises o :
  raises_only (λ e, is_ValueError e = true) (parse_octet o).
Proof.
  unfold parse_octet. destruct o; [auto with raises|].
  repeat case_match; auto with raises.
Qed.

Lemma from_octets_raises acc os :
  raises_only (λ e, is_ValueError e = true) (from_octets acc os).
Proof.
  revert acc. induction os as [|o os IH]; intros acc; simpl.
  - auto with raises.
  - apply raises_only_bind; [apply parse_octet_raises | auto].
Qed.

Lemma split_raises (P : exn → Prop) s sep :
  sep ≠ [] → raises_only P (split s sep).
Proof. intros H. rewrite split_Ret by done. auto with raises. Qed.

Lemma v4_ip_int_from_string_raises s :
  raises_only (λ e, e = AddressValueError) (v4_ip_int_from_string s).
Proof.
  unfold v4_ip_int_from_string. destruct s; [auto with raises|].
  apply raises_only_bind; [by apply split_raises|]. intros octets _.
  case_match; [auto with raises|].
  apply raises_only_reraise, from_octets_raises.
Qed.

Lemma IPv4Address_raises s :
  raises_only (λ e, e = AddressValueError) (IPv4Address s).
Proof.
  unfold IPv4Address. case_match; [auto with raises|].
  apply v4_ip_int_from_string_raises.
Qed.

Lemma parse_hextet_raises h :
  raises_only (λ e, is_ValueError e = true) (parse_hextet h).
Proof. unfold parse_hextet. repeat case_match; auto with raises. Qed.

Lemma shift_in_hextets_raises acc ps :
  raises_only (λ e, is_ValueError e = true) (shift_in_hextets acc ps).
Proof.
  revert acc. induction ps as [|p ps IH]; intros acc; simpl.
  - auto with raises.
  - apply raises_only_bind; [apply parse_hextet_raises | auto].
Qed.

Lemma find_skip_index_raises parts indices k :
  raises_only (λ e, e = AddressValueError)
              (find_skip_index parts indices k).
Proof.
  revert k. induction indices as [|i indices IH]; intros k; simpl.
  - auto with raises.
  - repeat case_match; auto with raises.
Qed.

Lemma plan_parts_raises parts k :
  raises_only (λ e, e = AddressValueError) (plan_parts parts k).
Proof.
  unfold plan_parts. destruct k as [k|].
  - apply raises_only_bind.
    { repeat case_match; auto with raises. }
    intros hi _. apply raises_only_bind.
    { repeat case_match; auto with raises. }
    intros lo _. case_match; auto with raises.
  - repeat case_match; auto with raises.
Qed.

Lemma v6_ip_int_from_string_raises s :
  raises_only (λ e, e = AddressValueError) (v6_ip_int_from_string s).
Proof.
  unfold v6_ip_int_from_string. destruct s; [auto with raises|].
  apply raises_only_bind; [by apply split_raises|]. intros parts _.
  case_match; [auto with raises|].
  apply raises_only_bind.
  { case_match; [|auto with raises].
    apply raises_only_bind; [|auto with raises].
    apply raises_only_reraise.
    intros e He. by rewrite (IPv4Address_raises _ e He). }
  intros parts' _. case_match; [auto with raises|].
  apply raises_only_bind; [apply find_skip_index_raises|].
  intros k _.
  apply raises_only_bind; [apply plan_parts_raises|].
  intros [[hi lo] skipped] _.
  apply raises_only_reraise.
  apply raises_only_bind; [apply shift_in_hextets_raises|].
  intros ip _. apply shift_in_hextets_raises.
Qed.

Lemma split_scope_id_raises s :
  raises_only (λ e, e = AddressValueError) (split_scope_id s).
Proof. unfold split_scope_id. repeat case_match; auto with raises. Qed.

Lemma IPv6Address_raises s :
  raises_only (λ e, e = AddressValueError) (IPv6Address s).
Proof.
  unfold IPv6Address. case_match; [auto with raises|].
  apply raises_only_bind; [apply split_scope_id_raises|].
  intros [addr scope] _.
  apply raises_only_bind; [apply v6_ip_int_from_string_raises|].
  auto with raises.
Qed.

Lemma ip_address_raises s :
  raises_only (λ e, e = ValueError) (ip_address s).
Proof.
  unfold ip_address.
  pose proof (IPv4Address_raises s) as H4.
  pose proof (IPv6Address_raises s) as H6.
  destruct (IPv4Address s) as [ip|e4]; [auto with raises|].
  rewrite (H4 e4 eq_refl).
  destruct (IPv6Address s) as [[ip scope]|e6]; [auto with raises|].
  rewrite (H6 e6 eq_refl). auto with raises.
Qed.

Lemma is_valid_ip_total s : is_valid_ip s = Ret (valid_ip s).
Proof.
  unfold is_valid_ip, valid_ip. pose proof (ip_address_raises s) as H.
  destruct (ip_address s) as [a|e]; [done|].
  by rewrite (H e eq_refl).
Qed.

Lemma invalid_ips_filter l :
  invalid_ips l = Ret (filter (λ ip, valid_ip ip = false) l).
Proof.
  induction l as [|ip l IH]; simpl; [done|].
  rewrite is_valid_ip_total, IH. simpl.
  rewrite filter_cons. case_decide as Hv; simpl in Hv; by rewrite Hv || destruct (valid_ip ip).
Qed.

End raises.


(** ** Running the script *)

Section script.

Lemma replace_Ret s old new :
  old ≠ [] → replace s old new = Ret (replaced s old new).
Proof. intros H. unfold replace, replaced. by rewrite split_Ret. Qed.

Lemma format_warning_audit_Ret T removals total :
  format_warning_audit T removals total
  = Ret (warning_text T removals total).
Proof.
  unfold format_warning_audit, warning_text.
  rewrite replace_Ret by done. simpl. by rewrite replace_Ret.
Qed.

Lemma decodes_content f :
  decodes f → decode_utf8 (file_bytes f) = Ret (file_content f).
Proof. intros [content H]. unfold file_content. by rewrite H. Qed.

Lemma confirm_action_eq i f dv remove_set original w :
  get_ips_from_content (file_content f) dv = Ret original →
  confirm_action i f (file_content f) dv remove_set
    (potential_removals original remove_set) w
  = match log_audit_event (clock_log i) (lit "admin_default") (file_name f)
            (size (potential_removals original remove_set)) (db w) with
    | Ret db' =>
        (Raise RerunException,
         {| session_state :=
              stored (session_state w) (updated_text original remove_set)
                     (report_of i original remove_set) (base_name f);
            db := db';
            screen := screen w |})
    | Raise e => (Raise e, w)
    end.
Proof.
  intros Hparse. unfold confirm_action.
  rewrite (update_content_serialize _ _ _ _ Hparse), Hparse.
  unfold mbind, script_bind, lift. simpl.
  unfold on_db.
  destruct (log_audit_event _ _ _ _ (db w)) as [db'|e]; done.
Qed.

Lemma decode_utf8_raises bs e :
  decode_utf8 bs = Raise e → e = UnicodeDecodeError.
Proof.
  remember (length bs) as n eqn:Hn.
  revert bs Hn e. induction n as [n IH] using lt_wf_ind. intros bs Hn e.
  destruct bs as [|b0 rest]; [done|]. simpl.
  assert (∀ tl c e', (length tl < n)%nat →
            (s ← decode_utf8 tl; Ret (c :: s)) = Raise e' →
            e' = UnicodeDecodeError) as Hbind.
  { intros tl c e' Hlt. destruct (decode_utf8 tl) as [s|e''] eqn:Ht; [done|].
    simpl. intros [= <-]. by apply (IH (length tl) Hlt tl). }
  subst n. simpl in *.
  repeat (case_match; try (intros [= <-]; reflexivity);
          try (apply Hbind; simpl; lia)).
Qed.

Lemma with_uploaded_file_undecodable i T dv f w :
  ¬ decodes f →
  with_uploaded_file i T dv f w = (Raise UnicodeDecodeError, w).
Proof.
  intros Hnot. unfold with_uploaded_file, mbind, script_bind, lift.
  destruct (decode_utf8 (file_bytes f)) as [content|e] eqn:Hd.
  { destruct Hnot. by exists content. }
  by apply decode_utf8_raises in Hd as ->.
Qed.

Lemma with_uploaded_file_eq i T dv f original w :
  decodes f →
  get_ips_from_content (file_content f) dv = Ret original →
  with_uploaded_file i T dv f w
  = match remove_input i with
    | [] => (Ret tt, w)
    | _ :: _ =>
        let remove_set := remove_list_clean (remove_input i) in
        let failed msg :=
          (Raise StopException,
           {| session_state := <["success" := VBool false]> (session_state w);
              db := db w;
              screen := screen w ++ [st_error msg] |}) in
        if decide (remove_set = ∅) then failed (t_error_empty T)
        else
          match filter (λ ip, valid_ip ip = false) (elements remove_set) with
          | (_ :: _) as invalid => failed (validation_message T invalid)
          | [] =>
              let removals := potential_removals original remove_set in
              let w' := {| session_state := session_state w;
                           db := db w;
                           screen := screen w ++ [notice T removals original] |} in
              if button i
              then confirm_action i f (file_content f) dv remove_set
                     removals w'
              else (Ret tt, w')
          end
    end.
Proof.
  intros Hdec Hparse. unfold with_uploaded_file.
  rewrite (decodes_content f Hdec).
  unfold mbind at 1, script_bind at 1, lift at 1. rewrite Hparse.
  unfold mbind at 1, script_bind at 1, lift at 1.
  destruct (remove_input i) as [|c s] eqn:Hin; [reflexivity|]. simpl.
  destruct (decide (remove_list_clean (c :: s) = ∅)) as [He|Hne];
    [reflexivity|].
  rewrite invalid_ips_filter.
  unfold mbind at 1, script_bind at 1, lift at 1.
  destruct (filter _ (elements _)) as [|bad invalid]; [|reflexivity].
  unfold notice.
  destruct (decide (potential_removals original (remove_list_clean (c :: s)) = ∅)).
  - by destruct (button i).
  - rewrite format_warning_audit_Ret. by destruct (button i).
Qed.

Lemma app_eq i w db' :
  init_db (db w) = Ret db' →
  app i w
  = let w1 := {| session_state := with_success_default (session_state w);
                 db := db';
                 screen := screen w |} in
    match (match uploaded_file i with
           | Some f => with_uploaded_file i (TEXTS (lang_selection i))
                         (delimiter_map (delimiter_name i)) f
           | None => mret tt
           end) w1 with
    | (Ret _, w2) => (downloads (TEXTS (lang_selection i));; audit_history) w2
    | (Raise e, w2) => (Raise e, w2)
    end.
Proof.
  intros Hinit. unfold app.
  unfold mbind at 1, script_bind at 1, on_db at 1. rewrite Hinit.
  unfold mbind at 1, script_bind at 1, get_session at 1. simpl.
  unfold with_success_default.
  destruct (decide (session_state w !! "success" = None)); simpl.
  - reflexivity.
  - reflexivity.
Qed.

Lemma init_db_rows d d' : init_db d = Ret d' → rows_of d' = rows_of d.
Proof.
  unfold init_db, rows_of. destruct (audit_events d) eqn:Hd.
  - intros [= <-]. by rewrite Hd.
  - destruct (readonly d); [done|]. intros [= <-]. done.
Qed.


Lemma insert_success_default ss v :
  <["success" := v]> (with_success_default ss) = <["success" := v]> ss.
Proof.
  unfold with_success_default. case_decide; [|done].
  by rewrite insert_insert_eq.
Qed.

End script.


(** ** Validation errors *)

Section validation.

Lemma remove_list_clean_nil : remove_list_clean [] = ∅.
Proof. reflexivity. Qed.

Lemma interact_not_rerun i w r w' :
  run i w = (r, w') → r ≠ Raise RerunException → interact i w = (r, w').
Proof.
  intros H Hr. unfold interact. rewrite H.
  destruct r as [[]|[]]; done.
Qed.

Lemma run_with_file i w f db' :
  init_db (db w) = Ret db' → uploaded_file i = Some f →
  ∃ original,
    get_ips_from_content (file_content f) (delimiter_map (delimiter_name i))
    = Ret original
    ∧ run i w
      = match with_uploaded_file i (TEXTS (lang_selection i))
                (delimiter_map (delimiter_name i)) f
                {| session_state := with_success_default (session_state w);
                   db := db'; screen := [] |} with
        | (Ret _, w2) =>
            (downloads (TEXTS (lang_selection i));; audit_history) w2
        | (Raise e, w2) => (Raise e, w2)
        end.
Proof.
  intros Hinit Hf.
  destruct (get_ips_delimiter_map (file_content f) (delimiter_name i))
    as (original & Hparse & _).
  exists original. split; [done|].
  unfold run. erewrite app_eq by done. simpl. by rewrite Hf.
Qed.

(** The entries of a request hold no separator of the revoke text. *)
Lemma runs_split_tokens cls s ts :
  runs_split cls s ts → Forall (Forall (λ c, cls c = false)) ts.
Proof. induction 1; by constructor. Qed.

Lemma request_entry_plain (x : str) text :
  x ∈ remove_list_clean text → Forall (λ c, is_revoke_separator c = false) x.
Proof.
  intros (_ & tok & Htok & (l & r & -> & _))%elem_of_clean_set_trimmed.
  pose proof (runs_split_tokens _ _ _
                (re_split_runs_spec is_revoke_separator text)) as Hall.
  rewrite Forall_forall in Hall. specialize (Hall _ Htok).
  by apply Forall_app in Hall as [_ [? _]%Forall_app].
Qed.

Lemma occurs_in_trans (x y z : str) :
  occurs_in x y → occurs_in y z → occurs_in x z.
Proof.
  intros (a & b & ->) (a' & b' & ->). exists (a' ++ a), (b ++ b').
  by rewrite <- !app_assoc.
Qed.

Lemma occurs_in_join sep (tok : str) l :
  tok ∈ l → occurs_in tok (join sep l).
Proof.
  induction l as [|x l IH]; [by intros ?%elem_of_nil|].
  intros [->|Hin]%elem_of_cons.
  - destruct l as [|y l]; [exists [], []; by rewrite app_nil_r|].
    by exists [], (sep ++ join sep (y :: l)).
  - destruct l as [|y l]; [by apply elem_of_nil in Hin|].
    destruct (IH Hin) as (a & b & Heq).
    change (join sep (x :: y :: l)) with (x ++ sep ++ join sep (y :: l)).
    rewrite Heq. exists (x ++ sep ++ a), b. by rewrite <- !app_assoc.
Qed.

(** Texts without a comma, joined by a comma and a blank, are split by
    the comma and the blank into these texts. *)
Lemma no_comma_blank (t : str) :
  COMMA ∉ t → ¬ occurs_in [COMMA; 32] (t ++ [COMMA]).
Proof.
  intros Hc (a & b & Heq). induction b as [|y b _] using rev_ind.
  - change (a ++ [COMMA; 32] ++ []) with (a ++ [COMMA] ++ [32]) in Heq.
    rewrite app_assoc in Heq. by apply app_inj_tail in Heq as [_ [=]].
  - change (a ++ [COMMA; 32] ++ b ++ [y])
      with (a ++ ([COMMA; 32] ++ b) ++ [y]) in Heq.
    rewrite app_assoc in Heq. apply app_inj_tail in Heq as [-> _].
    apply Hc. set_solver.
Qed.

Lemma split_of_comma_blank l :
  l ≠ [] → Forall (λ t, COMMA ∉ t) l →
  split_of [COMMA; 32] (join [COMMA; 32] l) l.
Proof.
  intros Hne Hl. induction Hl as [|x l Hx Hl IH]; [done|].
  destruct l as [|y l].
  - apply split_of_last. intros (a & b & ->). apply Hx. set_solver.
  - change (join [COMMA; 32] (x :: y :: l))
      with (x ++ [COMMA; 32] ++ join [COMMA; 32] (y :: l)).
    apply split_of_cons; [by apply no_comma_blank | by apply IH].
Qed.

(** C5. When an entry of the revoke request fails validation, the run
    stops with one error element.  Its message is the validation error of
    the selected language, the words [IPs no válidas encontradas:] and the
    offending entries separated by a comma and a blank: every offending
    entry, each once, and nothing else, so that each of them can be read
    in the message.  No ledger row is appended, no artifact is stored or
    offered, and the [success] flag is cleared. *)
Theorem invalid_request_aborts (i : run_input) (w : world) (f : uploaded)
    (db' : database) (bad : str) :
  init_db (db w) = Ret db' →
  uploaded_file i = Some f →
  decodes f →
  bad ∈ remove_list_clean (remove_input i) →
  is_valid_ip bad = Ret false →
  ∃ invalid message listing,
    (∀ x, x ∈ invalid ↔
          x ∈ remove_list_clean (remove_input i) ∧ is_valid_ip x = Ret false)
    ∧ NoDup invalid
    ∧ interact i w
      = (Raise StopException,
         {| session_state := <["success" := VBool false]> (session_state w);
            db := db';
            screen := [st_error message] |})
    ∧ message
      = match lang_selection i with
        | es => lit "❌ ERROR de Validación: Al menos una de las entradas no es una dirección IP válida. Por favor, corrija los datos y reintente."
        | en => lit "❌ Validation ERROR: At least one of the entries is not a valid IP address. Please correct the data and retry."
        end
        ++ lit " IPs no válidas encontradas: " ++ listing
    ∧ split_of (lit ", ") listing invalid
    ∧ Forall (λ x, occurs_in x listing ∧ occurs_in x message) invalid
    ∧ bad ∈ invalid
    ∧ rows_of db' = rows_of (db w).
Proof.
  intros Hinit Hf Hdec Hbad Hinvalid.
  rewrite is_valid_ip_total in Hinvalid. injection Hinvalid as Hinvalid.
  set (invalid := filter (λ ip, valid_ip ip = false)
                         (elements (remove_list_clean (remove_input i)))).
  assert (∀ x, x ∈ invalid ↔
               x ∈ remove_list_clean (remove_input i)
               ∧ is_valid_ip x = Ret false) as Hmem.
  { intros x. unfold invalid. rewrite list_elem_of_filter, elem_of_elements.
    rewrite is_valid_ip_total. split; intros [H1 H2]; split; congruence. }
  assert (bad ∈ invalid) as Hin.
  { apply Hmem. by rewrite is_valid_ip_total, Hinvalid. }
  exists invalid, (validation_message (TEXTS (lang_selection i)) invalid),
         (join (lit ", ") invalid).
  split; [done|]. split; [apply NoDup_filter, NoDup_elements|].
  split; [|split; [|split; [|split; [|split]]]].
  - destruct (run_with_file i w f db' Hinit Hf) as (original & Hparse & Hrun).
    apply interact_not_rerun; [|done]. rewrite Hrun.
    rewrite (with_uploaded_file_eq _ _ _ _ original) by done.
    destruct (remove_input i) as [|c s].
    { rewrite remove_list_clean_nil in Hbad. set_solver. }
    simpl. rewrite decide_False by set_solver.
    fold invalid.
    destruct invalid as [|x invalid']; [by apply elem_of_nil in Hin|].
    by rewrite insert_success_default.
  - unfold validation_message. by destruct (lang_selection i).
  - apply split_of_comma_blank.
    + intros Hnil. rewrite Hnil in Hin. by apply elem_of_nil in Hin.
    + apply Forall_forall. intros x [Hx _]%Hmem Hcomma.
      apply request_entry_plain in Hx. rewrite Forall_forall in Hx.
      by specialize (Hx COMMA Hcomma).
  - apply Forall_forall. intros x Hx.
    pose proof (occurs_in_join (lit ", ") x invalid Hx) as Hocc.
    split; [done|]. eapply occurs_in_trans; [exact Hocc|].
    unfold validation_message. rewrite app_assoc.
    by exists (t_error_validation (TEXTS (lang_selection i))
               ++ lit " IPs no válidas encontradas: "), [];
      rewrite app_nil_r.
  - done.
  - by apply init_db_rows.
Qed.

Lemma invalid_request_aborts_witness :
  ∃ invalid message listing,
    (∀ x, x ∈ invalid ↔
          x ∈ remove_list_clean (lit "abc, 1.2.3") ∧ is_valid_ip x = Ret false)
    ∧ NoDup invalid
    ∧ interact (request (lit "abc, 1.2.3") true) fresh_world
      = (Raise StopException,
         {| session_state := <["success" := VBool false]> ∅;
            db := {| audit_events := Some []; sqlite_sequence := 0;
                     readonly := false |};
            screen := [st_error message] |})
    ∧ message
      = match lang_selection (request (lit "abc, 1.2.3") true) with
        | es => lit "❌ ERROR de Validación: Al menos una de las entradas no es una dirección IP válida. Por favor, corrija los datos y reintente."
        | en => lit "❌ Validation ERROR: At least one of the entries is not a valid IP address. Please correct the data and retry."
        end
        ++ lit " IPs no válidas encontradas: " ++ listing
    ∧ split_of (lit ", ") listing invalid
    ∧ Forall (λ x, occurs_in x listing ∧ occurs_in x message) invalid
    ∧ lit "abc" ∈ invalid
    ∧ rows_of {| audit_events := Some []; sqlite_sequence := 0;
                 readonly := false |} = rows_of fresh_db.
Proof.
  apply (invalid_request_aborts (request (lit "abc, 1.2.3") true) fresh_world
           sample_file _ (lit "abc")).
  - reflexivity.
  - reflexivity.
  - eexists. vm_compute. reflexivity.
  - vm_compute. reflexivity.
  - vm_compute. reflexivity.
Defined.

(** C6, as stated, fails: with an empty revoke text the request set is
    empty, yet the run ends normally and shows no error. *)
Lemma empty_text_not_reported :
  remove_list_clean (remove_input (request [] false)) = ∅
  ∧ ∃ w', interact (request [] false) fresh_world = (Ret tt, w')
          ∧ ∀ msg, st_error msg ∉ screen w'.
Proof.
  split; [reflexivity|].
  eexists. split; [vm_compute; reflexivity|].
  intros msg H. simpl in H.
  repeat (apply elem_of_cons in H as [H|H]; [discriminate H|]).
  by apply elem_of_nil in H.
Qed.

(** C6, amended. For every uploaded file, a revoke text that is not empty
    but holds no entry once split and stripped makes the run stop with the
    empty-list error; no ledger row is appended and no artifact is stored
    or offered; the [success] flag is cleared. *)
Theorem blank_request_reported (i : run_input) (w : world) (f : uploaded)
    (db' : database) :
  init_db (db w) = Ret db' →
  uploaded_file i = Some f →
  decodes f →
  remove_input i ≠ [] →
  remove_list_clean (remove_input i) = ∅ →
  interact i w
  = (Raise StopException,
     {| session_state := <["success" := VBool false]> (session_state w);
        db := db';
        screen := [st_error (t_error_empty (TEXTS (lang_selection i)))] |})
  ∧ rows_of db' = rows_of (db w).
Proof.
  intros Hinit Hf Hdec Hin Hempty. split; [|by apply init_db_rows].
  destruct (run_with_file i w f db' Hinit Hf) as (original & Hparse & Hrun).
  apply interact_not_rerun; [|done]. rewrite Hrun.
  rewrite (with_uploaded_file_eq _ _ _ _ original) by done.
  destruct (remove_input i) as [|c s] eqn:Hin'; [done|].
  simpl. rewrite decide_True by done.
  by rewrite insert_success_default.
Qed.

Lemma blank_request_reported_witness :
  interact (request (lit " , ,") true) fresh_world
  = (Raise StopException,
     {| session_state := <["success" := VBool false]> ∅;
        db := {| audit_events := Some []; sqlite_sequence := 0;
                 readonly := false |};
        screen := [st_error (t_error_empty (TEXTS en))] |})
  ∧ rows_of {| audit_events := Some []; sqlite_sequence := 0;
               readonly := false |} = rows_of fresh_db.
Proof.
  apply (blank_request_reported (request (lit " , ,") true) fresh_world
           sample_file).
  - reflexivity.
  - reflexivity.
  - eexists. vm_compute. reflexivity.
  - discriminate.
  - vm_compute. reflexivity.
Defined.

End validation.


(** ** The confirmed action *)

Section confirmed.

Lemma valid_request_no_invalid text :
  valid_request text →
  filter (λ ip, valid_ip ip = false) (elements (remove_list_clean text)) = [].
Proof.
  intros [_ Hall].
  destruct (filter _ _) as [|x l] eqn:Hf; [done|].
  assert (x ∈ filter (λ ip, valid_ip ip = false)
                     (elements (remove_list_clean text))) as Hx.
  { rewrite Hf. apply list_elem_of_here. }
  apply list_elem_of_filter in Hx as [Hbad Hx%elem_of_elements].
  rewrite (Hall x Hx) in Hbad. done.
Qed.

Lemma valid_request_nonempty text : valid_request text → text ≠ [].
Proof. intros [Hne _] ->. by apply Hne. Qed.

(** The run up to the write of the ledger row. *)
Lemma run_valid_request i w f db' original :
  init_db (db w) = Ret db' →
  uploaded_file i = Some f →
  decodes f →
  valid_request (remove_input i) →
  get_ips_from_content (file_content f) (delimiter_map (delimiter_name i))
  = Ret original →
  let T := TEXTS (lang_selection i) in
  let remove_set := remove_list_clean (remove_input i) in
  let removals := potential_removals original remove_set in
  let w1 := {| session_state := with_success_default (session_state w);
               db := db';
               screen := [notice T removals original] |} in
  run i w
  = if button i
    then
      match log_audit_event (clock_log i) (lit "admin_default")
              (file_name f) (size removals) db' with
      | Ret db'' =>
          (Raise RerunException,
           {| session_state :=
                stored (with_success_default (session_state w))
                       (updated_text original remove_set)
                       (report_of i original remove_set) (base_name f);
              db := db'';
              screen := [notice T removals original] |})
      | Raise e => (Raise e, w1)
      end
    else (downloads T;; audit_history) w1.
Proof.
  intros Hinit Hf Hdec Hvalid Hparse. simpl.
  destruct (run_with_file i w f db' Hinit Hf) as (original' & Hparse' & ->).
  assert (original' = original) as -> by congruence.
  rewrite (with_uploaded_file_eq _ _ _ _ original) by done.
  pose proof (valid_request_nonempty _ Hvalid) as Hne.
  pose proof (valid_request_no_invalid _ Hvalid) as Hfilter.
  destruct Hvalid as [Hset _].
  destruct (remove_input i) as [|c s]; [done|].
  simpl. rewrite decide_False by done. rewrite Hfilter.
  destruct (button i); [|done].
  rewrite (confirm_action_eq _ _ _ _ original) by done. simpl.
  by destruct (log_audit_event _ _ _ _ db').
Qed.





End confirmed.


(** ** The report *)

Section report.

Lemma init_db_writable d :
  readonly d = false →
  ∃ d', init_db d = Ret d' ∧ audit_events d' = Some (rows_of d)
        ∧ readonly d' = false ∧ sqlite_sequence d' = sqlite_sequence d.
Proof.
  intros Hro. unfold init_db, rows_of.
  destruct (audit_events d) as [rows|] eqn:Hd.
  - exists d. by rewrite Hd.
  - rewrite Hro. eexists. split; [done|]. done.
Qed.

Lemma init_db_can_append d :
  can_append d →
  ∃ d', init_db d = Ret d' ∧ audit_events d' = Some (rows_of d)
        ∧ can_append d' ∧ sqlite_sequence d' = sqlite_sequence d.
Proof.
  intros [Hro Hroom].
  destruct (init_db_writable d Hro) as (d' & Hinit & Hrows & Hro' & Hseq).
  exists d'. split_and!; try done.
  split; [done|]. unfold rows_of at 1. by rewrite Hrows, Hseq.
Qed.

Lemma log_audit_event_writable now user target count d rows :
  audit_events d = Some rows → can_append d →
  ∃ e, log_audit_event now user target count d
       = Ret {| audit_events := Some (rows ++ [e]);
                sqlite_sequence := id e;
                readonly := false |}
       ∧ id e = (Z.max (max_rowid rows) (sqlite_sequence d) + 1)%Z
       ∧ timestamp e = isoformat now
       ∧ target_file e = target
       ∧ user_id e = Some user
       ∧ ips_revoked e = Z.of_nat count.
Proof.
  intros Hd [Hro Hroom]. unfold rows_of in Hroom. rewrite Hd in Hroom.
  simpl in Hroom.
  unfold log_audit_event. rewrite Hd, Hro.
  destruct (Z.leb_spec largest_rowid
              (Z.max (max_rowid rows) (sqlite_sequence d))) as [Hfull|_];
    [lia|].
  exists {| id := Z.max (max_rowid rows) (sqlite_sequence d) + 1;
            timestamp := isoformat now;
            action := lit "Access Revocation Audit";
            user_id := Some user;
            target_file := target;
            ips_revoked := Z.of_nat count |}.
  done.
Qed.

Lemma tables_report now original matched updated language :
  let R := report_labels_of language in
  tables (generate_pdf_report now original matched updated language)
  = [ [ [CStr (r_total_initial R); CInt (size original)];
        [CStr (r_total_removed R); CInt (size matched)];
        [CStr (r_total_final R); CInt (size updated)] ];
      (CStr <$> r_ip_list_header R) :: detail_rows R matched ].
Proof. reflexivity. Qed.

Lemma detail_rows_eq (R : report_labels) (matched : gset str) :
  detail_rows R matched
  = if decide (matched = ∅)
    then [[CStr (lit "N/A"); CStr (r_status_maintained R)]]
    else (λ ip, [CStr ip; CStr (r_status_removed R)])
           <$> sorted (elements matched).
Proof.
  unfold detail_rows. case_decide as H.
  - rewrite H, elements_empty. reflexivity.
  - apply app_nil_r.
Qed.

(** C8, as stated, fails: for the comma-delimited file of two lines the
    retained set has one address, and the third count of the report
    is 2. *)
Lemma report_final_count_differs :
  let '(i, w) := comma_scenario in
  ∃ w' story summary detail,
    run i w = (Raise RerunException, w')
    ∧ session_state w' !! "pdf_report" = Some (VReport story)
    ∧ tables story = [summary; detail]
    ∧ summary !! 2%nat = Some [CStr (lit "Total Final IPs:"); CInt 2]
    ∧ size (ips_to_keep comma_file_set (remove_list_clean (remove_input i)))
      = 1%nat.
Proof.
  simpl. eexists _, _, _, _.
  split; [vm_compute; reflexivity|].
  split; [vm_compute; reflexivity|].
  split; [vm_compute; reflexivity|].
  split; [reflexivity | vm_compute; reflexivity].
Qed.

(** C8, amended. The report of a confirmed action (one whose uploaded
    file decodes and whose ledger row can be written) has a summary with
    three counts: the size of the original set, the size of the matched set
    and the number of addresses read back by lines from the serialized
    retained set; the last is the size of the retained set whenever no
    retained address holds a line-boundary character, and always for a
    newline-delimited file.  Its detail section lists the matched
    addresses in lexicographic order, each once and each with the revoked
    label, or holds the one placeholder row when nothing matched. *)
Theorem confirmed_report (i : run_input) (w : world) (f : uploaded) :
  can_append (db w) →
  uploaded_file i = Some f →
  decodes f →
  button i = true →
  valid_request (remove_input i) →
  ∃ original final listed w' story,
    let requested := remove_list_clean (remove_input i) in
    let matched := potential_removals original requested in
    let retained := ips_to_keep original requested in
    let R := report_labels_of (lang_selection i) in
    get_ips_from_content (file_content f) (delimiter_map (delimiter_name i))
    = Ret original
    ∧ get_ips_from_content (serialize retained) [LF] = Ret final
    ∧ run i w = (Raise RerunException, w')
    ∧ session_state w' !! "pdf_report" = Some (VReport story)
    ∧ tables story
      = [ [ [CStr (r_total_initial R); CInt (size original)];
            [CStr (r_total_removed R); CInt (size matched)];
            [CStr (r_total_final R); CInt (size final)] ];
          (CStr <$> r_ip_list_header R)
          :: (if decide (matched = ∅)
              then [[CStr (lit "N/A"); CStr (r_status_maintained R)]]
              else (λ ip, [CStr ip; CStr (r_status_removed R)]) <$> listed) ]
    ∧ Sorted str_le listed ∧ NoDup listed
    ∧ (∀ x, x ∈ listed ↔ x ∈ matched)
    ∧ ((∀ x, x ∈ retained → no_linebreak x) → final = retained)
    ∧ (delimiter_name i = NewLine → final = retained).
Proof.
  intros Hcan Hf Hdec Hb Hvalid.
  destruct (init_db_can_append _ Hcan) as (db' & Hinit & Hrows & Hcan' & _).
  destruct (get_ips_delimiter_map (file_content f) (delimiter_name i))
    as (original & Hparse & Hnorm).
  pose proof (run_valid_request i w f db' original Hinit Hf Hdec Hvalid Hparse)
    as Hrun.
  simpl in Hrun. rewrite Hb in Hrun.
  destruct (log_audit_event_writable (clock_log i) (lit "admin_default")
              (file_name f)
              (size (potential_removals original
                       (remove_list_clean (remove_input i))))
              db' _ Hrows Hcan') as (e & Hlog & _).
  rewrite Hlog in Hrun.
  exists original, (updated_ips original (remove_list_clean (remove_input i))),
    (sorted (elements (potential_removals original
                         (remove_list_clean (remove_input i))))).
  eexists _, (report_of i original (remove_list_clean (remove_input i))).
  simpl.
  split; [done|]. split; [apply get_ips_newline|]. split; [exact Hrun|].
  split.
  { simpl. unfold stored.
    rewrite lookup_insert_ne, lookup_insert_ne by done.
    apply lookup_insert_eq. }
  split; [rewrite <- detail_rows_eq; reflexivity|].
  split; [apply sorted_Sorted|]. split; [apply NoDup_sorted_elements|].
  split; [intros x; apply elem_of_sorted_elements|].
  assert (∀ S : gset str, (∀ x, x ∈ S → strip x = x ∧ x ≠ [] ∧ no_linebreak x) →
          clean_set (splitlines (serialize S)) = S) as Hback.
  { intros S HS. pose proof (reparse_serialize S HS) as H.
    rewrite get_ips_newline in H. by injection H. }
  split.
  - intros Hnl. apply Hback. intros x Hx. split_and!; [| |by apply Hnl].
    + apply Hnorm. unfold ips_to_keep in Hx. set_solver.
    + apply Hnorm. unfold ips_to_keep in Hx. set_solver.
  - intros Hd. rewrite Hd in Hparse. simpl in Hparse.
    pose proof (newline_file_roundtrip _ (remove_list_clean (remove_input i))
                  _ Hparse) as H.
    rewrite get_ips_newline in H. by injection H.
Qed.

Lemma scenario_valid_request : valid_request (lit "2.2.2.2, 9.9.9.9").
Proof.
  split.
  - vm_compute. discriminate.
  - intros x Hx.
    assert (x ∈ [lit "2.2.2.2"; lit "9.9.9.9"]) as Hl.
    { revert Hx. unfold remove_list_clean, clean_set.
      rewrite elem_of_list_to_set. vm_compute. done. }
    repeat (apply elem_of_cons in Hl as [->|Hl]; [vm_compute; reflexivity|]).
    by apply elem_of_nil in Hl.
Defined.

Lemma confirmed_report_witness :
  ∃ original final listed w' story,
    let i := (scenario fresh_db true).1 in
    let requested := remove_list_clean (remove_input i) in
    let matched := potential_removals original requested in
    let retained := ips_to_keep original requested in
    let R := report_labels_of (lang_selection i) in
    get_ips_from_content (file_content scenario_file)
      (delimiter_map (delimiter_name i)) = Ret original
    ∧ get_ips_from_content (serialize retained) [LF] = Ret final
    ∧ run i (scenario fresh_db true).2 = (Raise RerunException, w')
    ∧ session_state w' !! "pdf_report" = Some (VReport story)
    ∧ tables story
      = [ [ [CStr (r_total_initial R); CInt (size original)];
            [CStr (r_total_removed R); CInt (size matched)];
            [CStr (r_total_final R); CInt (size final)] ];
          (CStr <$> r_ip_list_header R)
          :: (if decide (matched = ∅)
              then [[CStr (lit "N/A"); CStr (r_status_maintained R)]]
              else (λ ip, [CStr ip; CStr (r_status_removed R)]) <$> listed) ]
    ∧ Sorted str_le listed ∧ NoDup listed
    ∧ (∀ x, x ∈ listed ↔ x ∈ matched)
    ∧ ((∀ x, x ∈ retained → no_linebreak x) → final = retained)
    ∧ (delimiter_name i = NewLine → final = retained).
Proof.
  apply (confirmed_report (scenario fresh_db true).1
           (scenario fresh_db true).2 scenario_file).
  - split; [reflexivity | vm_compute; reflexivity].
  - reflexivity.
  - eexists. vm_compute. reflexivity.
  - reflexivity.
  - exact scenario_valid_request.
Defined.

End report.


(** ** The revoke text *)

Section revoke_text.

Lemma app_init_fails i w e :
  init_db (db w) = Raise e → app i w = (Raise e, w).
Proof.
  intros H. unfold app. unfold mbind at 1, script_bind at 1, on_db at 1.
  by rewrite H.
Qed.

Lemma audit_history_returns w : ∃ w', audit_history w = (Ret tt, w').
Proof.
  unfold audit_history, try_except, query_db, mbind, script_bind, show.
  destruct (load_audit_logs (db w)) as [[|r rows]|e]; eauto.
Qed.

Lemma downloads_no_stop T w :
  validation_stop ((downloads T;; audit_history) w) = None.
Proof.
  unfold mbind at 1, script_bind at 1.
  destruct (downloads T w) as [[[]|e] w'] eqn:Hd.
  - destruct (audit_history_returns w') as [w'' ->]. done.
  - assert (e = KeyError) as ->; [|done].
    revert Hd.
    unfold downloads, session_item, mbind, script_bind, show, mret,
      script_ret.
    repeat (case_match; simpl; try congruence).
Qed.

Lemma log_audit_event_raises now user target count d e :
  log_audit_event now user target count d = Raise e → e = OperationalError.
Proof.
  unfold log_audit_event. repeat case_match; congruence.
Qed.

Lemma decodes_dec f : decodes f ∨ ¬ decodes f.
Proof.
  unfold decodes. destruct (decode_utf8 (file_bytes f)) as [content|e].
  - left. by exists content.
  - right. by intros [content ?].
Qed.

(** The delimiter enters a run only through the parse of the file. *)
Lemma run_delimiter_only_parse i w d :
  (∀ f, uploaded_file i = Some f →
        get_ips_from_content (file_content f) (delimiter_map d)
        = get_ips_from_content (file_content f)
            (delimiter_map (delimiter_name i))) →
  run (with_delimiter d i) w = run i w.
Proof.
  intros Hsame. unfold run.
  set (w0 := {| session_state := session_state w; db := db w; screen := [] |}).
  destruct (init_db (db w0)) as [db'|e] eqn:Hinit.
  2: { by rewrite !(app_init_fails _ _ e). }
  rewrite !(app_eq _ _ db') by done. simpl.
  destruct (uploaded_file i) as [f|]; [|done].
  specialize (Hsame f eq_refl).
  destruct (decodes_dec f) as [Hdec|Hnot].
  2: { by rewrite !with_uploaded_file_undecodable. }
  destruct (get_ips_delimiter_map (file_content f) (delimiter_name i))
    as (o & Hp & _).
  rewrite (with_uploaded_file_eq _ _ _ _ o) by (done || by rewrite Hsame).
  rewrite (with_uploaded_file_eq _ _ _ _ o) by done.
  simpl.
  destruct (remove_input i) as [|c s]; [done|]. simpl.
  case_decide; [done|].
  destruct (filter _ (elements _)) as [|bad invalid]; [|done].
  destruct (button i); [|done].
  rewrite (confirm_action_eq _ _ _ _ o) by (done || by rewrite Hsame).
  rewrite (confirm_action_eq _ _ _ _ o) by done.
  done.
Qed.

Lemma run_delimiter_independent_stop i w d :
  validation_stop (run (with_delimiter d i) w) = validation_stop (run i w).
Proof.
  unfold run.
  set (w0 := {| session_state := session_state w; db := db w; screen := [] |}).
  destruct (init_db (db w0)) as [db'|e] eqn:Hinit.
  2: { by rewrite !(app_init_fails _ _ e). }
  rewrite !(app_eq _ _ db') by done. simpl.
  destruct (uploaded_file i) as [f|]; [|done].
  destruct (decodes_dec f) as [Hdec|Hnot].
  2: { by rewrite !with_uploaded_file_undecodable. }
  destruct (get_ips_delimiter_map (file_content f) d)
    as (o1 & Hp1 & _).
  destruct (get_ips_delimiter_map (file_content f) (delimiter_name i))
    as (o2 & Hp2 & _).
  rewrite (with_uploaded_file_eq _ _ _ _ o1) by done.
  rewrite (with_uploaded_file_eq _ _ _ _ o2) by done.
  simpl.
  destruct (remove_input i) as [|c s]; [done|]. simpl.
  case_decide; [done|].
  destruct (filter _ (elements _)) as [|bad invalid]; [|done].
  destruct (button i).
  - rewrite (confirm_action_eq _ _ _ _ o1) by done.
    rewrite (confirm_action_eq _ _ _ _ o2) by done. simpl.
    destruct (log_audit_event _ _ _ _ db') as [?|e1] eqn:H1;
      [|apply log_audit_event_raises in H1 as ->];
    destruct (log_audit_event _ _ _ (size (potential_removals o2 _)) db')
      as [?|e2] eqn:H2;
      try (apply log_audit_event_raises in H2 as ->); done.
  - by rewrite !downloads_no_stop.
Qed.

Lemma elem_of_remove_list_clean (x : str) text :
  x ∈ remove_list_clean text
  ↔ x ≠ [] ∧ ∃ tok, tok ∈ raw_remove_list text ∧ trimmed tok x.
Proof. apply elem_of_clean_set_trimmed. Qed.

(** C10. The revoke text is cut at the maximal runs of commas (code point
    44), line feeds (10) and carriage returns (13), whatever delimiter is
    selected: the tokens are the pieces between those runs and nothing
    else, no token holds one of the three characters, and the request set
    holds the non-empty trimmed tokens.  The selected delimiter enters a
    run only through the parse of the uploaded file: a selection under
    which the file parses to the same set gives the same run, and whether
    a run stops on a validation error, and in which state, does not depend
    on the selection at all. *)
Theorem revoke_text_tokenization (i : run_input) (w : world)
    (d : delimiter_option) :
  runs_split (λ c, (c =? 44) || (c =? 10) || (c =? 13)) (remove_input i)
             (raw_remove_list (remove_input i))
  ∧ (∀ ts, runs_split (λ c, (c =? 44) || (c =? 10) || (c =? 13))
                      (remove_input i) ts →
           ts = raw_remove_list (remove_input i))
  ∧ Forall (Forall (λ c, c ≠ 44 ∧ c ≠ 10 ∧ c ≠ 13))
           (raw_remove_list (remove_input i))
  ∧ (∀ x, x ∈ remove_list_clean (remove_input i)
          ↔ x ≠ [] ∧ ∃ tok, tok ∈ raw_remove_list (remove_input i)
                            ∧ trimmed tok x)
  ∧ ((∀ f, uploaded_file i = Some f →
           get_ips_from_content (file_content f) (delimiter_map d)
           = get_ips_from_content (file_content f)
               (delimiter_map (delimiter_name i))) →
     run (with_delimiter d i) w = run i w)
  ∧ validation_stop (run (with_delimiter d i) w) = validation_stop (run i w).
Proof.
  pose proof (re_split_runs_spec is_revoke_separator (remove_input i))
    as Hspec.
  split; [exact Hspec|].
  split.
  { intros ts H. eapply runs_split_functional; [exact H|exact Hspec]. }
  split.
  { apply runs_split_tokens in Hspec.
    eapply Forall_impl; [exact Hspec|]. intros tok Htok.
    eapply Forall_impl; [exact Htok|]. intros c Hc. cbv beta in Hc.
    unfold is_revoke_separator, COMMA, LF, CR in Hc.
    apply orb_false_iff in Hc as [[H1 H2]%orb_false_iff H3].
    apply N.eqb_neq in H1, H2, H3. done. }
  split; [intros x; apply elem_of_remove_list_clean|].
  split; [apply run_delimiter_only_parse
         | apply run_delimiter_independent_stop].
Qed.

(** A comma, a line feed and a carriage return in a row are one cut. *)
Example separator_run_is_one_cut :
  raw_remove_list (lit "1.1.1.1" ++ [44; 10; 13] ++ lit "2.2.2.2")
  = [lit "1.1.1.1"; lit "2.2.2.2"]
  ∧ raw_remove_list (lit "1.1.1.1;2.2.2.2") = [lit "1.1.1.1;2.2.2.2"].
Proof. split; vm_compute; reflexivity. Qed.

(** A text that the space delimiter would cut in two is one entry of the
    request, and an invalid one. *)
Example space_is_no_separator :
  remove_list_clean (lit "1.1.1.1 2.2.2.2") = {[ lit "1.1.1.1 2.2.2.2" ]}
  ∧ is_valid_ip (lit "1.1.1.1 2.2.2.2") = Ret false.
Proof. split; vm_compute; reflexivity. Qed.

End revoke_text.


(** ** Timestamps as text *)

Section timestamps.

Lemma str_leb_compare a b :
  str_leb a b = (match str_compare a b with Gt => false | _ => true end).
Proof.
  revert b. induction a as [|x a IH]; intros [|y b]; simpl; try done.
  destruct (N.compare_spec x y) as [->|H|H].
  - rewrite N.ltb_irrefl. apply IH.
  - apply N.ltb_lt in H. by rewrite H.
  - assert ((x <? y) = false) as -> by (apply N.ltb_ge; lia).
    apply N.ltb_lt in H. by rewrite H.
Qed.

Lemma str_compare_app a b x y :
  length a = length b →
  str_compare (a ++ x) (b ++ y) = lex (str_compare a b) (str_compare x y).
Proof.
  revert b. induction a as [|c a IH]; intros [|c' b] Hlen; simpl in *;
    try done.
  destruct (c ?= c'); try done. apply IH. lia.
Qed.

Lemma str_compare_refl a : str_compare a a = Eq.
Proof. induction a as [|c a IH]; simpl; [done|]. by rewrite N.compare_refl. Qed.

Lemma zfill_acc w n acc : zfill w n acc = zfill w n [] ++ acc.
Proof.
  revert n acc. induction w as [|w IH]; intros n acc; simpl; [done|].
  rewrite (IH _ (_ :: acc)), (IH _ [_]). by rewrite <- app_assoc.
Qed.

Lemma zfill_S w n :
  zfill (S w) n [] = zfill w (n / 10) [] ++ [digit_char (n mod 10)].
Proof. simpl. apply zfill_acc. Qed.

Lemma length_zfill w n : length (zfill w n []) = w.
Proof.
  revert n. induction w as [|w IH]; intros n; [done|].
  rewrite zfill_S, length_app, IH. simpl. lia.
Qed.

Lemma compare_by_digits a b :
  (a ?= b) = lex (a / 10 ?= b / 10) (a mod 10 ?= b mod 10).
Proof.
  pose proof (N.div_mod a 10 ltac:(lia)) as Ha.
  pose proof (N.div_mod b 10 ltac:(lia)) as Hb.
  pose proof (N.mod_lt a 10 ltac:(lia)) as Ha'.
  pose proof (N.mod_lt b 10 ltac:(lia)) as Hb'.
  revert Ha Hb Ha' Hb'.
  generalize (a / 10) (a mod 10) (b / 10) (b mod 10).
  intros qa ra qb rb Ha Hb Ha' Hb'.
  change (lex (qa ?= qb) (ra ?= rb)) with (lex (qa ?= qb) (ra ?= rb)).
  destruct (N.compare_spec qa qb) as [H|H|H]; simpl.
  - destruct (N.compare_spec ra rb) as [H'|H'|H'].
    + apply N.compare_eq_iff. lia.
    + apply N.compare_lt_iff. lia.
    + apply N.compare_gt_iff. lia.
  - apply N.compare_lt_iff. lia.
  - apply N.compare_gt_iff. lia.
Qed.

Lemma str_compare_zfill w a b :
  a < 10 ^ N.of_nat w → b < 10 ^ N.of_nat w →
  str_compare (zfill w a []) (zfill w b []) = (a ?= b).
Proof.
  revert a b. induction w as [|w IH]; intros a b Ha Hb.
  - simpl in *. assert (a = 0) as -> by lia. assert (b = 0) as -> by lia. done.
  - rewrite Nat2N.inj_succ, N.pow_succ_r' in Ha, Hb.
    rewrite !zfill_S, str_compare_app by by rewrite !length_zfill.
    rewrite IH by (apply N.Div0.div_lt_upper_bound; lia).
    rewrite (compare_by_digits a b). f_equal. simpl.
    unfold digit_char.
    destruct (N.compare_spec (a mod 10) (b mod 10)) as [->|H|H].
    + by rewrite N.compare_refl.
    + assert ((48 + a mod 10 ?= 48 + b mod 10) = Lt) as ->; [|done].
      apply N.compare_lt_iff. lia.
    + assert ((48 + a mod 10 ?= 48 + b mod 10) = Gt) as ->; [|done].
      apply N.compare_gt_iff. lia.
Qed.

Lemma str_compare_same_prefix p x y :
  str_compare (p ++ x) (p ++ y) = str_compare x y.
Proof. rewrite str_compare_app by done. by rewrite str_compare_refl. Qed.

Lemma str_compare_field w a b x y :
  a < 10 ^ N.of_nat w → b < 10 ^ N.of_nat w →
  str_compare (zfill w a [] ++ x) (zfill w b [] ++ y)
  = lex (a ?= b) (str_compare x y).
Proof.
  intros Ha Hb. rewrite str_compare_app by by rewrite !length_zfill.
  by rewrite str_compare_zfill.
Qed.

Lemma str_compare_fraction a b :
  a < 1000000 → b < 1000000 →
  str_compare (if a =? 0 then [] else lit "." ++ zfill 6 a [])
              (if b =? 0 then [] else lit "." ++ zfill 6 b [])
  = (a ?= b).
Proof.
  intros Ha Hb.
  destruct (N.eqb_spec a 0) as [->|Hna], (N.eqb_spec b 0) as [->|Hnb].
  - done.
  - symmetry. apply N.compare_lt_iff. lia.
  - symmetry. apply N.compare_gt_iff. lia.
  - rewrite str_compare_same_prefix.
    by apply (str_compare_zfill 6).
Qed.

(** The text order of [isoformat] is the order of time. *)
Lemma isoformat_compare d1 d2 :
  fits_widths d1 → fits_widths d2 →
  str_compare (isoformat d1) (isoformat d2) = datetime_compare d1 d2.
Proof.
  intros (Hy1 & Hm1 & Hd1 & Hh1 & Hmi1 & Hs1 & Hu1)
         (Hy2 & Hm2 & Hd2 & Hh2 & Hmi2 & Hs2 & Hu2).
  unfold isoformat, datetime_compare.
  rewrite (str_compare_field 4), str_compare_same_prefix by done.
  rewrite (str_compare_field 2), str_compare_same_prefix by done.
  rewrite (str_compare_field 2), str_compare_same_prefix by done.
  rewrite (str_compare_field 2), str_compare_same_prefix by done.
  rewrite (str_compare_field 2), str_compare_same_prefix by done.
  rewrite (str_compare_field 2) by done.
  by rewrite str_compare_fraction.
Qed.


End timestamps.


(** ** The ledger *)

Section ledger.

Global Instance timestamp_desc_total : Total timestamp_desc.
Proof. intros a b. unfold timestamp_desc. destruct (total str_le (timestamp a) (timestamp b)); auto. Qed.

Global Instance timestamp_desc_trans : Transitive timestamp_desc.
Proof. intros a b c H1 H2. unfold timestamp_desc in *. by etrans. Qed.


Lemma max_rowid_bound rows :
  Forall (λ r, (id r ≤ max_rowid rows)%Z) rows.
Proof.
  induction rows as [|r rows IH]; constructor; simpl.
  - unfold max_rowid. simpl. lia.
  - eapply Forall_impl; [exact IH|]. intros x Hx. unfold max_rowid in *.
    simpl in *. lia.
Qed.








End ledger.


(** ** Dotted decimal *)

Section ipv4.

Import Ipaddress.

Lemma succeeds_Ret {A} (a : A) : succeeds (Ret a).
Proof. by exists a. Qed.

Lemma succeeds_Raise {A} e : ¬ succeeds (@Raise A e).
Proof. by intros [a H]. Qed.

Lemma succeeds_bind {A B} (r : res A) (k : A → res B) :
  succeeds (r ≫= k) ↔ ∃ a, r = Ret a ∧ succeeds (k a).
Proof.
  destruct r as [a|e]; simpl.
  - split; [eauto | by intros (a' & [= <-] & H)].
  - split; [by intros []%succeeds_Raise | by intros (a & [=] & _)].
Qed.

Lemma succeeds_reraise {A} (r : res A) :
  succeeds (reraise_as_AddressValueError r) ↔ succeeds r.
Proof.
  destruct r as [a|e]; simpl; [done|].
  destruct (is_ValueError e); split; by intros []%succeeds_Raise.
Qed.

Lemma in_str_true c s : in_str c s = true ↔ c ∈ s.
Proof.
  unfold in_str. rewrite existsb_exists. split.
  - intros (x & Hx%list_elem_of_In & ->%N.eqb_eq). done.
  - intros H. exists c. split; [by apply list_elem_of_In | apply N.eqb_refl].
Qed.

Lemma in_str_false c s : in_str c s = false ↔ c ∉ s.
Proof.
  rewrite <- in_str_true. destruct (in_str c s); naive_solver.
Qed.

Lemma forallb_Forall {A} (f : A → bool) l :
  forallb f l = true ↔ Forall (λ x, f x = true) l.
Proof. rewrite forallb_forall, Forall_forall. by setoid_rewrite list_elem_of_In. Qed.

Lemma parse_octet_succeeds o : succeeds (parse_octet o) ↔ decimal_octet o.
Proof.
  unfold parse_octet, decimal_octet. destruct o as [|c0 o].
  { split; [by intros []%succeeds_Raise | by intros [[] _]]. }
  destruct (forallb is_ascii_digit (c0 :: o)) eqn:Hd; simpl negb; cbv iota.
  2: { split; [by intros []%succeeds_Raise|].
       intros (_ & H%forallb_Forall & _). congruence. }
  apply forallb_Forall in Hd.
  destruct (3 <? length (c0 :: o))%nat eqn:Hlen.
  { apply Nat.ltb_lt in Hlen.
    split; [by intros []%succeeds_Raise|]. intros (_ & _ & H & _). lia. }
  apply Nat.ltb_ge in Hlen.
  destruct (negb _ && _) eqn:Hz.
  { split; [by intros []%succeeds_Raise|].
    apply andb_true_iff in Hz as [Hz1%negb_true_iff%bool_decide_eq_false Hz2%N.eqb_eq].
    intros (_ & _ & _ & [H|H] & _); [done|]. exfalso. apply H. simpl.
    by f_equal. }
  destruct (255 <? int10 (c0 :: o)) eqn:Hv.
  { apply N.ltb_lt in Hv.
    split; [by intros []%succeeds_Raise|]. intros (_ & _ & _ & _ & H). lia. }
  apply N.ltb_ge in Hv.
  split; [|intros _; apply succeeds_Ret]. intros _.
  split_and!; try done.
  apply andb_false_iff in Hz as [Hz|Hz].
  - left. apply negb_false_iff, bool_decide_eq_true in Hz. done.
  - right. simpl. intros [= ->]. by rewrite N.eqb_refl in Hz.
Qed.

Lemma from_octets_succeeds acc octets :
  succeeds (from_octets acc octets) ↔ Forall decimal_octet octets.
Proof.
  revert acc. induction octets as [|o os IH]; intros acc; simpl.
  - split; [constructor | intros _; apply succeeds_Ret].
  - rewrite succeeds_bind, Forall_cons, <- parse_octet_succeeds. split.
    + intros (v & Hv & H). split; [by exists v | by eapply IH].
    + intros [[v Hv] H]. exists v. split; [done | by apply IH].
Qed.

(** Joining and splitting at one character. *)
Lemma join_cons sep x y l :
  join sep (x :: y :: l) = x ++ sep ++ join sep (y :: l).
Proof. done. Qed.

Lemma join_app sep l1 l2 :
  l1 ≠ [] → l2 ≠ [] →
  join sep (l1 ++ l2) = join sep l1 ++ sep ++ join sep l2.
Proof.
  intros H1 H2. induction l1 as [|x l1 IH]; [done|].
  destruct l1 as [|y l1].
  - destruct l2; [done|]. done.
  - change ((x :: y :: l1) ++ l2) with (x :: y :: (l1 ++ l2)).
    rewrite !join_cons. change (y :: l1 ++ l2) with ((y :: l1) ++ l2).
    rewrite IH by done. by rewrite <- !app_assoc.
Qed.

Lemma Forall_join (P : char → Prop) sep l :
  Forall P sep → Forall (Forall P) l → Forall P (join sep l).
Proof.
  intros Hsep. induction 1 as [|x l Hx Hl IH]; [constructor|].
  destruct l as [|y l]; [done|].
  rewrite join_cons. repeat (apply Forall_app; split); done.
Qed.

Lemma occurs_in_char c t : occurs_in [c] t ↔ c ∈ t.
Proof.
  split.
  - intros (a & b & ->). set_solver.
  - intros (a & b & ->)%list_elem_of_split. by exists a, b.
Qed.

Lemma split_of_join_char c l :
  l ≠ [] → Forall (λ t, c ∉ t) l → split_of [c] (join [c] l) l.
Proof.
  intros Hne Hl. induction Hl as [|x l Hx Hl IH]; [done|].
  destruct l as [|y l].
  - apply split_of_last. by rewrite occurs_in_char.
  - rewrite join_cons. apply split_of_cons; [|by apply IH].
    simpl. rewrite app_nil_r. by rewrite occurs_in_char.
Qed.

Lemma split_join_char c l :
  l ≠ [] → Forall (λ t, c ∉ t) l → split (join [c] l) [c] = Ret l.
Proof. intros. apply split_spec; [done | by apply split_of_join_char]. Qed.

Lemma split_char_inv s c l :
  split s [c] = Ret l → l ≠ [] ∧ s = join [c] l ∧ Forall (λ t, c ∉ t) l.
Proof.
  rewrite split_Ret by done. intros [= <-].
  pose proof (split_scan_split_of (length s) [c] s ltac:(done) ltac:(done))
    as H.
  split; [intros Heq; rewrite Heq in H; inversion H|].
  split; [by apply split_of_join|].
  apply split_of_no_occurrence in H.
  eapply Forall_impl; [exact H|]. intros t Ht. by rewrite <- occurs_in_char.
Qed.

Lemma digit_not c d : is_ascii_digit c = true → is_ascii_digit d = false → c ≠ d.
Proof. congruence. Qed.

Lemma decimal_octet_chars o (c : char) :
  decimal_octet o → is_ascii_digit c = false → c ∉ o.
Proof.
  intros (_ & Hd & _) Hc Hin. rewrite Forall_forall in Hd.
  specialize (Hd c Hin). congruence.
Qed.

Lemma IPv4Address_succeeds s : succeeds (IPv4Address s) ↔ wf_ipv4 s.
Proof.
  unfold IPv4Address, wf_ipv4, v4_ip_int_from_string. split.
  - destruct (in_str SLASH s); [by intros []%succeeds_Raise|].
    destruct s as [|c s]; [by intros []%succeeds_Raise|].
    intros (octets & Hsplit & H)%succeeds_bind.
    destruct (Nat.eqb_spec (length octets) 4) as [Hlen|Hlen];
      [|by apply succeeds_Raise in H].
    simpl in H. apply succeeds_reraise, from_octets_succeeds in H.
    apply split_char_inv in Hsplit as (_ & Hjoin & _). eauto.
  - intros (octets & Hlen & Hoct & ->).
    assert (octets ≠ []) as Hne by (by destruct octets).
    assert (Forall (λ t, DOT ∉ t) octets) as Hdots.
    { eapply Forall_impl; [exact Hoct|]. intros o Ho.
      by apply decimal_octet_chars. }
    assert (in_str SLASH (join [DOT] octets) = false) as ->.
    { apply in_str_false. intros Hin.
      assert (Forall (λ c, c ≠ SLASH) (join [DOT] octets)) as Hall.
      { apply Forall_join; [by repeat constructor|].
        eapply Forall_impl; [exact Hoct|]. intros o Ho.
        apply Forall_forall. intros c Hc ->.
        by apply (decimal_octet_chars o SLASH Ho). }
      rewrite Forall_forall in Hall. by apply (Hall SLASH). }
    destruct (join [DOT] octets) as [|c s] eqn:Hs.
    { destruct octets as [|[|] [|]]; simpl in *; try done;
        by apply Forall_cons in Hoct as [(H & _) _]. }
    rewrite <- Hs, split_join_char by done. simpl.
    rewrite Hlen. simpl. by apply succeeds_reraise, from_octets_succeeds.
Qed.

End ipv4.


(** ** Colon hexadecimal: the parts *)

Section ipv6_parts.

Import Ipaddress.

Lemma parse_hextet_succeeds h : succeeds (parse_hextet h) ↔ hextet h.
Proof.
  unfold parse_hextet, hextet.
  destruct (forallb is_hex_digit h) eqn:Hd; simpl negb; cbv iota.
  2: { split; [by intros []%succeeds_Raise|].
       intros (_ & _ & H%forallb_Forall). congruence. }
  apply forallb_Forall in Hd.
  destruct (4 <? length h)%nat eqn:Hlen.
  { apply Nat.ltb_lt in Hlen.
    split; [by intros []%succeeds_Raise|]. intros (_ & H & _). lia. }
  apply Nat.ltb_ge in Hlen.
  destruct h as [|c h].
  - split; [by intros []%succeeds_Raise | by intros [[] _]].
  - split; [done | intros _; apply succeeds_Ret].
Qed.

Lemma shift_in_hextets_succeeds acc ps :
  succeeds (shift_in_hextets acc ps) ↔ Forall hextet ps.
Proof.
  revert acc. induction ps as [|p ps IH]; intros acc; simpl.
  - split; [constructor | intros _; apply succeeds_Ret].
  - rewrite succeeds_bind, Forall_cons, <- parse_hextet_succeeds. split.
    + intros (v & Hv & H). split; [by exists v | by eapply IH].
    + intros [[v Hv] H]. exists v. split; [done | by apply IH].
Qed.

Lemma hextet_nonempty h : hextet h → h ≠ [].
Proof. by intros [H _]. Qed.

(** The search for the empty part. *)
Lemma find_skip_index_spec parts pre mid post sk k :
  parts = pre ++ mid ++ post →
  find_skip_index parts (seq (length pre) (length mid)) sk = Ret k
  ↔ (Forall (λ p, p ≠ []) mid ∧ k = sk)
    ∨ (sk = None
       ∧ ∃ m1 m2, mid = m1 ++ [] :: m2
                  ∧ Forall (λ p, p ≠ []) m1 ∧ Forall (λ p, p ≠ []) m2
                  ∧ k = Some (length pre + length m1)%nat).
Proof.
  intros ->. revert pre sk. induction mid as [|p mid IH]; intros pre sk.
  - simpl. split.
    + intros [= ->]. left. by split.
    + intros [[_ ->] | (_ & m1 & m2 & H & _)]; [done|].
      by destruct m1.
  - assert (nth (length pre) (pre ++ (p :: mid) ++ post) [] = p) as Hnth.
    { rewrite app_nth2 by lia. by rewrite Nat.sub_diag. }
    assert (pre ++ (p :: mid) ++ post = (pre ++ [p]) ++ mid ++ post) as Hre
      by by rewrite <- app_assoc.
    assert (S (length pre) = length (pre ++ [p])) as Hlen
      by (rewrite length_app; simpl; lia).
    change (seq (length pre) (length (p :: mid)))
      with (length pre :: seq (S (length pre)) (length mid)).
    cbn [find_skip_index]. rewrite Hnth.
    destruct p as [|c p].
    + destruct sk as [j|].
      * split; [done|].
        intros [[H _] | (? & _)]; [|done].
        by apply Forall_cons in H as [[] _].
      * rewrite Hre, Hlen, IH. split.
        -- intros [[Hmid ->] | (? & _)]; [|done].
           right. split; [done|]. exists [], mid.
           repeat split; try done. simpl. f_equal. lia.
        -- intros [[H _] | (_ & m1 & m2 & Hmid & H1 & H2 & ->)].
           { by apply Forall_cons in H as [[] _]. }
           destruct m1 as [|x m1].
           ++ injection Hmid as ->. left. split; [done|].
              f_equal. simpl. lia.
           ++ injection Hmid as <- _. by apply Forall_cons in H1 as [[] _].
    + rewrite Hre, Hlen, IH. split.
      * intros [[Hmid ->] | (-> & m1 & m2 & -> & H1 & H2 & ->)].
        -- left. split; [|done]. by constructor.
        -- right. split; [done|]. exists ((c :: p) :: m1), m2.
           repeat split; try done; [by constructor|].
           f_equal. rewrite length_app. simpl. lia.
      * intros [[Hmid ->] | (-> & m1 & m2 & Hmid & H1 & H2 & ->)].
        -- left. by apply Forall_cons in Hmid as [_ Hmid].
        -- right. split; [done|].
           destruct m1 as [|x m1]; [done|]. injection Hmid as <- ->.
           apply Forall_cons in H1 as [_ H1]. exists m1, m2.
           repeat split; try done.
           f_equal. rewrite length_app. simpl. lia.
Qed.

End ipv6_parts.


Section ipv6_plan.

Import Ipaddress.

Lemma is_empty_true s : is_empty s = true ↔ s = [].
Proof. by destruct s. Qed.

Lemma is_empty_false s : is_empty s = false ↔ s ≠ [].
Proof. by destruct s. Qed.

Lemma plan_parts_None parts hi lo sk :
  plan_parts parts None = Ret (hi, lo, sk)
  ↔ length parts = 8%nat ∧ nth 0 parts [] ≠ [] ∧ List.last parts [] ≠ []
    ∧ hi = 8%nat ∧ lo = 0%nat ∧ sk = 0%nat.
Proof.
  unfold plan_parts.
  destruct (Nat.eqb_spec (length parts) 8) as [Hlen|Hlen]; simpl.
  2: { split; [done | by intros [? _]]. }
  destruct (nth 0 parts []) as [|c f]; simpl.
  { split; [done | by intros (_ & ? & _)]. }
  destruct (List.last parts []) as [|c' l]; simpl.
  { split; [done | by intros (_ & _ & ? & _)]. }
  rewrite Hlen. split.
  - intros [= <- <- <-]. done.
  - intros (_ & _ & _ & -> & -> & ->). done.
Qed.

Lemma plan_parts_Some parts k hi lo sk :
  (1 ≤ k)%nat → (k + 2 ≤ length parts)%nat →
  plan_parts parts (Some k) = Ret (hi, lo, sk)
  ↔ (nth 0 parts [] = [] → k = 1%nat)
    ∧ (List.last parts [] = [] → length parts = (k + 2)%nat)
    ∧ hi = (if is_empty (nth 0 parts []) then 0 else k)%nat
    ∧ lo = (if is_empty (List.last parts []) then 0
            else length parts - k - 1)%nat
    ∧ (hi + lo ≤ 7)%nat
    ∧ sk = (8 - (hi + lo))%nat.
Proof.
  intros Hk Hlen. unfold plan_parts.
  destruct (nth 0 parts []) as [|c f]; simpl.
  - destruct (k - 1)%nat as [|k'] eqn:Hk1; simpl.
    2: { split; [done|]. intros (H & _). specialize (H eq_refl). lia. }
    destruct (List.last parts []) as [|c' l]; simpl.
    + destruct (length parts - k - 1 - 1)%nat as [|n'] eqn:Hn; simpl.
      2: { split; [done|]. intros (_ & H & _). specialize (H eq_refl). lia. }
      split.
      * intros [= <- <- <-]. repeat split; try done; intros; lia.
      * intros (_ & _ & -> & -> & _ & ->). do 3 f_equal; lia.
    + destruct (_ <? 1)%Z eqn:Hs.
      * apply Z.ltb_lt in Hs. split; [done|].
        intros (_ & _ & -> & -> & H & _). lia.
      * apply Z.ltb_ge in Hs. split.
        -- intros [= <- <- <-]. repeat split; try done; intros; lia.
        -- intros (_ & _ & -> & -> & _ & ->). do 3 f_equal; lia.
  - destruct (List.last parts []) as [|c' l]; simpl.
    + destruct (length parts - k - 1 - 1)%nat as [|n'] eqn:Hn; simpl.
      2: { split; [done|]. intros (_ & H & _). specialize (H eq_refl). lia. }
      destruct (_ <? 1)%Z eqn:Hs.
      * apply Z.ltb_lt in Hs. split; [done|].
        intros (_ & _ & -> & -> & H & _). lia.
      * apply Z.ltb_ge in Hs. split.
        -- intros [= <- <- <-]. repeat split; try done; intros; lia.
        -- intros (_ & _ & -> & -> & _ & ->). do 3 f_equal; lia.
    + destruct (_ <? 1)%Z eqn:Hs.
      * apply Z.ltb_lt in Hs. split; [done|].
        intros (_ & _ & -> & -> & H & _). lia.
      * apply Z.ltb_ge in Hs. split.
        -- intros [= <- <- <-]. repeat split; try done; intros; lia.
        -- intros (_ & _ & -> & -> & _ & ->). do 3 f_equal; lia.
Qed.

Lemma hextets_value_unfold parts :
  succeeds (hextets_value parts)
  ↔ ∃ k hi lo sk,
      find_skip_index parts (seq 1 (length parts - 2)) None = Ret k
      ∧ plan_parts parts k = Ret (hi, lo, sk)
      ∧ Forall hextet (take hi parts)
      ∧ Forall hextet (drop (length parts - lo) parts).
Proof.
  unfold hextets_value. rewrite succeeds_bind. split.
  - intros (k & Hk & H). apply succeeds_bind in H as ([[hi lo] sk] & Hp & H).
    apply succeeds_reraise, succeeds_bind in H as (ip & Hhi & Hlo).
    exists k, hi, lo, sk. split_and!; try done.
    + apply (shift_in_hextets_succeeds 0). by exists ip.
    + by eapply shift_in_hextets_succeeds.
  - intros (k & hi & lo & sk & Hk & Hp & Hhi & Hlo).
    exists k. split; [done|]. apply succeeds_bind.
    exists (hi, lo, sk). split; [done|].
    apply succeeds_reraise, succeeds_bind.
    apply (shift_in_hextets_succeeds 0) in Hhi as [ip Hip].
    exists ip. split; [done|]. by apply shift_in_hextets_succeeds.
Qed.

Lemma hextets_value_decomposed first mid last :
  succeeds (hextets_value (first :: mid ++ [last]))
  ↔ (length mid = 6%nat ∧ Forall hextet (first :: mid ++ [last]))
    ∨ (∃ m1 m2,
         mid = m1 ++ [] :: m2
         ∧ (first = [] → m1 = []) ∧ (last = [] → m2 = [])
         ∧ Forall hextet (if is_empty first then [] else first :: m1)
         ∧ Forall hextet (if is_empty last then [] else m2 ++ [last])
         ∧ (length (if is_empty first then [] else first :: m1)
            + length (if is_empty last then [] else m2 ++ [last]) ≤ 7)%nat).
Proof.
  set (parts := first :: mid ++ [last]).
  assert (length parts = S (S (length mid))) as Hlen.
  { unfold parts. simpl. rewrite length_app. simpl. lia. }
  assert (nth 0 parts [] = first) as Hnth by done.
  assert (List.last parts [] = last) as Hlast.
  { unfold parts. change (first :: mid ++ [last])
      with ((first :: mid) ++ [last]). apply last_last. }
  assert (seq 1 (length parts - 2) = seq (length [first]) (length mid)) as Hseq.
  { rewrite Hlen. simpl. by rewrite Nat.sub_0_r. }
  rewrite hextets_value_unfold, Hseq. split.
  - intros (k & hi & lo & sk & Hk & Hp & Hhi & Hlo).
    apply (find_skip_index_spec parts [first] mid [last]) in Hk; [|done].
    destruct Hk as [[Hmid ->] | (_ & m1 & m2 & Hm & H1 & H2 & ->)].
    + left. apply plan_parts_None in Hp as (Hl8 & _ & _ & -> & _).
      split; [lia|]. rewrite take_ge in Hhi by lia. done.
    + right. exists m1, m2. split; [done|].
      assert (length mid = (length m1 + S (length m2))%nat) as Hlm.
      { rewrite Hm, length_app. simpl. lia. }
      apply plan_parts_Some in Hp; [|rewrite ?Hlen, ?Hlm; simpl; lia..].
      destruct Hp as (Hf & Hl & -> & -> & Hsum & _).
      rewrite Hnth in *. rewrite Hlast in *.
      assert (parts = (first :: m1) ++ [] :: (m2 ++ [last])) as Hparts.
      { unfold parts. rewrite Hm. simpl. by rewrite <- app_assoc. }
      assert (parts = ((first :: m1) ++ [[]]) ++ (m2 ++ [last])) as Hparts2.
      { rewrite Hparts. by rewrite <- app_assoc. }
      split.
      { intros Hfe. specialize (Hf Hfe). simpl in Hf.
        apply nil_length_inv. lia. }
      split.
      { intros Hle. specialize (Hl Hle). rewrite Hlen, Hlm in Hl.
        simpl in Hl. apply nil_length_inv. lia. }
      split.
      { destruct (is_empty first) eqn:Hef; [constructor|].
        rewrite Hparts in Hhi.
        rewrite take_app_length' in Hhi by reflexivity. done. }
      split.
      { destruct (is_empty last) eqn:Hel; [constructor|].
        rewrite ?Hel in Hlo.
        replace (length parts - (length parts - (length [first] + length m1) - 1))%nat
          with (length ((first :: m1) ++ [[]])) in Hlo
          by (rewrite Hlen, Hlm, length_app; cbn [length]; unfold str, char in *; lia).
        rewrite Hparts2 in Hlo. by rewrite drop_app_length in Hlo. }
      revert Hsum. rewrite Hlen, Hlm.
      destruct (is_empty first), (is_empty last);
        rewrite ?length_app; cbn [length]; unfold str, char in *; lia.
  - intros [[Hl6 Hall] | (m1 & m2 & Hm & Hf & Hl & Hhi & Hlo & Hsum)].
    + exists None, 8%nat, 0%nat, 0%nat.
      split.
      { apply (find_skip_index_spec parts [first] mid [last]); [done|].
        left. split; [|done].
        apply Forall_cons in Hall as [_ Hall].
        apply Forall_app in Hall as [Hall _].
        eapply Forall_impl; [exact Hall|]. intros. by apply hextet_nonempty. }
      split.
      { apply plan_parts_None. rewrite Hnth, Hlast.
        apply Forall_cons in Hall as [H1 Hall].
        apply Forall_app in Hall as [_ [H2 _]%Forall_cons].
        split_and!; try done; [lia | by apply hextet_nonempty
                                   | by apply hextet_nonempty]. }
      split; [by rewrite take_ge by lia|].
      rewrite drop_ge by lia. constructor.
    + assert (length mid = (length m1 + S (length m2))%nat) as Hlm.
      { rewrite Hm, length_app. simpl. lia. }
      assert (parts = (first :: m1) ++ [] :: (m2 ++ [last])) as Hparts.
      { unfold parts. rewrite Hm. simpl. by rewrite <- app_assoc. }
      assert (parts = ((first :: m1) ++ [[]]) ++ (m2 ++ [last])) as Hparts2.
      { rewrite Hparts. by rewrite <- app_assoc. }
      assert (Forall (λ p : str, p ≠ []) m1) as Hn1.
      { destruct first as [|c f]; [by rewrite Hf|]. simpl in Hhi.
        apply Forall_cons in Hhi as [_ Hhi].
        eapply Forall_impl; [exact Hhi|]. intros. by apply hextet_nonempty. }
      assert (Forall (λ p : str, p ≠ []) m2) as Hn2.
      { destruct last as [|c l]; [by rewrite Hl|]. simpl in Hlo.
        apply Forall_app in Hlo as [Hlo _].
        eapply Forall_impl; [exact Hlo|]. intros. by apply hextet_nonempty. }
      exists (Some (length [first] + length m1)%nat),
        (if is_empty first then 0 else length [first] + length m1)%nat,
        (if is_empty last then 0
         else length parts - (length [first] + length m1) - 1)%nat,
        (8 - ((if is_empty first then 0 else length [first] + length m1)
              + (if is_empty last then 0
                 else length parts - (length [first] + length m1) - 1)))%nat.
      split.
      { apply (find_skip_index_spec parts [first] mid [last]); [done|].
        right. split; [done|]. exists m1, m2. done. }
      split.
      { apply plan_parts_Some; [rewrite ?Hlen, ?Hlm; simpl; lia..|].
        rewrite Hnth, Hlast. split_and!; try done.
        - intros Hfe. rewrite (Hf Hfe). done.
        - intros Hle. rewrite Hlen, Hlm, (Hl Hle). simpl. lia.
        - revert Hsum. rewrite Hlen, Hlm.
          destruct (is_empty first), (is_empty last);
            rewrite ?length_app; cbn [length]; unfold str, char in *; lia. }
      split.
      { destruct (is_empty first); [constructor|].
        rewrite Hparts, take_app_length' by reflexivity. done. }
      destruct (is_empty last) eqn:He.
      * rewrite drop_ge by lia. constructor.
      * replace (length parts - (length parts - (length [first] + length m1) - 1))%nat
          with (length ((first :: m1) ++ [[]]))
          by (rewrite Hlen, Hlm, length_app; cbn [length]; unfold str, char in *; lia).
        rewrite Hparts2. by rewrite drop_app_length.
Qed.

Lemma pad_nonempty l : l ≠ [] → pad l = l.
Proof. by destruct l. Qed.

Lemma ends_of_list (parts : list str) :
  (2 ≤ length parts)%nat → ∃ first mid last, parts = first :: mid ++ [last].
Proof.
  destruct parts as [|first rest]; simpl; [lia|].
  destruct rest as [|last rest _] using rev_ind; simpl; [lia|].
  intros _. by exists first, rest, last.
Qed.

Lemma hextets_value_succeeds parts :
  (2 ≤ length parts)%nat →
  succeeds (hextets_value parts) ↔ hextet_parts parts.
Proof.
  intros (first & mid & last & ->)%ends_of_list.
  rewrite hextets_value_decomposed. unfold hextet_parts. split.
  - intros [[Hlen Hall] | (m1 & m2 & -> & Hf & Hl & Hhi & Hlo & Hsum)].
    + left. split; [|done]. simpl. rewrite length_app. simpl. lia.
    + right.
      exists (if is_empty first then [] else first :: m1),
        (if is_empty last then [] else m2 ++ [last]).
      split_and!; try done.
      destruct first as [|c f], last as [|c' l]; simpl;
        rewrite ?Hf, ?Hl by done; simpl; rewrite <- ?app_assoc; simpl;
        try done.
      * rewrite pad_nonempty by (by destruct m2). done.
      * rewrite pad_nonempty by (by destruct m2). done.
  - intros [[Hlen Hall] | (hi & lo & Hhi & Hlo & Hsum & Heq)].
    + left. split; [|done]. simpl in Hlen. rewrite length_app in Hlen.
      simpl in Hlen. lia.
    + right.
      destruct hi as [|h hi]; destruct lo as [|l lo _] using rev_ind;
        simpl in Heq.
      * injection Heq as -> Heq.
        change (mid ++ [last] = [[]] ++ [[]]) in Heq.
        apply app_inj_tail in Heq as [-> ->]. exists [], [].
        split_and!; try done; try (intros ->; simpl in *; done);
          try constructor; simpl in *; unfold str, char in *; try done; try lia.
      * injection Heq as -> Heq.
        rewrite pad_nonempty in Heq by (by destruct lo).
        change (mid ++ [last] = ([] :: lo) ++ [l]) in Heq.
        apply app_inj_tail in Heq as [-> ->]. exists [], lo.
        assert (l ≠ []) as Hne
          by (apply Forall_app in Hlo as [_ [?%hextet_nonempty _]%Forall_cons];
              done).
        apply is_empty_false in Hne. rewrite Hne.
        split_and!; try done; try (intros ->; simpl in *; done);
          try constructor; simpl in *; unfold str, char in *; try done; try lia.
      * injection Heq as -> Heq.
        change (mid ++ [last] = hi ++ [[]] ++ [[]]) in Heq.
        rewrite app_assoc in Heq.
        apply app_inj_tail in Heq as [-> ->]. exists hi, [].
        assert (h ≠ []) as Hne
          by (by apply Forall_cons in Hhi as [?%hextet_nonempty _]).
        apply is_empty_false in Hne. rewrite Hne.
        split_and!; try done; try (intros ->; simpl in *; done);
          try constructor; simpl in *; unfold str, char in *; try done; try lia.
      * injection Heq as -> Heq.
        rewrite pad_nonempty in Heq by (by destruct lo).
        change (mid ++ [last] = hi ++ ([] :: lo) ++ [l]) in Heq.
        rewrite app_assoc in Heq.
        apply app_inj_tail in Heq as [-> ->]. exists hi, lo.
        assert (h ≠ []) as Hne
          by (by apply Forall_cons in Hhi as [?%hextet_nonempty _]).
        assert (l ≠ []) as Hne'
          by (apply Forall_app in Hlo as [_ [?%hextet_nonempty _]%Forall_cons];
              done).
        apply is_empty_false in Hne, Hne'. rewrite Hne, Hne'.
        split_and!; try done; try (intros ->; simpl in *; done);
          try constructor; simpl in *; unfold str, char in *; try done; try lia.
Qed.

End ipv6_plan.


(** ** Colon hexadecimal: the text *)

Section ipv6_text.

Import Ipaddress.

Lemma hex_char_is_hex d : d < 16 → is_hex_digit (hex_char d) = true.
Proof.
  intros Hd. unfold hex_char, is_hex_digit, is_ascii_digit.
  destruct (N.ltb_spec d 10).
  - assert ((48 <=? 48 + d) = true) as -> by (apply N.leb_le; lia).
    assert ((48 + d <=? 57) = true) as -> by (apply N.leb_le; lia). done.
  - assert ((97 <=? 87 + d) = true) as -> by (apply N.leb_le; lia).
    assert ((87 + d <=? 102) = true) as -> by (apply N.leb_le; lia).
    by rewrite !orb_true_r.
Qed.

Lemma hex_go_hex fuel n acc :
  Forall (λ c, is_hex_digit c = true) acc →
  Forall (λ c, is_hex_digit c = true) (hex_go fuel n acc).
Proof.
  revert n acc. induction fuel as [|fuel IH]; intros n acc Hacc; simpl.
  - constructor; [|done]. apply hex_char_is_hex. by apply N.mod_lt.
  - assert (Forall (λ c, is_hex_digit c = true) (hex_char (n mod 16) :: acc))
      by (constructor; [apply hex_char_is_hex; by apply N.mod_lt | done]).
    destruct (n / 16 =? 0); auto.
Qed.

Lemma hex_go_length fuel n acc k :
  n < 16 ^ N.of_nat (S k) →
  (length acc < length (hex_go fuel n acc) ≤ S k + length acc)%nat.
Proof.
  revert n acc k. induction fuel as [|fuel IH]; intros n acc k Hn; simpl.
  - lia.
  - destruct (N.eqb_spec (n / 16) 0) as [Hz|Hz]; simpl; [lia|].
    destruct k as [|k].
    + exfalso. apply Hz. apply N.div_small. simpl in Hn. lia.
    + rewrite Nat2N.inj_succ, N.pow_succ_r' in Hn.
      assert (n / 16 < 16 ^ N.of_nat (S k)) as Hn'
        by (apply N.Div0.div_lt_upper_bound; lia).
      specialize (IH (n / 16) (hex_char (n mod 16) :: acc) k Hn').
      simpl in IH. lia.
Qed.

Lemma format_x_hextet n : n < 65536 → hextet (format_x n).
Proof.
  intros Hn. unfold format_x, hextet.
  pose proof (hex_go_length (N.to_nat (N.log2 n)) n [] 3 Hn) as Hlen.
  simpl in Hlen. split_and!.
  - intros Heq. rewrite Heq in Hlen. simpl in Hlen. lia.
  - lia.
  - apply hex_go_hex. constructor.
Qed.

Lemma land_65535 n : N.land n 65535 < 65536.
Proof.
  change 65535 with (N.ones 16). rewrite N.land_ones.
  apply N.mod_lt. done.
Qed.

(** The characters of the groups. *)
Lemma hextet_chars h (c : char) : hextet h → is_hex_digit c = false → c ∉ h.
Proof.
  intros (_ & _ & Hh) Hc Hin. rewrite Forall_forall in Hh.
  specialize (Hh c Hin). congruence.
Qed.

Lemma wf_ipv4_chars v4 :
  wf_ipv4 v4 → Forall (λ c, is_ascii_digit c = true ∨ c = DOT) v4.
Proof.
  intros (octets & _ & Hoct & ->).
  apply Forall_join; [constructor; [by right | constructor]|].
  eapply Forall_impl; [exact Hoct|]. intros o (_ & Ho & _).
  eapply Forall_impl; [exact Ho|]. auto.
Qed.

Lemma wf_ipv4_no_colon v4 : wf_ipv4 v4 → COLON ∉ v4.
Proof.
  intros H%wf_ipv4_chars Hin. rewrite Forall_forall in H.
  destruct (H COLON Hin) as [?|?]; done.
Qed.

Lemma wf_ipv4_has_dot v4 : wf_ipv4 v4 → DOT ∈ v4.
Proof.
  intros (octets & Hlen & _ & ->).
  destruct octets as [|o1 [|o2 octets]]; simpl in Hlen; try lia.
  rewrite join_cons. set_solver.
Qed.

Lemma wf_ipv4_nonempty v4 : wf_ipv4 v4 → v4 ≠ [].
Proof. intros H%wf_ipv4_has_dot ->. by apply elem_of_nil in H. Qed.

Lemma join_pad sep l : join sep (pad l) = join sep l.
Proof. by destruct l. Qed.

Lemma pad_not_nil l : pad l ≠ [].
Proof. by destruct l. Qed.

Lemma join_padded sep hi lo :
  join sep (pad hi ++ [[]] ++ pad lo)
  = join sep hi ++ (sep ++ sep) ++ join sep lo.
Proof.
  rewrite join_app by (apply pad_not_nil || done).
  rewrite join_pad.
  assert (join sep ([[]] ++ pad lo) = sep ++ join sep lo) as ->.
  { simpl. destruct lo as [|x lo]; simpl; [by rewrite app_nil_r|done]. }
  by rewrite <- !app_assoc.
Qed.

Lemma length_pad l : (length (pad l) = Nat.max 1 (length l))%nat.
Proof. destruct l; simpl; lia. Qed.

Lemma join_nonempty sep l :
  sep ≠ [] → (2 ≤ length l)%nat → join sep l ≠ [].
Proof.
  intros Hsep Hl. destruct l as [|x [|y l]]; simpl in Hl; try lia.
  rewrite join_cons. intros H.
  apply app_eq_nil in H as [_ H]. by apply app_eq_nil in H as [? _].
Qed.

Lemma suffix_hextets_hextet ip : Forall hextet (suffix_hextets ip).
Proof.
  constructor; [apply format_x_hextet, land_65535|].
  constructor; [apply format_x_hextet, land_65535 | constructor].
Qed.

Lemma v6_unfold s :
  v6_ip_int_from_string s
  = match s with
    | [] => Raise AddressValueError
    | _ :: _ =>
        parts ← split s [COLON];
        if (length parts <? 3)%nat then Raise AddressValueError
        else
          parts ← (if in_str DOT (List.last parts [])
                   then
                     ipv4_int ← reraise_as_AddressValueError
                                  (IPv4Address (List.last parts []));
                     Ret (removelast parts ++ suffix_hextets ipv4_int)
                   else Ret parts);
          if (9 <? length parts)%nat then Raise AddressValueError
          else hextets_value parts
    end.
Proof. by destruct s. Qed.

Lemma v6_succeeds_iff s :
  succeeds (v6_ip_int_from_string s)
  ↔ s ≠ []
    ∧ ∃ parts0 parts,
        split s [COLON] = Ret parts0
        ∧ (3 ≤ length parts0)%nat
        ∧ (if in_str DOT (List.last parts0 [])
           then ∃ ip, IPv4Address (List.last parts0 []) = Ret ip
                      ∧ parts = removelast parts0 ++ suffix_hextets ip
           else parts = parts0)
        ∧ (length parts ≤ 9)%nat
        ∧ succeeds (hextets_value parts).
Proof.
  rewrite v6_unfold. unfold str, char in *.
  destruct s as [|c s].
  { split; [by intros []%succeeds_Raise | by intros [[] _]]. }
  rewrite succeeds_bind. split.
  - intros (parts0 & Hsplit & H). split; [done|].
    destruct (Nat.ltb_spec (length parts0) 3) as [Hl|Hl];
      [by apply succeeds_Raise in H|].
    apply succeeds_bind in H as (parts & Hparts & H).
    destruct (Nat.ltb_spec 9 (length parts)) as [Hl9|Hl9];
      [by apply succeeds_Raise in H|].
    exists parts0, parts. split_and!; try done.
    destruct (in_str DOT (List.last parts0 [])) eqn:Hdot;
      rewrite ?Hdot in Hparts |- *.
    + assert (succeeds (IPv4Address (List.last parts0 []))) as [ip Hip].
      { destruct (IPv4Address (List.last parts0 [])) as [ip|e];
          [by exists ip|].
        simpl in Hparts. by destruct (is_ValueError e). }
      rewrite Hip in Hparts. simpl in Hparts. injection Hparts as <-.
      by exists ip.
    + by injection Hparts as <-.
  - intros (_ & parts0 & parts & Hsplit & Hl & Hparts & Hl9 & H).
    exists parts0. split; [done|].
    destruct (Nat.ltb_spec (length parts0) 3) as [Hl'|_]; [lia|].
    apply succeeds_bind. exists parts. split.
    + destruct (in_str DOT (List.last parts0 [])) eqn:Hdot;
        rewrite ?Hdot in Hparts |- *.
      * destruct Hparts as (ip & -> & ->). done.
      * by rewrite Hparts.
    + destruct (Nat.ltb_spec 9 (length parts)) as [Hl9'|_]; [lia|]. done.
Qed.

Lemma snoc_not_nil {A} (l : list A) x : l ++ [x] ≠ [].
Proof. destruct l; discriminate. Qed.

Lemma dotted_tail (init hi lo : list str) (h1 h2 : str) :
  h1 ≠ [] → h2 ≠ [] →
  init ++ [h1; h2] = pad hi ++ [[]] ++ pad lo →
  ∃ lo', lo = lo' ++ [h1; h2] ∧ init = pad hi ++ [[]] ++ lo'.
Proof.
  intros H1 H2 Heq.
  change (init ++ [h1; h2]) with (init ++ [h1] ++ [h2]) in Heq.
  destruct lo as [|y lo1 _] using rev_ind.
  { change (pad []) with [[] : str] in Heq. rewrite !app_assoc in Heq.
    apply app_inj_tail in Heq as [_ ?]. done. }
  rewrite (pad_nonempty (lo1 ++ [y])) in Heq by apply snoc_not_nil.
  destruct lo1 as [|x lo' _] using rev_ind.
  { rewrite app_nil_l, !app_assoc in Heq.
    apply app_inj_tail in Heq as [Heq _].
    apply app_inj_tail in Heq as [_ ?]. done. }
  rewrite !app_assoc in Heq.
  apply app_inj_tail in Heq as [Heq <-].
  apply app_inj_tail in Heq as [-> <-].
  exists lo'. by rewrite <- !app_assoc.
Qed.

Lemma hextet_parts_length parts :
  hextet_parts parts → (3 ≤ length parts ≤ 9)%nat.
Proof.
  intros [[-> _] | (hi & lo & _ & _ & Hsum & ->)]; [lia|].
  rewrite !length_app, !length_pad. simpl. lia.
Qed.

Lemma v6_wf s : succeeds (v6_ip_int_from_string s) → wf_ipv6_address s.
Proof.
  intros (Hne & parts0 & parts & Hsplit & Hl3 & Hparts & Hl9 & Hval)%v6_succeeds_iff.
  apply split_char_inv in Hsplit as (Hp0 & -> & Hcolon).
  unfold str, char in *.
  destruct (in_str DOT (List.last parts0 [])) eqn:Hdot.
  - destruct Hparts as (ip & Hip & ->).
    assert (wf_ipv4 (List.last parts0 [])) as Hv4.
    { apply IPv4Address_succeeds. by exists ip. }
    pose proof (app_removelast_last [] Hp0) as Hparts0.
    revert Hparts0 Hv4 Hval. clear Hip Hdot Hl9.
    generalize (List.last parts0 []) (removelast parts0).
    intros v4 init Hparts0 Hv4 Hval. subst parts0.
    pose proof (suffix_hextets_hextet ip) as Hsuf.
    apply hextets_value_succeeds in Hval;
      [|rewrite length_app; simpl; lia].
    destruct Hval as [[Hlen Hall] | (hi & lo & Hhi & Hlo & Hsum & Heq)].
    + left. exists (init ++ [v4]). split; [|done].
      rewrite length_app in Hlen. simpl in Hlen.
      replace 8%nat with (length init + 2)%nat by lia.
      apply groups_dotted; [|done]. by apply Forall_app in Hall as [? _].
    + right.
      apply Forall_cons in Hsuf as [Hh1 [Hh2 _]%Forall_cons].
      apply dotted_tail in Heq as (lo' & -> & ->);
        [|by apply hextet_nonempty..].
      exists hi, (lo' ++ [v4]), (length lo' + 2)%nat.
      split_and!.
      * done.
      * apply groups_dotted; [|done]. by apply Forall_app in Hlo as [? _].
      * rewrite length_app in Hsum. simpl in Hsum. lia.
      * rewrite <- (join_padded [COLON]).
        rewrite (pad_nonempty (lo' ++ [v4])) by apply snoc_not_nil.
        by rewrite <- !app_assoc.
  - subst parts.
    apply hextets_value_succeeds in Hval; [|unfold str, char in *; lia].
    destruct Hval as [[Hlen Hall] | (hi & lo & Hhi & Hlo & Hsum & Heq)].
    + left. exists parts0. split; [|done]. rewrite <- Hlen.
      by apply groups_hextets.
    + right. exists hi, lo, (length lo).
      split_and!; [done | by apply groups_hextets | done |].
      rewrite Heq. apply (join_padded [COLON]).
Qed.

End ipv6_text.


(** ** The validator's contract *)

Section validator.

Import Ipaddress.

Lemma hextet_no_colon h : hextet h → COLON ∉ h.
Proof. intros H. by apply hextet_chars. Qed.

Lemma hextet_no_dot h : hextet h → in_str DOT h = false.
Proof. intros H. apply in_str_false. by apply hextet_chars. Qed.

Lemma Forall_hextet_no_colon hs :
  Forall hextet hs → Forall (λ t : str, COLON ∉ t) hs.
Proof. intros H. eapply Forall_impl; [exact H|]. apply hextet_no_colon. Qed.

Lemma pad_no_colon hs :
  Forall hextet hs → Forall (λ t : str, COLON ∉ t) (pad hs).
Proof.
  destruct hs; simpl; [|apply Forall_hextet_no_colon].
  intros _. constructor; [apply not_elem_of_nil | constructor].
Qed.

Lemma last_hextets_no_dot pre hs :
  Forall hextet hs → in_str DOT (List.last (pre ++ pad hs) []) = false.
Proof.
  intros Hhs. destruct hs as [|x hs _] using rev_ind.
  - simpl. by rewrite last_last.
  - rewrite pad_nonempty by apply snoc_not_nil.
    rewrite app_assoc, last_last.
    apply Forall_app in Hhs as [_ [? _]%Forall_cons]. by apply hextet_no_dot.
Qed.

Lemma v6_of_parts parts0 parts :
  Forall (λ t : str, COLON ∉ t) parts0 →
  (3 ≤ length parts0)%nat →
  (if in_str DOT (List.last parts0 [])
   then ∃ ip, IPv4Address (List.last parts0 []) = Ret ip
              ∧ parts = removelast parts0 ++ suffix_hextets ip
   else parts = parts0) →
  hextet_parts parts →
  succeeds (v6_ip_int_from_string (join [COLON] parts0)).
Proof.
  intros Hcolon Hl3 Hparts Hshape. apply v6_succeeds_iff.
  pose proof (hextet_parts_length _ Hshape) as Hlen.
  split; [apply join_nonempty; [done | lia]|].
  exists parts0, parts. split_and!; try done; try lia.
  - apply split_join_char; [|done]. intros ->. simpl in Hl3. lia.
  - apply hextets_value_succeeds; [lia | done].
Qed.

Lemma dotted_suffix_parts pre hs v4 :
  wf_ipv4 v4 →
  ∃ ip, in_str DOT (List.last (pre ++ hs ++ [v4]) []) = true
        ∧ IPv4Address (List.last (pre ++ hs ++ [v4]) []) = Ret ip
        ∧ removelast (pre ++ hs ++ [v4]) = pre ++ hs.
Proof.
  intros Hv4. rewrite !app_assoc, last_last, removelast_last.
  destruct (proj2 (IPv4Address_succeeds v4) Hv4) as [ip Hip].
  exists ip. split_and!; try done.
  apply in_str_true. by apply wf_ipv4_has_dot.
Qed.

Lemma wf_v6 s : wf_ipv6_address s → succeeds (v6_ip_int_from_string s).
Proof.
  intros [(gs & Hgs & ->) | (hi & lo & n & Hhi & Hlo & Hsum & ->)].
  - inversion Hgs as [hs Hhs Heq Hlen | hs v4 Hhs Hv4 Heq Hlen]; subst.
    + apply (v6_of_parts gs gs).
      * by apply Forall_hextet_no_colon.
      * lia.
      * pose proof (last_hextets_no_dot [] gs Hhs) as Hdot.
        rewrite pad_nonempty in Hdot by (intros ->; simpl in *; lia).
        simpl in Hdot. by rewrite Hdot.
      * by left.
    + destruct (dotted_suffix_parts [] hs v4 Hv4) as (ip & Hdot & Hip & Hrem).
      simpl in Hdot, Hip, Hrem.
      apply (v6_of_parts (hs ++ [v4]) (hs ++ suffix_hextets ip)).
      * apply Forall_app. split; [by apply Forall_hextet_no_colon|].
        constructor; [by apply wf_ipv4_no_colon | constructor].
      * rewrite length_app. simpl. lia.
      * rewrite Hdot. exists ip. by rewrite Hrem.
      * left. split; [rewrite length_app; simpl; lia|].
        apply Forall_app. split; [done | apply suffix_hextets_hextet].
  - rewrite <- (join_padded [COLON]).
    inversion Hlo as [hs Hhs Heq Hlen | hs v4 Hhs Hv4 Heq Hlen]; subst.
    + apply (v6_of_parts _ (pad hi ++ [[]] ++ pad lo)).
      * apply Forall_app. split; [by apply pad_no_colon|].
        apply Forall_app. split; [|by apply pad_no_colon].
        constructor; [apply not_elem_of_nil | constructor].
      * rewrite !length_app, !length_pad. simpl. lia.
      * rewrite app_assoc, last_hextets_no_dot by done. done.
      * right. exists hi, lo. done.
    + rewrite (pad_nonempty (hs ++ [v4])) by apply snoc_not_nil.
      destruct (dotted_suffix_parts (pad hi ++ [[]]) hs v4 Hv4)
        as (ip & Hdot & Hip & Hrem).
      rewrite <- !app_assoc in Hdot, Hip, Hrem.
      apply (v6_of_parts _ (pad hi ++ [[]] ++ pad (hs ++ suffix_hextets ip))).
      * apply Forall_app. split; [by apply pad_no_colon|].
        apply Forall_app. split.
        { constructor; [apply not_elem_of_nil | constructor]. }
        apply Forall_app. split; [by apply Forall_hextet_no_colon|].
        constructor; [by apply wf_ipv4_no_colon | constructor].
      * rewrite !length_app, !length_pad. simpl. lia.
      * unfold str, char in *. rewrite Hdot. exists ip. split; [done|].
        rewrite Hrem.
        rewrite (pad_nonempty (hs ++ suffix_hextets ip))
          by (by destruct hs).
        by rewrite <- !app_assoc.
      * right. exists hi, (hs ++ suffix_hextets ip). split_and!; try done.
        -- apply Forall_app. split; [done | apply suffix_hextets_hextet].
        -- rewrite length_app. simpl. lia.
Qed.

Lemma v6_ip_int_from_string_succeeds s :
  succeeds (v6_ip_int_from_string s) ↔ wf_ipv6_address s.
Proof. split; [apply v6_wf | apply wf_v6]. Qed.

Lemma partition_spec c s :
  match partition c s with
  | (a, None) => a = s ∧ c ∉ s
  | (a, Some z) => s = a ++ [c] ++ z ∧ c ∉ a
  end.
Proof.
  induction s as [|x s IH]; simpl.
  - split; [done | apply not_elem_of_nil].
  - destruct (N.eqb_spec x c) as [->|Hne].
    + split; [done | apply not_elem_of_nil].
    + destruct (partition c s) as [a [z|]].
      * destruct IH as [-> Ha]. split; [done|].
        intros [?|?]%elem_of_cons; done.
      * destruct IH as [-> Ha]. split; [done|].
        intros [?|?]%elem_of_cons; done.
Qed.

Lemma groups_chars gs n : groups gs n → Forall (Forall address_char) gs.
Proof.
  assert (∀ hs, Forall hextet hs → Forall (Forall address_char) hs) as Hh.
  { intros hs Hhs. eapply Forall_impl; [exact Hhs|]. intros h (_ & _ & Hh).
    eapply Forall_impl; [exact Hh|]. intros c Hc. by left. }
  intros [hs Hhs | hs v4 Hhs Hv4]; [by apply Hh|].
  apply Forall_app. split; [by apply Hh|]. constructor; [|constructor].
  eapply Forall_impl; [by apply wf_ipv4_chars|].
  intros c [Hc|Hc]; [left | right; by right].
  unfold is_hex_digit. by rewrite Hc.
Qed.

Lemma wf_ipv6_address_chars s : wf_ipv6_address s → Forall address_char s.
Proof.
  assert (Forall address_char [COLON]) as Hc
    by (constructor; [by right; left | constructor]).
  intros [(gs & Hgs & ->) | (hi & lo & n & Hhi & Hlo & Hsum & ->)].
  - apply Forall_join; [done | by eapply groups_chars].
  - apply Forall_app. split.
    { apply Forall_join; [done|]. by eapply groups_chars, groups_hextets. }
    apply Forall_app. split.
    { constructor; [by right; left | done]. }
    apply Forall_join; [done | by eapply groups_chars].
Qed.

Lemma address_char_not s (c : char) :
  Forall address_char s → ¬ address_char c → c ∉ s.
Proof.
  intros Hs Hc Hin. rewrite Forall_forall in Hs. by apply Hc, Hs.
Qed.

Lemma slash_no_address_char : ¬ address_char SLASH.
Proof. by intros [?|[?|?]]. Qed.

Lemma percent_no_address_char : ¬ address_char PERCENT.
Proof. by intros [?|[?|?]]. Qed.

Lemma IPv6Address_succeeds s : succeeds (IPv6Address s) ↔ wf_ipv6 s.
Proof.
  unfold IPv6Address, split_scope_id, wf_ipv6.
  pose proof (partition_spec PERCENT s) as Hpart. split.
  - destruct (in_str SLASH s) eqn:Hslash; [by intros []%succeeds_Raise|].
    apply in_str_false in Hslash.
    intros ([addr scope] & Hscope & H)%succeeds_bind.
    apply succeeds_bind in H as (ip & Hip & _).
    assert (wf_ipv6_address addr) as Hwf
      by (apply v6_ip_int_from_string_succeeds; by exists ip).
    destruct (partition PERCENT s) as [a [z|]].
    + destruct Hpart as [-> Ha].
      destruct z as [|c z]; [done|].
      destruct (in_str PERCENT (c :: z)) eqn:Hz; [done|].
      injection Hscope as <- <-. right. exists a, (c :: z).
      split_and!; try done. apply in_str_false. set_solver.
    + destruct Hpart as [-> _]. injection Hscope as <- <-. by left.
  - intros [Hwf | (a & zone & -> & Hwf & Hzone & Hpct & Hslash)].
    + pose proof (wf_ipv6_address_chars _ Hwf) as Hchars.
      assert (in_str SLASH s = false) as ->.
      { apply in_str_false.
        apply address_char_not; [done | apply slash_no_address_char]. }
      destruct (partition PERCENT s) as [a [z|]].
      * destruct Hpart as [-> _]. exfalso.
        apply (address_char_not _ PERCENT Hchars percent_no_address_char).
        set_solver.
      * destruct Hpart as [-> _]. simpl.
        apply succeeds_bind.
        destruct (proj2 (v6_ip_int_from_string_succeeds s) Hwf) as [ip Hip].
        exists ip. split; [done | apply succeeds_Ret].
    + pose proof (wf_ipv6_address_chars _ Hwf) as Hchars.
      assert (in_str SLASH (a ++ [PERCENT] ++ zone) = false) as ->.
      { apply in_str_false. apply in_str_false in Hslash.
        intros [Hin|[Hin|Hin]%elem_of_app]%elem_of_app.
        - by apply (address_char_not _ SLASH Hchars slash_no_address_char).
        - by apply list_elem_of_singleton in Hin.
        - done. }
      assert (partition PERCENT (a ++ [PERCENT] ++ zone) = (a, Some zone))
        as Hp.
      { assert (PERCENT ∉ a) as Ha
          by (apply address_char_not; [done | apply percent_no_address_char]).
        clear -Ha. induction a as [|x a IH]; simpl; [done|].
        destruct (N.eqb_spec x PERCENT) as [->|Hne]; [set_solver|].
        simpl in IH. rewrite IH; [done | set_solver]. }
      rewrite Hp. destruct zone as [|c z]; [done|]. rewrite Hpct. simpl.
      apply succeeds_bind.
      destruct (proj2 (v6_ip_int_from_string_succeeds a) Hwf) as [ip Hip].
      exists ip. split; [done | apply succeeds_Ret].
Qed.

Lemma ip_address_succeeds s :
  succeeds (ip_address s) ↔ wf_ipv4 s ∨ wf_ipv6 s.
Proof.
  rewrite <- IPv4Address_succeeds, <- IPv6Address_succeeds.
  unfold ip_address. pose proof (IPv4Address_raises s) as H4.
  destruct (IPv4Address s) as [ip|e4].
  - split; [left | intros _]; apply succeeds_Ret.
  - rewrite (H4 e4 eq_refl).
    pose proof (IPv6Address_raises s) as H6.
    destruct (IPv6Address s) as [[ip scope]|e6].
    + split; [right | intros _]; apply succeeds_Ret.
    + rewrite (H6 e6 eq_refl).
      split; [by intros []%succeeds_Raise|].
      by intros [[]%succeeds_Raise | []%succeeds_Raise].
Qed.

Lemma valid_ip_true s : valid_ip s = true ↔ wf_ipv4 s ∨ wf_ipv6 s.
Proof.
  rewrite <- ip_address_succeeds. unfold valid_ip.
  destruct (ip_address s) as [a|e].
  - split; [intros _; apply succeeds_Ret | done].
  - split; [done | by intros []%succeeds_Raise].
Qed.

Lemma not_wf_empty : ¬ (wf_ipv4 [] ∨ wf_ipv6 []).
Proof. rewrite <- valid_ip_true. done. Qed.

Lemma not_wf_slash s : SLASH ∈ s → ¬ (wf_ipv4 s ∨ wf_ipv6 s).
Proof.
  intros Hs%in_str_true. rewrite <- valid_ip_true.
  unfold valid_ip, ip_address, IPv4Address, IPv6Address. by rewrite Hs.
Qed.

(** C9. For every string the validator returns a boolean and raises
    nothing; the boolean is [true] exactly when the string is a
    well-formed IPv4 address in dotted decimal or a well-formed IPv6
    address in colon hexadecimal.  In particular the empty string and
    every string with a slash, hence every CIDR block, give [false]. *)
Theorem validator_contract (s : str) :
  ∃ b : bool,
    is_valid_ip s = Ret b
    ∧ (b = true ↔ wf_ipv4 s ∨ wf_ipv6 s)
    ∧ (s = [] → b = false)
    ∧ (SLASH ∈ s → b = false).
Proof.
  exists (valid_ip s). split; [apply is_valid_ip_total|].
  split; [apply valid_ip_true|]. split.
  - intros ->. done.
  - intros Hs. apply not_true_is_false. rewrite valid_ip_true.
    by apply not_wf_slash.
Qed.

(** What the validator answers on texts of each kind. *)
Example validator_accepts :
  Forall (λ s, is_valid_ip (lit s) = Ret true)
    ["192.168.0.1"; "9.9.9.9"; "0.0.0.0"; "255.255.255.255";
     "::"; "::1"; "2001:db8::1"; "1:2:3:4:5:6:7:8"; "::ffff:1.2.3.4";
     "fe80::1%eth0"]%string.
Proof. repeat constructor. Qed.

Example validator_rejects :
  Forall (λ s, is_valid_ip (lit s) = Ret false)
    [""; "example.com"; "localhost"; "10.0.0.0/8"; "2001:db8::/32";
     "1.2.3"; "1.2.3.4.5"; "1..3.4"; "01.2.3.4"; "1.2.3.256"; "1.2.3.4 ";
     "1:2:3:4:5:6:7:8:9"; "1::2::3"; "12345::"; "g::1"; "abc"]%string.
Proof. repeat constructor. Qed.

End validator.


(** ** Delivery and the scenarios of the specification *)

Section delivery.









(** The scenarios of the specification. *)

(** Three addresses, one of them revoked together with an address that
    is not on the list: the updated list holds the other two, sorted, and
    the ledger gets one row that counts one removal. *)
Example scenario_one_of_three :
  let '(i, w) := scenario fresh_db true in
  ∃ w', interact i w = (Ret tt, w')
        ∧ session_state w' !! "updated_content_txt"
          = Some (VStr (lit "1.1.1.1" ++ [LF] ++ lit "3.3.3.3"))
        ∧ ips_revoked <$> rows_of (db w') = [1%Z]
        ∧ id <$> rows_of (db w') = [1%Z].
Proof.
  simpl. eexists. split; [vm_compute; reflexivity|].
  split; [vm_compute; reflexivity|]. split; reflexivity.
Qed.

(** A request that is no address: the error names it, the ledger stays
    empty and nothing is stored. *)
Example scenario_not_an_address :
  ∃ w', interact (request (lit "abc") true) fresh_world
        = (Raise StopException, w')
        ∧ screen w' = [st_error (validation_message (TEXTS en) [lit "abc"])]
        ∧ rows_of (db w') = []
        ∧ session_state w' !! "updated_content_txt" = None
        ∧ session_state w' !! "pdf_report" = None.
Proof.
  eexists. split; [vm_compute; reflexivity|].
  split; [vm_compute; reflexivity|]. split; [reflexivity|].
  split; reflexivity.
Qed.

(** The one address of the list, requested twice and padded with blanks:
    the request is that one address and the updated list is empty. *)
Example scenario_duplicate_padded :
  clean_set (split_scan 19 [COMMA] (lit " 10.0.0.1 ,10.0.0.1"))
  = {[ lit "10.0.0.1" ]}
  ∧ remove_list_clean (lit " 10.0.0.1 ,10.0.0.1") = {[ lit "10.0.0.1" ]}
  ∧ update_content (lit "10.0.0.1") {[ lit "10.0.0.1" ]} [LF] = Ret [].
Proof. split; [|split]; vm_compute; reflexivity. Qed.

End delivery.


(** ** The outcomes of a run *)

Section outcomes.

Lemma init_db_raises d e :
  init_db d = Raise e →
  e = OperationalError ∧ audit_events d = None ∧ readonly d = true.
Proof.
  unfold init_db. destruct (audit_events d); [done|].
  destruct (readonly d); [|done]. by intros [= <-].
Qed.

Lemma downloads_eq T w :
  downloads T w
  = match session_state w !! "success" with
    | None => (Raise KeyError, w)
    | Some v =>
        if truthy v then
          let w1 := shown w [st_success (t_success T)] in
          match session_state w !! "updated_content_txt",
                session_state w !! "file_name_base" with
          | Some txt, Some base =>
              let name := match base with VStr b => b | _ => [] end in
              let w2 :=
                shown w1 [st_download_button
                            (t_download_label T ++ lit " (.txt)") txt
                            (name ++ lit "_updated.txt") (lit "text/plain")] in
              match session_state w !! "pdf_report" with
              | Some pdf =>
                  (Ret tt,
                   shown w2 [st_download_button (t_pdf_download T) pdf
                               (name ++ lit "_Audit_Report.pdf")
                               (lit "application/pdf")])
              | None => (Raise KeyError, w2)
              end
          | _, _ => (Raise KeyError, w1)
          end
        else (Ret tt, w)
    end.
Proof.
  destruct w as [ss d scr].
  unfold downloads, session_item, mbind, script_bind, show, shown. simpl.
  destruct (ss !! "success") as [v|]; [|reflexivity].
  destruct (truthy v); [|reflexivity]. simpl.
  destruct (ss !! "updated_content_txt") as [txt|]; [|reflexivity].
  simpl. destruct (ss !! "file_name_base") as [base|]; [|reflexivity].
  simpl. destruct (ss !! "pdf_report") as [pdf|]; reflexivity.
Qed.

Lemma audit_history_eq w :
  audit_history w
  = (Ret tt,
     shown w [match load_audit_logs (db w) with
              | Ret [] =>
                  st_write (lit "No se han registrado eventos de auditoría.")
              | Ret ((_ :: _) as audit_df) => st_dataframe audit_df
              | Raise e => st_error_audit_logs e
              end]).
Proof.
  unfold audit_history, try_except, query_db, mbind, script_bind, show, shown.
  by destruct (load_audit_logs (db w)) as [[|r rows]|e].
Qed.

Lemma tail_eq T w :
  (downloads T;; audit_history) w
  = match downloads T w with
    | (Ret _, w') => audit_history w'
    | (Raise e, w') => (Raise e, w')
    end.
Proof. reflexivity. Qed.

(** The section of the downloads and the history leaves the session and
    the ledger as they are. *)
Lemma tail_frame T w :
  session_state ((downloads T;; audit_history) w).2 = session_state w
  ∧ db ((downloads T;; audit_history) w).2 = db w.
Proof.
  rewrite tail_eq, downloads_eq.
  destruct (session_state w !! "success") as [v|]; [|done].
  destruct (truthy v); [|by rewrite audit_history_eq].
  destruct (session_state w !! "updated_content_txt") as [txt|]; [|done].
  destruct (session_state w !! "file_name_base") as [base|]; [|done].
  simpl. destruct (session_state w !! "pdf_report") as [pdf|]; [|done].
  by rewrite audit_history_eq.
Qed.

Lemma tail_result T w :
  ((downloads T;; audit_history) w).1 = Ret tt
  ∨ ((downloads T;; audit_history) w).1 = Raise KeyError.
Proof.
  rewrite tail_eq, downloads_eq.
  destruct (session_state w !! "success") as [v|]; [|auto].
  destruct (truthy v); [|rewrite audit_history_eq; auto].
  destruct (session_state w !! "updated_content_txt") as [txt|]; [|auto].
  destruct (session_state w !! "file_name_base") as [base|]; [|auto].
  simpl. destruct (session_state w !! "pdf_report") as [pdf|]; [|auto].
  rewrite audit_history_eq; auto.
Qed.


(** The download buttons of the section: both when the flag is set, none
    otherwise. *)
Lemma tail_buttons T w :
  ((downloads T;; audit_history) w).1 = Ret tt →
  download_buttons (screen ((downloads T;; audit_history) w).2)
  = download_buttons (screen w)
    ++ match session_state w !! "success",
             session_state w !! "updated_content_txt",
             session_state w !! "file_name_base",
             session_state w !! "pdf_report" with
       | Some v, Some txt, Some base, Some pdf =>
           if truthy v then
             let name := match base with VStr b => b | _ => [] end in
             [st_download_button (t_download_label T ++ lit " (.txt)") txt
                (name ++ lit "_updated.txt") (lit "text/plain");
              st_download_button (t_pdf_download T) pdf
                (name ++ lit "_Audit_Report.pdf") (lit "application/pdf")]
           else []
       | _, _, _, _ => []
       end.
Proof.
  rewrite tail_eq, downloads_eq.
  unfold download_buttons.
  destruct (session_state w !! "success") as [v|]; [|done].
  destruct (truthy v).
  2: { rewrite audit_history_eq. simpl. intros _.
       rewrite filter_app. simpl.
       repeat case_match; by rewrite ?app_nil_r. }
  destruct (session_state w !! "updated_content_txt") as [txt|]; [|done].
  destruct (session_state w !! "file_name_base") as [base|]; [|done].
  simpl. destruct (session_state w !! "pdf_report") as [pdf|]; [|done].
  rewrite audit_history_eq. simpl. intros _.
  rewrite !filter_app. simpl.
  repeat case_match; by rewrite ?app_nil_r, <- ?app_assoc.
Qed.

(** What a run does, by cases: the ledger cannot be set up; the run goes
    through to the downloads and the history without an action; the run
    stops on a validation error; the valid request is confirmed; the
    uploaded file is not UTF-8. *)
Lemma run_outcome i w :
  let T := TEXTS (lang_selection i) in
  let ss1 := with_success_default (session_state w) in
  (init_db (db w) = Raise OperationalError
   ∧ run i w = (Raise OperationalError,
                {| session_state := session_state w; db := db w;
                   screen := [] |}))
  ∨ ∃ db', init_db (db w) = Ret db' ∧
      ((∃ scr,
          download_buttons scr = []
          ∧ (uploaded_file i = None ∨ remove_input i = [] ∨ button i = false)
          ∧ run i w
            = (downloads T;; audit_history)
                {| session_state := ss1; db := db'; screen := scr |})
       ∨ (∃ msg f,
            uploaded_file i = Some f ∧ decodes f ∧ remove_input i ≠ []
            ∧ ¬ valid_request (remove_input i)
            ∧ run i w
              = (Raise StopException,
                 {| session_state :=
                      <["success" := VBool false]> (session_state w);
                    db := db'; screen := [st_error msg] |}))
       ∨ (∃ f original,
            uploaded_file i = Some f ∧ decodes f ∧ button i = true
            ∧ valid_request (remove_input i)
            ∧ get_ips_from_content (file_content f)
                (delimiter_map (delimiter_name i)) = Ret original
            ∧ let remove_set := remove_list_clean (remove_input i) in
              let removals := potential_removals original remove_set in
              run i w
              = match log_audit_event (clock_log i) (lit "admin_default")
                        (file_name f) (size removals) db' with
                | Ret db'' =>
                    (Raise RerunException,
                     {| session_state :=
                          stored ss1 (updated_text original remove_set)
                            (report_of i original remove_set) (base_name f);
                        db := db'';
                        screen := [notice T removals original] |})
                | Raise e =>
                    (Raise e,
                     {| session_state := ss1; db := db';
                        screen := [notice T removals original] |})
                end)
       ∨ (∃ f,
            uploaded_file i = Some f ∧ ¬ decodes f
            ∧ run i w
              = (Raise UnicodeDecodeError,
                 {| session_state := ss1; db := db'; screen := [] |}))).
Proof.
  simpl. destruct (init_db (db w)) as [db'|e] eqn:Hinit.
  2: { left. apply init_db_raises in Hinit as Hi. destruct Hi as (-> & _).
       split; [done|]. unfold run. by apply app_init_fails. }
  right. exists db'. split; [done|].
  destruct (uploaded_file i) as [f|] eqn:Hf.
  2: { left. exists []. split; [done|]. split; [by left|].
       unfold run. erewrite app_eq by done. simpl. by rewrite Hf. }
  destruct (run_with_file i w f db' Hinit Hf) as (original & Hparse & ->).
  destruct (decodes_dec f) as [Hdec|Hnot].
  2: { do 3 right. exists f. split; [done|]. split; [done|].
       by rewrite with_uploaded_file_undecodable. }
  rewrite (with_uploaded_file_eq _ _ _ _ original) by done.
  destruct (remove_input i) as [|c s] eqn:Hin.
  { left. exists []. split; [done|]. split; [by right; left|]. done. }
  simpl.
  destruct (decide (remove_list_clean (c :: s) = ∅)) as [He|Hne].
  { right. left. eexists _, f. split; [done|]. split; [done|].
    split; [done|].
    split; [by intros [? _]|]. by rewrite insert_success_default. }
  destruct (filter _ (elements _)) as [|bad invalid] eqn:Hfilter.
  2: { right. left. eexists _, f. split; [done|]. split; [done|].
       split; [done|].
       split; [|by rewrite insert_success_default].
       intros Hv%valid_request_no_invalid. congruence. }
  assert (valid_request (c :: s)) as Hvalid.
  { split; [done|]. intros x Hx.
    destruct (valid_ip x) eqn:Hvx; [done|].
    assert (x ∈ filter (λ ip, valid_ip ip = false)
                       (elements (remove_list_clean (c :: s)))) as Hmem.
    { apply list_elem_of_filter. by rewrite elem_of_elements. }
    rewrite Hfilter in Hmem. by apply elem_of_nil in Hmem. }
  destruct (button i) eqn:Hb.
  - right. right. left. exists f, original. split; [done|]. split; [done|].
    split; [done|]. split; [done|]. split; [done|].
    rewrite (confirm_action_eq _ _ _ _ original) by done. simpl.
    by destruct (log_audit_event _ _ _ _ db').
  - left. eexists. split; [|split; [by right; right|done]].
    unfold notice, download_buttons. by case_decide.
Qed.

End outcomes.


(** ** The session and the ledger over the runs *)

Section session.

Lemma log_audit_event_Ret now user target count d d' :
  log_audit_event now user target count d = Ret d' →
  ∃ rows e,
    audit_events d = Some rows ∧ readonly d = false
    ∧ audit_events d' = Some (rows ++ [e]) ∧ readonly d' = false
    ∧ timestamp e = isoformat now
    ∧ action e = lit "Access Revocation Audit"
    ∧ user_id e = Some user
    ∧ target_file e = target
    ∧ ips_revoked e = Z.of_nat count
    ∧ (Z.max (max_rowid rows) (sqlite_sequence d) < id e)%Z
    ∧ sqlite_sequence d' = id e.
Proof.
  unfold log_audit_event.
  destruct (audit_events d) as [rows|]; [|done].
  destruct (readonly d); [done|].
  destruct (largest_rowid <=? _)%Z; [done|]. intros [= <-].
  eexists rows, _. simpl. split_and!; try done. simpl. lia.
Qed.



(** The rows of the ledger over one run. *)
Lemma run_rows i w :
  (rows_of (db (run i w).2) = rows_of (db w)
   ∧ (run i w).1 ≠ Raise RerunException)
  ∨ ∃ f original e,
      rows_of (db (run i w).2) = rows_of (db w) ++ [e]
      ∧ (run i w).1 = Raise RerunException
      ∧ uploaded_file i = Some f
      ∧ decodes f
      ∧ button i = true
      ∧ valid_request (remove_input i)
      ∧ get_ips_from_content (file_content f)
          (delimiter_map (delimiter_name i)) = Ret original
      ∧ timestamp e = isoformat (clock_log i)
      ∧ action e = lit "Access Revocation Audit"
      ∧ user_id e = Some (lit "admin_default")
      ∧ target_file e = file_name f
      ∧ ips_revoked e
        = Z.of_nat (size (potential_removals original
                            (remove_list_clean (remove_input i))))
      ∧ Forall (λ r, (id r < id e)%Z) (rows_of (db w)).
Proof.
  destruct (run_outcome i w) as [[_ ->]|(db' & Hinit & Hcases)].
  { left. done. }
  pose proof (init_db_rows _ _ Hinit) as Hrows.
  destruct Hcases
    as [(scr & _ & _ & ->)|[(msg & f & _ & _ & _ & _ & ->)
                            |[Hc|(f & _ & _ & ->)]]].
  4: { left. done. }
  - left. destruct (tail_frame (TEXTS (lang_selection i))
                      {| session_state := with_success_default (session_state w);
                         db := db'; screen := scr |}) as [_ ->].
    split; [exact Hrows|].
    destruct (tail_result (TEXTS (lang_selection i))
                {| session_state := with_success_default (session_state w);
                   db := db'; screen := scr |}) as [-> | ->]; done.
  - left. done.
  - destruct Hc as (f & original & Hf & Hdec & Hb & Hvalid & Hparse & ->).
    destruct (log_audit_event _ _ _ _ db') as [db''|e] eqn:Hlog.
    2: { left. apply log_audit_event_raises in Hlog as ->. done. }
    right. exists f, original.
    apply log_audit_event_Ret in Hlog
      as (rows & e & Hd & _ & Hd' & _ & ? & ? & ? & ? & ? & Hid & _).
    exists e. simpl. unfold rows_of at 1. rewrite Hd'. simpl.
    assert (rows = rows_of (db w)) as ->.
    { rewrite <- Hrows. unfold rows_of. by rewrite Hd. }
    split_and!; try done.
    eapply Forall_impl; [apply max_rowid_bound|]. simpl. intros r Hr. lia.
Qed.

Lemma interact_rerun i w :
  (run i w).1 = Raise RerunException →
  interact i w = run (released i) (run i w).2.
Proof.
  unfold interact. destruct (run i w) as [r w']. simpl. by intros ->.
Qed.

Lemma interact_other i w :
  (run i w).1 ≠ Raise RerunException → interact i w = run i w.
Proof.
  intros H. destruct (run i w) as [r w'] eqn:Hrun.
  by apply interact_not_rerun.
Qed.


Lemma released_rows i w :
  rows_of (db (run (released i) w).2) = rows_of (db w).
Proof.
  destruct (run_rows (released i) w)
    as [[H _]|(f & o & e & _ & _ & _ & _ & Hb & _)];
    [done|]. discriminate Hb.
Qed.

(** The rows of the ledger over one interaction. *)
Lemma interact_rows i w :
  rows_of (db (interact i w).2) = rows_of (db w)
  ∨ ∃ f original e,
      rows_of (db (interact i w).2) = rows_of (db w) ++ [e]
      ∧ uploaded_file i = Some f
      ∧ decodes f
      ∧ button i = true
      ∧ valid_request (remove_input i)
      ∧ get_ips_from_content (file_content f)
          (delimiter_map (delimiter_name i)) = Ret original
      ∧ timestamp e = isoformat (clock_log i)
      ∧ action e = lit "Access Revocation Audit"
      ∧ user_id e = Some (lit "admin_default")
      ∧ target_file e = file_name f
      ∧ ips_revoked e
        = Z.of_nat (size (potential_removals original
                            (remove_list_clean (remove_input i))))
      ∧ Forall (λ r, (id r < id e)%Z) (rows_of (db w)).
Proof.
  destruct (run_rows i w) as [[Hrows Hr]|(f & o & e & Hrows & Hr & H)].
  - left. by rewrite interact_other.
  - right. exists f, o, e. rewrite interact_rerun by done.
    by rewrite released_rows.
Qed.

(** X3. The audit trail is complete and exact: whatever the widgets hold
    and whatever the session and the ledger were, an interaction leaves
    the rows of the ledger as they are or appends exactly one row.  A row
    is appended only for a confirmed request that passed validation on an
    uploaded file that decodes, and it carries the clock reading, the fixed action and user, the name of
    the uploaded file and the number of matched addresses; its id is above
    every earlier id. *)
Theorem interaction_audit_trail (i : run_input) (w : world) :
  rows_of (db (interact i w).2) = rows_of (db w)
  ∨ ∃ f original e,
      rows_of (db (interact i w).2) = rows_of (db w) ++ [e]
      ∧ uploaded_file i = Some f
      ∧ decodes f
      ∧ button i = true
      ∧ valid_request (remove_input i)
      ∧ get_ips_from_content (file_content f)
          (delimiter_map (delimiter_name i)) = Ret original
      ∧ timestamp e = isoformat (clock_log i)
      ∧ action e = lit "Access Revocation Audit"
      ∧ user_id e = Some (lit "admin_default")
      ∧ target_file e = file_name f
      ∧ ips_revoked e
        = Z.of_nat (size (potential_removals original
                            (remove_list_clean (remove_input i))))
      ∧ Forall (λ r, (id r < id e)%Z) (rows_of (db w)).
Proof. apply interact_rows. Qed.

(** X4. The ledger is append-only over a whole session: after any
    sequence of interactions the rows it held at the start are still
    there, unchanged and in front, followed by at most one new row per
    interaction, and the ids of the rows rise strictly if they did at the
    start. *)
Theorem session_ledger_append_only (inputs : list run_input) (w : world) :
  ∃ new,
    rows_of (db (interactions inputs w)) = rows_of (db w) ++ new
    ∧ (length new ≤ length inputs)%nat
    ∧ (StronglySorted (λ a b, (id a < id b)%Z) (rows_of (db w)) →
       StronglySorted (λ a b, (id a < id b)%Z)
                      (rows_of (db (interactions inputs w)))).
Proof.
  revert w. induction inputs as [|i inputs IH]; intros w; simpl.
  { exists []. by rewrite app_nil_r. }
  destruct (IH (interact i w).2) as (new & Hnew & Hlen & Hsorted).
  destruct (interact_rows i w) as [Hrows|(f & o & e & Hrows & H)].
  - rewrite Hrows in *. exists new. split; [done|]. split; [lia|done].
  - rewrite Hrows in *. exists (e :: new).
    rewrite <- app_assoc in Hnew. split; [done|]. split; [simpl; lia|].
    intros Hs. apply Hsorted. apply StronglySorted_app_2.
    + destruct H as (_ & _ & _ & _ & _ & _ & _ & _ & _ & _ & Hid).
      rewrite Forall_forall in Hid.
      intros r e' Hr ->%list_elem_of_singleton. by apply Hid.
    + done.
    + repeat constructor.
Qed.












(** Both failures occur: an upload that is not UTF-8 ends the run with
    [UnicodeDecodeError] before anything is shown, and a ledger whose
    largest row id is used up refuses the row although its file can be
    written. *)
Example upload_not_utf8 :
  let i := {| lang_selection := en; delimiter_name := NewLine;
              uploaded_file := Some {| file_name := lit "list.txt";
                                       file_bytes := [49; 255] |};
              remove_input := lit "1"; button := true;
              clock_report := sample_clock; clock_log := sample_clock |} in
  (interact i fresh_world).1 = Raise UnicodeDecodeError
  ∧ screen (interact i fresh_world).2 = []
  ∧ rows_of (db (interact i fresh_world).2) = [].
Proof. split; [|split]; vm_compute; reflexivity. Qed.

Example ledger_full_refuses :
  log_audit_event sample_clock (lit "admin_default") (lit "list.txt") 1
    {| audit_events := Some []; sqlite_sequence := largest_rowid;
       readonly := false |}
  = Raise OperationalError.
Proof. reflexivity. Qed.

End session.


(** ** The persistent downloads *)

Section persistent.

Lemma with_success_default_other ss (k : string) :
  k ≠ "success" → with_success_default ss !! k = ss !! k.
Proof.
  intros Hk. unfold with_success_default. case_decide; [|done].
  by rewrite lookup_insert_ne.
Qed.

Lemma with_success_default_set ss :
  success_set (with_success_default ss) ↔ success_set ss.
Proof.
  unfold with_success_default, success_set. case_decide as Hs; [|done].
  rewrite Hs. split; intros (v & Hv & Ht); [|done].
  rewrite lookup_insert_eq in Hv. by injection Hv as <-.
Qed.

(** A run that ends normally. *)
Lemma run_Ret i w :
  (run i w).1 = Ret tt →
  let T := TEXTS (lang_selection i) in
  let ss := session_state w in
  session_state (run i w).2 = with_success_default ss
  ∧ rows_of (db (run i w).2) = rows_of (db w)
  ∧ (¬ success_set ss → download_buttons (screen (run i w).2) = [])
  ∧ (success_set ss →
     ∃ txt pdf name,
       ss !! "updated_content_txt" = Some txt
       ∧ ss !! "pdf_report" = Some pdf
       ∧ (∀ b, ss !! "file_name_base" = Some (VStr b) → name = b)
       ∧ download_buttons (screen (run i w).2)
         = [st_download_button (t_download_label T ++ lit " (.txt)") txt
              (name ++ lit "_updated.txt") (lit "text/plain");
            st_download_button (t_pdf_download T) pdf
              (name ++ lit "_Audit_Report.pdf") (lit "application/pdf")]).
Proof.
  intros Hret. simpl.
  destruct (run_outcome i w) as [[_ Hrun]|(db' & Hinit & Hcases)].
  { by rewrite Hrun in Hret. }
  destruct Hcases
    as [(scr & Hscr & _ & Hrun)|[(msg & f & _ & _ & _ & _ & Hrun)
                                 |[Hc|(f & _ & _ & Hrun)]]].
  2: { by rewrite Hrun in Hret. }
  3: { by rewrite Hrun in Hret. }
  2: { destruct Hc as (f & original & _ & _ & _ & _ & _ & Hrun).
       rewrite Hrun in Hret.
       by destruct (log_audit_event _ _ _ _ db'). }
  rewrite Hrun in *.
  set (T := TEXTS (lang_selection i)) in *.
  set (w1 := {| session_state := with_success_default (session_state w);
                db := db'; screen := scr |}) in *.
  destruct (tail_frame T w1) as [Hss Hdb].
  pose proof (tail_buttons T w1 Hret) as Hbuttons.
  rewrite Hss, Hdb. subst w1. simpl.
  split; [reflexivity|]. split; [exact (init_db_rows _ _ Hinit)|].
  simpl in Hbuttons. rewrite Hscr in Hbuttons. simpl in Hbuttons.
  rewrite (with_success_default_other _ "updated_content_txt"),
    (with_success_default_other _ "file_name_base"),
    (with_success_default_other _ "pdf_report") in Hbuttons by done.
  split.
  - intros Hnot. rewrite Hbuttons.
    destruct (with_success_default (session_state w) !! "success")
      as [v|] eqn:Hv; [|done].
    destruct (truthy v) eqn:Ht; [|by repeat case_match].
    destruct Hnot. apply with_success_default_set. by exists v.
  - intros Hset. apply with_success_default_set in Hset as (v & Hv & Ht).
    rewrite Hv, Ht in Hbuttons.
    rewrite tail_eq, downloads_eq in Hret. simpl in Hret.
    rewrite Hv, Ht in Hret.
    rewrite (with_success_default_other _ "updated_content_txt"),
      (with_success_default_other _ "file_name_base") in Hret by done.
    destruct (session_state w !! "updated_content_txt") as [txt|]; [|done].
    destruct (session_state w !! "file_name_base") as [base|]; [|done].
    simpl in Hret.
    rewrite (with_success_default_other _ "pdf_report") in Hret by done.
    destruct (session_state w !! "pdf_report") as [pdf|]; [|done].
    exists txt, pdf, (match base with VStr b => b | _ => [] end).
    split; [done|]. split; [done|]. split; [|done].
    by intros b [= ->].
Qed.

(** X6. The downloads persist: a run that ends normally (nothing
    uploaded, nothing requested, or a valid request not yet confirmed)
    stores nothing and appends no ledger row, and it offers the two
    downloads exactly when the [success] flag of the session is set, with
    the list and the report that the session holds. *)
Theorem normal_run_offers_stored (i : run_input) (w : world) :
  (run i w).1 = Ret tt →
  let T := TEXTS (lang_selection i) in
  let ss := session_state w in
  session_state (run i w).2 = with_success_default ss
  ∧ rows_of (db (run i w).2) = rows_of (db w)
  ∧ (¬ success_set ss → download_buttons (screen (run i w).2) = [])
  ∧ (success_set ss →
     ∃ txt pdf name,
       ss !! "updated_content_txt" = Some txt
       ∧ ss !! "pdf_report" = Some pdf
       ∧ (∀ b, ss !! "file_name_base" = Some (VStr b) → name = b)
       ∧ download_buttons (screen (run i w).2)
         = [st_download_button (t_download_label T ++ lit " (.txt)") txt
              (name ++ lit "_updated.txt") (lit "text/plain");
            st_download_button (t_pdf_download T) pdf
              (name ++ lit "_Audit_Report.pdf") (lit "application/pdf")]).
Proof. apply run_Ret. Qed.

Lemma normal_run_offers_stored_witness :
  let i := request [] false in
  let w := (interact (request (lit "10.0.0.1") true) fresh_world).2 in
  let T := TEXTS (lang_selection i) in
  let ss := session_state w in
  session_state (run i w).2 = with_success_default ss
  ∧ rows_of (db (run i w).2) = rows_of (db w)
  ∧ (¬ success_set ss → download_buttons (screen (run i w).2) = [])
  ∧ (success_set ss →
     ∃ txt pdf name,
       ss !! "updated_content_txt" = Some txt
       ∧ ss !! "pdf_report" = Some pdf
       ∧ (∀ b, ss !! "file_name_base" = Some (VStr b) → name = b)
       ∧ download_buttons (screen (run i w).2)
         = [st_download_button (t_download_label T ++ lit " (.txt)") txt
              (name ++ lit "_updated.txt") (lit "text/plain");
            st_download_button (t_pdf_download T) pdf
              (name ++ lit "_Audit_Report.pdf") (lit "application/pdf")]).
Proof.
  apply (normal_run_offers_stored (request [] false)
           (interact (request (lit "10.0.0.1") true) fresh_world).2).
  vm_compute. reflexivity.
Defined.

(** X7. A validation error withdraws the downloads of an earlier action:
    the run that stops clears the [success] flag and touches nothing else
    in the session and no ledger row, and a following run that ends
    normally offers no download, although the list and the report of the
    earlier action are still stored. *)
Theorem validation_stop_withdraws (i j : run_input) (w : world) :
  (run i w).1 = Raise StopException →
  let w1 := (run i w).2 in
  session_state w1 = <["success" := VBool false]> (session_state w)
  ∧ rows_of (db w1) = rows_of (db w)
  ∧ ((run j w1).1 = Ret tt →
     download_buttons (screen (run j w1).2) = []
     ∧ ∀ k : string, k ≠ "success" →
         session_state (run j w1).2 !! k = session_state w !! k).
Proof.
  intros Hstop. simpl.
  destruct (run_outcome i w) as [[_ Hrun]|(db' & Hinit & Hcases)].
  { by rewrite Hrun in Hstop. }
  destruct Hcases
    as [(scr & _ & _ & Hrun)|[(msg & f & _ & _ & _ & _ & Hrun)
                              |[Hc|(f & _ & _ & Hrun)]]].
  4: { by rewrite Hrun in Hstop. }
  { rewrite Hrun in Hstop.
    by destruct (tail_result (TEXTS (lang_selection i))
                   {| session_state := with_success_default (session_state w);
                      db := db'; screen := scr |}) as [H|H];
      rewrite H in Hstop. }
  2: { destruct Hc as (f & original & _ & _ & _ & _ & _ & Hrun).
       rewrite Hrun in Hstop.
       destruct (log_audit_event _ _ _ _ db') as [?|e] eqn:Hlog; [done|].
       apply log_audit_event_raises in Hlog as ->. done. }
  rewrite Hrun. simpl. split; [reflexivity|].
  split; [exact (init_db_rows _ _ Hinit)|].
  intros Hret.
  destruct (run_Ret j _ Hret) as (Hss & _ & Hnone & _). simpl in *.
  split.
  - apply Hnone. intros (v & Hv & Ht). rewrite lookup_insert_eq in Hv.
    by injection Hv as <-.
  - intros k Hk. rewrite Hss, with_success_default_other by done.
    by rewrite lookup_insert_ne.
Qed.

Lemma validation_stop_withdraws_witness :
  let i := request (lit "abc") false in
  let j := request [] false in
  let w := (interact (request (lit "10.0.0.1") true) fresh_world).2 in
  let w1 := (run i w).2 in
  session_state w1 = <["success" := VBool false]> (session_state w)
  ∧ rows_of (db w1) = rows_of (db w)
  ∧ ((run j w1).1 = Ret tt →
     download_buttons (screen (run j w1).2) = []
     ∧ ∀ k : string, k ≠ "success" →
         session_state (run j w1).2 !! k = session_state w !! k).
Proof.
  apply (validation_stop_withdraws (request (lit "abc") false)
           (request [] false)
           (interact (request (lit "10.0.0.1") true) fresh_world).2).
  vm_compute. reflexivity.
Defined.

End persistent.


(** ** The ledger behind the history *)

Section history.


(** X9. Appending to a ledger that already has rows: every call that
    succeeds adds one row behind the rows that were there, with the fields
    of the call and the fixed action; the new ids rise strictly and lie
    above every id of the table and above the AUTOINCREMENT counter, which
    follows them, so an id is never handed out twice. *)
Theorem ledger_appends_extend (calls : list append_call) (d d' : database) :
  appends calls d = Ret d' →
  ∃ new,
    rows_of d' = rows_of d ++ new
    ∧ Forall2 (λ c e,
                 timestamp e = isoformat (call_now c)
                 ∧ action e = lit "Access Revocation Audit"
                 ∧ user_id e = Some (call_user c)
                 ∧ target_file e = call_target c
                 ∧ ips_revoked e = Z.of_nat (call_count c)) calls new
    ∧ StronglySorted (λ a b, (id a < id b)%Z) new
    ∧ Forall (λ e, (sqlite_sequence d < id e)%Z
                   ∧ Forall (λ r, (id r < id e)%Z) (rows_of d)) new
    ∧ (sqlite_sequence d ≤ sqlite_sequence d')%Z
    ∧ Forall (λ e, (id e ≤ sqlite_sequence d')%Z) new.
Proof.
  revert d. induction calls as [|c calls IH]; intros d; simpl.
  { intros [= <-]. exists []. rewrite app_nil_r.
    split; [done|]. split; [constructor|]. split; [constructor|].
    split; [constructor|]. split; [lia|constructor]. }
  destruct (log_audit_event _ _ _ _ d) as [d1|] eqn:Hlog; [|done]. simpl.
  intros Happ.
  destruct (IH _ Happ) as (new & Hrows & Hfields & Hs & Hb & Hmono & Hseq).
  apply log_audit_event_Ret in Hlog
    as (rows & e & Hd & _ & Hd1 & _ & ? & ? & ? & ? & ? & Hid & Hs1).
  assert (rows_of d = rows) as Hr by (unfold rows_of; by rewrite Hd).
  assert (rows_of d1 = rows ++ [e]) as Hr1 by (unfold rows_of; by rewrite Hd1).
  pose proof (max_rowid_bound rows) as Hmax.
  exists (e :: new). rewrite Hrows, Hr1, Hr, <- app_assoc.
  split; [done|]. split; [by constructor|].
  rewrite Hr1, Hs1 in Hb.
  split; [|split; [|split]].
  - constructor; [done|]. eapply Forall_impl; [exact Hb|].
    intros x [Hx _]. exact Hx.
  - constructor.
    + split; [lia|]. eapply Forall_impl; [exact Hmax|]. simpl. intros; lia.
    + eapply Forall_impl; [exact Hb|]. intros x [Hx1 Hx2]. simpl in *.
      apply Forall_app in Hx2 as [Hx2 _]. split; [lia|done].
  - lia.
  - constructor; [lia|done].
Qed.

Lemma ledger_appends_extend_witness :
  ∃ new,
    rows_of (ledger_after (sample_calls ++ sample_calls))
    = rows_of (ledger_after sample_calls) ++ new
    ∧ Forall2 (λ c e,
                 timestamp e = isoformat (call_now c)
                 ∧ action e = lit "Access Revocation Audit"
                 ∧ user_id e = Some (call_user c)
                 ∧ target_file e = call_target c
                 ∧ ips_revoked e = Z.of_nat (call_count c)) sample_calls new
    ∧ StronglySorted (λ a b, (id a < id b)%Z) new
    ∧ Forall (λ e, (sqlite_sequence (ledger_after sample_calls) < id e)%Z
                   ∧ Forall (λ r, (id r < id e)%Z)
                            (rows_of (ledger_after sample_calls))) new
    ∧ (sqlite_sequence (ledger_after sample_calls)
       ≤ sqlite_sequence (ledger_after (sample_calls ++ sample_calls)))%Z
    ∧ Forall (λ e, (id e ≤ sqlite_sequence
                             (ledger_after (sample_calls ++ sample_calls)))%Z)
             new.
Proof.
  apply (ledger_appends_extend sample_calls (ledger_after sample_calls)
           (ledger_after (sample_calls ++ sample_calls))).
  vm_compute. reflexivity.
Defined.

Lemma lex_Eq c1 c2 : lex c1 c2 = Eq → c1 = Eq ∧ c2 = Eq.
Proof. by destruct c1. Qed.

Lemma datetime_compare_Eq a b : datetime_compare a b = Eq → a = b.
Proof.
  unfold datetime_compare. intros H.
  repeat (apply lex_Eq in H as [?%N.compare_eq H]).
  apply N.compare_eq in H.
  destruct a, b; simpl in *; congruence.
Qed.

(** X10. The timestamps of the ledger sort like the clock: for clock
    readings (years of at most four digits), the text that
    [log_audit_event] stores compares, code point by code point as
    [ORDER BY timestamp] does, exactly as the readings compare in time,
    with or without a fraction of a second; two readings give the same
    text only if they are the same. *)
Theorem isoformat_chronological (a b : datetime) :
  fits_widths a → fits_widths b →
  (str_le (isoformat a) (isoformat b) ↔ datetime_compare a b ≠ Gt)
  ∧ (isoformat a = isoformat b ↔ a = b).
Proof.
  intros Ha Hb. pose proof (isoformat_compare a b Ha Hb) as Hc. split.
  - unfold str_le. rewrite str_leb_compare, Hc.
    by destruct (datetime_compare a b).
  - split; [|by intros ->]. intros Heq.
    apply datetime_compare_Eq. rewrite <- Hc, Heq. apply str_compare_refl.
Qed.

Lemma isoformat_chronological_witness :
  let later := {| year := 2024; month := 3; day := 9; hour := 10;
                  minute := 5; second := 7; microsecond := 1 |} in
  (str_le (isoformat sample_clock) (isoformat later)
   ↔ datetime_compare sample_clock later ≠ Gt)
  ∧ (isoformat sample_clock = isoformat later ↔ sample_clock = later).
Proof.
  apply (isoformat_chronological sample_clock
           {| year := 2024; month := 3; day := 9; hour := 10;
              minute := 5; second := 7; microsecond := 1 |}).
  - unfold fits_widths, sample_clock. simpl. lia.
  - unfold fits_widths. simpl. lia.
Defined.

End history.


(** ** The updated list *)

Section updated.

Lemma get_ips_normalized content delimiter original :
  get_ips_from_content content delimiter = Ret original → normalized original.
Proof.
  unfold get_ips_from_content.
  destruct (if decide (delimiter = [LF]) then _ else _) as [raw|]; [|done].
  intros [= <-]. apply clean_set_normalized.
Qed.

Lemma retained_lines (original remove_set : gset str) :
  normalized original → (∀ x, x ∈ original → no_linebreak x) →
  ∀ x, x ∈ ips_to_keep original remove_set →
       strip x = x ∧ x ≠ [] ∧ no_linebreak x.
Proof.
  intros Hnorm Hlines x Hx. unfold ips_to_keep in Hx.
  assert (x ∈ original) as Ho by set_solver.
  destruct (Hnorm x Ho). auto.
Qed.

Lemma strictly_sorted {A} (R : relation A) (l : list A) :
  StronglySorted R l → NoDup l →
  StronglySorted (λ a b, R a b ∧ a ≠ b) l.
Proof.
  induction 1 as [|x l Hl IH Hx]; intros Hnd; [constructor|].
  apply NoDup_cons in Hnd as [Hnot Hnd]. constructor; [auto|].
  rewrite Forall_forall in *. intros y Hy. split; [auto|].
  by intros ->.
Qed.

(** X11. No revoked address survives: when no address of the file spans
    a line boundary (as for every newline-delimited file), reading the
    updated list back by lines gives exactly the addresses of the file
    that were not revoked; a revoked address is never in it and no other
    address is lost. *)
Theorem updated_list_excludes_revoked (content delimiter : str)
    (remove_set original : gset str) :
  get_ips_from_content content delimiter = Ret original →
  (∀ x, x ∈ original → no_linebreak x) →
  ∃ updated reread,
    update_content content remove_set delimiter = Ret updated
    ∧ get_ips_from_content updated [LF] = Ret reread
    ∧ (∀ x, x ∈ reread ↔ x ∈ original ∧ x ∉ remove_set).
Proof.
  intros Hparse Hlines.
  pose proof (get_ips_normalized _ _ _ Hparse) as Hnorm.
  exists (serialize (ips_to_keep original remove_set)),
         (ips_to_keep original remove_set).
  split; [by apply update_content_serialize|].
  split; [by apply reparse_serialize, retained_lines|].
  intros x. unfold ips_to_keep. set_solver.
Qed.

Lemma updated_list_excludes_revoked_witness :
  ∃ updated reread,
    update_content (file_content scenario_file) {[ lit "2.2.2.2" ]} [LF]
    = Ret updated
    ∧ get_ips_from_content updated [LF] = Ret reread
    ∧ (∀ x, x ∈ reread
            ↔ x ∈ ({[ lit "1.1.1.1"; lit "2.2.2.2"; lit "3.3.3.3" ]}
                     : gset str)
              ∧ x ∉ ({[ lit "2.2.2.2" ]} : gset str)).
Proof.
  apply (updated_list_excludes_revoked (file_content scenario_file) [LF]
           {[ lit "2.2.2.2" ]}
           {[ lit "1.1.1.1"; lit "2.2.2.2"; lit "3.3.3.3" ]}).
  - vm_compute. reflexivity.
  - intros x Hx.
    assert (x ∈ [lit "1.1.1.1"; lit "2.2.2.2"; lit "3.3.3.3"]) as Hl
      by set_solver.
    repeat (apply elem_of_cons in Hl as [->|Hl];
            [apply (bool_decide_unpack _); vm_compute; reflexivity|]).
    by apply elem_of_nil in Hl.
Defined.

(** X12. Revocations compose: updating the updated list of a first
    revocation with a second set gives the text that one update of the
    file with both sets gives; in particular a second update with the same
    set, or with no address at all, gives the updated list back. *)
Theorem update_content_composes (content delimiter : str)
    (first second original : gset str) :
  get_ips_from_content content delimiter = Ret original →
  (∀ x, x ∈ original → no_linebreak x) →
  ∃ updated,
    update_content content first delimiter = Ret updated
    ∧ update_content updated second [LF]
      = update_content content (first ∪ second) delimiter
    ∧ update_content updated first [LF] = Ret updated
    ∧ update_content updated ∅ [LF] = Ret updated.
Proof.
  intros Hparse Hlines.
  pose proof (get_ips_normalized _ _ _ Hparse) as Hnorm.
  pose proof (reparse_serialize _ (retained_lines original first Hnorm Hlines))
    as Hre.
  exists (serialize (ips_to_keep original first)).
  rewrite !(update_content_serialize _ _ _ _ Hparse).
  rewrite !(update_content_serialize _ _ _ _ Hre).
  split; [done|]. unfold ips_to_keep.
  split_and!; do 2 f_equal; set_solver.
Qed.

Lemma update_content_composes_witness :
  ∃ updated,
    update_content (file_content scenario_file) {[ lit "2.2.2.2" ]} [LF]
    = Ret updated
    ∧ update_content updated {[ lit "3.3.3.3" ]} [LF]
      = update_content (file_content scenario_file)
          ({[ lit "2.2.2.2" ]} ∪ {[ lit "3.3.3.3" ]}) [LF]
    ∧ update_content updated {[ lit "2.2.2.2" ]} [LF] = Ret updated
    ∧ update_content updated ∅ [LF] = Ret updated.
Proof.
  apply (update_content_composes (file_content scenario_file) [LF]
           {[ lit "2.2.2.2" ]} {[ lit "3.3.3.3" ]}
           (clean_set (splitlines (file_content scenario_file)))).
  - reflexivity.
  - apply get_ips_newline_no_linebreak.
Defined.

(** X13. The updated list is canonical: when no address of the file spans
    a line boundary, its lines are the retained addresses, one per line,
    in strictly rising order of their code points; no line is empty and
    no address appears twice. *)
Theorem updated_list_sorted (content delimiter : str)
    (remove_set original : gset str) :
  get_ips_from_content content delimiter = Ret original →
  (∀ x, x ∈ original → no_linebreak x) →
  ∃ updated,
    update_content content remove_set delimiter = Ret updated
    ∧ StronglySorted (λ a b, str_le a b ∧ a ≠ b) (splitlines updated)
    ∧ (∀ x, x ∈ splitlines updated ↔ x ∈ original ∧ x ∉ remove_set)
    ∧ length (splitlines updated) = size (original ∖ remove_set).
Proof.
  intros Hparse Hlines.
  pose proof (get_ips_normalized _ _ _ Hparse) as Hnorm.
  pose proof (retained_lines original remove_set Hnorm Hlines) as Hkeep.
  exists (serialize (ips_to_keep original remove_set)).
  split; [by apply update_content_serialize|].
  unfold serialize. rewrite splitlines_join.
  2: { apply Forall_forall. intros x Hx%elem_of_sorted_elements.
       destruct (Hkeep x Hx) as (_ & ? & ?). done. }
  split; [|split].
  - apply strictly_sorted; [|apply NoDup_sorted_elements].
    apply Sorted_StronglySorted; [apply _|apply sorted_Sorted].
  - intros x. rewrite elem_of_sorted_elements. unfold ips_to_keep.
    set_solver.
  - apply length_sorted_elements.
Qed.

Lemma updated_list_sorted_witness :
  ∃ updated,
    update_content (file_content scenario_file) {[ lit "2.2.2.2" ]} [LF]
    = Ret updated
    ∧ StronglySorted (λ a b, str_le a b ∧ a ≠ b) (splitlines updated)
    ∧ (∀ x, x ∈ splitlines updated
            ↔ x ∈ clean_set (splitlines (file_content scenario_file))
              ∧ x ∉ ({[ lit "2.2.2.2" ]} : gset str))
    ∧ length (splitlines updated)
      = size (clean_set (splitlines (file_content scenario_file))
              ∖ {[ lit "2.2.2.2" ]}).
Proof.
  apply (updated_list_sorted (file_content scenario_file) [LF]
           {[ lit "2.2.2.2" ]}
           (clean_set (splitlines (file_content scenario_file)))).
  - reflexivity.
  - apply get_ips_newline_no_linebreak.
Defined.

(** X14. The counts of the report add up: when no address of the file
    spans a line boundary, the summary of the report of a confirmed
    action shows the number of addresses of the file, the number removed
    and the number left, and the first is the sum of the other two; the
    number removed is at most the number requested. *)
Theorem report_counts_add_up (i : run_input) (content delimiter : str)
    (remove_set original : gset str) :
  get_ips_from_content content delimiter = Ret original →
  (∀ x, x ∈ original → no_linebreak x) →
  ∃ initial removed final,
    let R := report_labels_of (lang_selection i) in
    tables (report_of i original remove_set) !! 0%nat
    = Some [ [CStr (r_total_initial R); CInt initial];
             [CStr (r_total_removed R); CInt removed];
             [CStr (r_total_final R); CInt final] ]
    ∧ initial = size original
    ∧ final = size (original ∖ remove_set)
    ∧ (initial = removed + final)%nat
    ∧ (removed ≤ size remove_set)%nat.
Proof.
  intros Hparse Hlines.
  pose proof (get_ips_normalized _ _ _ Hparse) as Hnorm.
  pose proof (reparse_serialize _
                (retained_lines original remove_set Hnorm Hlines)) as Hre.
  rewrite get_ips_newline in Hre. injection Hre as Hre.
  eexists _, _, _. cbv zeta. unfold report_of. rewrite tables_report.
  simpl.
  split; [reflexivity|]. split; [done|].
  unfold updated_ips, updated_text. rewrite Hre.
  unfold ips_to_keep, potential_removals.
  split; [done|]. split.
  - rewrite <- size_union by set_solver. f_equal.
    apply set_eq. intros x.
    rewrite elem_of_union, elem_of_intersection, elem_of_difference.
    destruct (decide (x ∈ remove_set)); naive_solver.
  - apply subseteq_size. set_solver.
Qed.

Lemma report_counts_add_up_witness :
  ∃ initial removed final,
    let R := report_labels_of en in
    tables (report_of (scenario fresh_db true).1
              (clean_set (splitlines (file_content scenario_file)))
              {[ lit "2.2.2.2"; lit "9.9.9.9" ]}) !! 0%nat
    = Some [ [CStr (r_total_initial R); CInt initial];
             [CStr (r_total_removed R); CInt removed];
             [CStr (r_total_final R); CInt final] ]
    ∧ initial = size (clean_set (splitlines (file_content scenario_file)))
    ∧ final = size (clean_set (splitlines (file_content scenario_file))
                    ∖ {[ lit "2.2.2.2"; lit "9.9.9.9" ]})
    ∧ (initial = removed + final)%nat
    ∧ (removed ≤ size ({[ lit "2.2.2.2"; lit "9.9.9.9" ]} : gset str))%nat.
Proof.
  apply (report_counts_add_up (scenario fresh_db true).1
           (file_content scenario_file) [LF]
           {[ lit "2.2.2.2"; lit "9.9.9.9" ]}
           (clean_set (splitlines (file_content scenario_file)))).
  - reflexivity.
  - apply get_ips_newline_no_linebreak.
Defined.

End updated.


(** ** The parser on joined and on blank content *)

Section parser_more.

Lemma clean_set_app l1 l2 :
  clean_set (l1 ++ l2) = clean_set l1 ∪ clean_set l2.
Proof.
  unfold clean_set. by rewrite filter_app, fmap_app, list_to_set_app_L.
Qed.

Lemma clean_set_blank : clean_set [[]] = ∅.
Proof. reflexivity. Qed.

Lemma splitlines_not_nil s : s ≠ [] → splitlines s ≠ [].
Proof.
  destruct s as [|c s]; [done|]. intros _. simpl.
  destruct (is_linebreak c); [done|]. by destruct (splitlines s).
Qed.

Lemma splitlines_LF b : splitlines (LF :: b) = [] :: splitlines b.
Proof. by destruct b. Qed.

(** The lines of two texts joined by a line feed: the lines of the first,
    possibly an empty line, and the lines of the second. *)
Lemma splitlines_app_LF_bounded n a b :
  (length a ≤ n)%nat →
  ∃ pre, splitlines (a ++ LF :: b) = pre ++ splitlines b
         ∧ (pre = splitlines a ∨ pre = splitlines a ++ [[]]).
Proof.
  revert a. induction n as [|n IH]; intros a Hlen.
  { destruct a; [|simpl in Hlen; lia]. exists [[]].
    split; [apply splitlines_LF | by right]. }
  destruct a as [|c a'].
  { exists [[]]. split; [apply splitlines_LF | by right]. }
  simpl in Hlen.
  destruct a' as [|c' a''].
  { change (([c] ++ LF :: b)) with (c :: LF :: b).
    change (splitlines (c :: LF :: b))
      with (if is_linebreak c
            then [] :: (if (c =? CR) && (LF =? LF) then splitlines b
                        else splitlines (LF :: b))
            else match splitlines (LF :: b) with
                 | [] => [[c]]
                 | l :: ls => (c :: l) :: ls
                 end).
    rewrite splitlines_LF. simpl splitlines.
    destruct (is_linebreak c).
    - destruct (c =? CR); simpl.
      + exists [[]]. by split; [|left].
      + exists [[]; []]. by split; [|right].
    - exists [[c]]. by split; [|left]. }
  change ((c :: c' :: a'') ++ LF :: b) with (c :: c' :: (a'' ++ LF :: b)).
  change (splitlines (c :: c' :: a'' ++ LF :: b))
    with (if is_linebreak c
          then [] :: (if (c =? CR) && (c' =? LF)
                      then splitlines (a'' ++ LF :: b)
                      else splitlines (c' :: a'' ++ LF :: b))
          else match splitlines (c' :: a'' ++ LF :: b) with
               | [] => [[c]]
               | l :: ls => (c :: l) :: ls
               end).
  change (splitlines (c :: c' :: a''))
    with (if is_linebreak c
          then [] :: (if (c =? CR) && (c' =? LF) then splitlines a''
                      else splitlines (c' :: a''))
          else match splitlines (c' :: a'') with
               | [] => [[c]]
               | l :: ls => (c :: l) :: ls
               end).
  assert (length (c' :: a'') ≤ n)%nat as Hlen1 by lia.
  assert (length a'' ≤ n)%nat as Hlen2 by (simpl in Hlen1; lia).
  destruct (IH (c' :: a'') Hlen1) as (pre1 & Hpre1 & Hor1).
  destruct (IH a'' Hlen2) as (pre2 & Hpre2 & Hor2).
  change ((c' :: a'') ++ LF :: b) with (c' :: a'' ++ LF :: b) in Hpre1.
  destruct (is_linebreak c).
  - destruct ((c =? CR) && (c' =? LF)).
    + exists ([] :: pre2). rewrite Hpre2. split; [done|].
      destruct Hor2 as [-> | ->]; auto.
    + exists ([] :: pre1). rewrite Hpre1. split; [done|].
      destruct Hor1 as [-> | ->]; auto.
  - rewrite Hpre1.
    pose proof (splitlines_not_nil (c' :: a'') ltac:(done)) as Hne.
    destruct (splitlines (c' :: a'')) as [|l ls]; [done|].
    destruct Hor1 as [-> | ->].
    + exists ((c :: l) :: ls). by split; [|left].
    + exists ((c :: l) :: ls ++ [[]]). by split; [|right].
Qed.

Lemma clean_set_lines_LF a b :
  clean_set (splitlines (a ++ LF :: b))
  = clean_set (splitlines a) ∪ clean_set (splitlines b).
Proof.
  destruct (splitlines_app_LF_bounded (length a) a b ltac:(done))
    as (pre & -> & [-> | ->]);
    rewrite !clean_set_app, ?clean_set_blank; set_solver.
Qed.

Lemma split_app_char (c : char) a b la lb :
  split a [c] = Ret la → split b [c] = Ret lb →
  split (a ++ c :: b) [c] = Ret (la ++ lb).
Proof.
  intros (Hna & -> & Ha)%split_char_inv (Hnb & -> & Hb)%split_char_inv.
  change (join [c] la ++ c :: join [c] lb)
    with (join [c] la ++ [c] ++ join [c] lb).
  rewrite <- join_app by done.
  apply split_join_char; [by destruct la | by apply Forall_app].
Qed.

Lemma get_ips_joined_char (c : char) a b :
  [c] ≠ [LF] →
  get_ips_from_content (a ++ [c] ++ b) [c]
  = Ret (clean_set (split_scan (length a) [c] a)
         ∪ clean_set (split_scan (length b) [c] b)).
Proof.
  intros Hc. rewrite get_ips_literal by done. f_equal.
  assert (split (a ++ c :: b) [c]
          = Ret (split_scan (length a) [c] a ++ split_scan (length b) [c] b))
    as Hsplit by (apply split_app_char; by apply split_Ret).
  rewrite split_Ret in Hsplit by done. injection Hsplit as Hsplit.
  change (a ++ [c] ++ b) with (a ++ c :: b).
  by rewrite Hsplit, clean_set_app.
Qed.

(** X15. Parsing distributes over joining: for each of the four
    delimiters that can be selected, the addresses of two contents joined
    by the delimiter are the addresses of the one together with the
    addresses of the other, also when the first ends in a carriage return
    or the second begins with a line feed. *)
Theorem parse_joined_contents (d : delimiter_option) (a b : str) :
  ∃ A B,
    get_ips_from_content a (delimiter_map d) = Ret A
    ∧ get_ips_from_content b (delimiter_map d) = Ret B
    ∧ get_ips_from_content (a ++ delimiter_map d ++ b) (delimiter_map d)
      = Ret (A ∪ B).
Proof.
  destruct d.
  - exists (clean_set (splitlines a)), (clean_set (splitlines b)).
    simpl. rewrite !get_ips_newline. split; [done|]. split; [done|].
    by rewrite clean_set_lines_LF.
  - eexists _, _. split; [by apply get_ips_literal|].
    split; [by apply get_ips_literal|]. by apply get_ips_joined_char.
  - eexists _, _. split; [by apply get_ips_literal|].
    split; [by apply get_ips_literal|]. by apply get_ips_joined_char.
  - eexists _, _. split; [by apply get_ips_literal|].
    split; [by apply get_ips_literal|]. by apply get_ips_joined_char.
Qed.

(** Where a parsed address comes from. *)
Lemma occurs_in_lines s ls (tok : str) :
  lines_of s ls → tok ∈ ls → occurs_in tok s.
Proof.
  induction 1 as [|l Hne Hl|l e rest ls Hl He Hrest IH].
  - by intros ?%elem_of_nil.
  - intros ->%list_elem_of_singleton. exists [], []. by rewrite app_nil_r.
  - intros [->|Hin]%elem_of_cons.
    + by exists [], (e ++ rest).
    + destruct (IH Hin) as (a & b & ->). exists (l ++ e ++ a), b.
      by rewrite <- !app_assoc.
Qed.

Lemma occurs_in_trimmed (tok x : str) : trimmed tok x → occurs_in x tok.
Proof. intros (l & r & -> & _). by exists l, r. Qed.

Lemma parsed_from_token content delimiter original (x : str) :
  delimiter ≠ [] →
  get_ips_from_content content delimiter = Ret original →
  x ∈ original →
  ∃ tok, trimmed tok x ∧ occurs_in tok content
         ∧ (if decide (delimiter = [LF]) then no_linebreak tok
            else ¬ occurs_in delimiter tok).
Proof.
  intros Hne Hparse Hx.
  destruct (decide (delimiter = [LF])) as [Hd|Hd].
  - rewrite Hd, get_ips_newline in Hparse. injection Hparse as <-.
    apply elem_of_clean_set_trimmed in Hx as (_ & tok & Htok & Htrim).
    exists tok. split; [done|]. split.
    + eapply occurs_in_lines; [apply splitlines_lines_of|done].
    + pose proof (splitlines_no_linebreak content) as Hall.
      rewrite Forall_forall in Hall. by apply Hall.
  - rewrite get_ips_literal in Hparse by done. injection Hparse as <-.
    apply elem_of_clean_set_trimmed in Hx as (_ & tok & Htok & Htrim).
    pose proof (split_scan_split_of (length content) delimiter content Hne
                  ltac:(done)) as Hsplit.
    exists tok. split; [done|]. split.
    + rewrite (split_of_join _ _ _ Hsplit). by apply occurs_in_join.
    + apply split_of_no_occurrence in Hsplit.
      rewrite Forall_forall in Hsplit. by apply Hsplit.
Qed.

(** X16. The parser invents nothing: every address it returns is a piece
    of the content as it stands there, without the whitespace around it,
    and it contains no line boundary when the content is split by lines
    and no occurrence of the delimiter otherwise. *)
Theorem parsed_addresses_occur (content delimiter : str)
    (original : gset str) (x : str) :
  delimiter ≠ [] →
  get_ips_from_content content delimiter = Ret original →
  x ∈ original →
  occurs_in x content
  ∧ x ≠ [] ∧ strip x = x
  ∧ (if decide (delimiter = [LF]) then no_linebreak x
     else ¬ occurs_in delimiter x).
Proof.
  intros Hne Hparse Hx.
  destruct (parsed_from_token _ _ _ _ Hne Hparse Hx)
    as (tok & Htrim & Hocc & Hsep).
  destruct (get_ips_normalized content delimiter original Hparse x Hx)
    as [Hstrip Hnonempty].
  pose proof (occurs_in_trimmed _ _ Htrim) as Hxt.
  split; [by eapply occurs_in_trans|]. split; [done|]. split; [done|].
  repeat case_decide; try done.
  - destruct Hxt as (l & r & ->). unfold no_linebreak in *.
    by apply Forall_app in Hsep as [_ [? _]%Forall_app].
  - intros Hin. apply Hsep. by eapply occurs_in_trans.
Qed.

Lemma parsed_addresses_occur_witness :
  occurs_in (lit "10.0.0.1") (lit " 10.0.0.1 ,10.0.0.1")
  ∧ lit "10.0.0.1" ≠ [] ∧ strip (lit "10.0.0.1") = lit "10.0.0.1"
  ∧ (if decide ([COMMA] = [LF]) then no_linebreak (lit "10.0.0.1")
     else ¬ occurs_in [COMMA] (lit "10.0.0.1")).
Proof.
  apply (parsed_addresses_occur (lit " 10.0.0.1 ,10.0.0.1") [COMMA]
           {[ lit "10.0.0.1" ]}).
  - discriminate.
  - vm_compute. reflexivity.
  - apply elem_of_singleton. reflexivity.
Defined.

Lemma all_space_occurs (x s : str) : occurs_in x s → all_space s → all_space x.
Proof.
  intros (a & b & ->) H. unfold all_space in *.
  by apply Forall_app in H as [_ [? _]%Forall_app].
Qed.

Lemma serialize_empty : serialize ∅ = [].
Proof. unfold serialize. by rewrite elements_empty. Qed.

(** X17. A file of nothing but whitespace holds no address: for every
    non-empty delimiter the parser returns the empty set, and every update
    of such a file gives the empty text. *)
Theorem blank_content_parses_empty (content delimiter : str)
    (remove_set : gset str) :
  delimiter ≠ [] →
  all_space content →
  get_ips_from_content content delimiter = Ret ∅
  ∧ update_content content remove_set delimiter = Ret [].
Proof.
  intros Hne Hblank.
  assert (∃ original, get_ips_from_content content delimiter = Ret original)
    as [original Hparse].
  { destruct (decide (delimiter = [LF])) as [->|Hd].
    - rewrite get_ips_newline. by eexists.
    - rewrite get_ips_literal by done. by eexists. }
  assert (original = ∅) as ->.
  { apply elem_of_equiv_empty_L. intros x Hx.
    destruct (parsed_from_token _ _ _ _ Hne Hparse Hx)
      as (tok & Htrim & Hocc & _).
    destruct (get_ips_normalized _ _ _ Hparse x Hx) as [_ Hnonempty].
    apply trimmed_unique in Htrim.
    rewrite all_space_strip in Htrim by (by eapply all_space_occurs).
    done. }
  split; [done|].
  rewrite (update_content_serialize _ _ _ _ Hparse).
  unfold ips_to_keep. rewrite difference_disjoint_L by set_solver.
  by rewrite serialize_empty.
Qed.

Lemma blank_content_parses_empty_witness :
  get_ips_from_content (lit "  ") (lit " ") = Ret ∅
  ∧ update_content (lit "  ") {[ lit "10.0.0.1" ]} (lit " ") = Ret [].
Proof.
  apply (blank_content_parses_empty (lit "  ") (lit " ")
           {[ lit "10.0.0.1" ]}).
  - discriminate.
  - unfold all_space. vm_compute. repeat constructor.
Defined.

End parser_more.


(** ** The revoke text of a list of entries *)

Section request_text.

Section tokens.

Variable cls : char → bool.

Lemma re_split_runs_cons s : ∃ t ts, re_split_runs cls s = t :: ts.
Proof.
  induction s as [|c s IH]; [by eexists _, _|]. simpl.
  destruct IH as (t & ts & ->).
  destruct (cls c); [|by eexists _, _].
  destruct s as [|c' s]; [by eexists _, _|].
  destruct (cls c'); by eexists _, _.
Qed.

(** A text that begins with a separator has an empty first token. *)
Lemma re_split_runs_leading c s :
  cls c = true → ∃ ts, re_split_runs cls (c :: s) = [] :: ts.
Proof.
  revert c. induction s as [|c' s IH]; intros c Hc.
  - simpl. rewrite Hc. by eexists.
  - change (re_split_runs cls (c :: c' :: s))
      with (if cls c
            then (if cls c' then re_split_runs cls (c' :: s)
                  else [] :: re_split_runs cls (c' :: s))
            else match re_split_runs cls (c' :: s) with
                 | [] => [[c]]
                 | t :: ts => (c :: t) :: ts
                 end).
    rewrite Hc. destruct (cls c') eqn:Hc'; [by apply IH | by eexists].
Qed.

Lemma clean_set_cons t ts : clean_set (t :: ts) = clean_set [t] ∪ clean_set ts.
Proof. apply (clean_set_app [t] ts). Qed.

Lemma clean_set_empty_token ts : clean_set ([] :: ts) = clean_set ts.
Proof.
  unfold clean_set. rewrite filter_cons_False; [done|].
  intros H. by apply H.
Qed.

(** The tokens of a text followed by a text that begins with a
    separator. *)
Lemma re_split_runs_app a c s :
  cls c = true →
  hd [] (re_split_runs cls (a ++ c :: s)) = hd [] (re_split_runs cls a)
  ∧ clean_set (tl (re_split_runs cls (a ++ c :: s)))
    = clean_set (tl (re_split_runs cls a))
      ∪ clean_set (re_split_runs cls (c :: s)).
Proof.
  intros Hc. destruct (re_split_runs_leading c s Hc) as (rest & Hrest).
  induction a as [|x a IH].
  { change ([] ++ c :: s) with (c :: s). rewrite Hrest.
    change (re_split_runs cls []) with [[] : str]. simpl hd. simpl tl.
    rewrite clean_set_empty_token.
    split; [done|]. change (clean_set []) with (∅ : gset str). set_solver. }
  destruct a as [|y a].
  { change ([x] ++ c :: s) with (x :: c :: s).
    change (re_split_runs cls (x :: c :: s))
      with (if cls x
            then (if cls c then re_split_runs cls (c :: s)
                  else [] :: re_split_runs cls (c :: s))
            else match re_split_runs cls (c :: s) with
                 | [] => [[x]]
                 | t :: ts => (x :: t) :: ts
                 end).
    rewrite Hc, Hrest. simpl. destruct (cls x); simpl.
    - rewrite !clean_set_empty_token. split; [done|].
      change (clean_set []) with (∅ : gset str). set_solver.
    - rewrite clean_set_empty_token. split; [done|]. set_solver. }
  destruct IH as [IH1 IH2].
  change ((x :: y :: a) ++ c :: s) with (x :: y :: (a ++ c :: s)).
  change ((y :: a) ++ c :: s) with (y :: (a ++ c :: s)) in IH1, IH2.
  change (re_split_runs cls (x :: y :: a ++ c :: s))
    with (if cls x
          then (if cls y then re_split_runs cls (y :: a ++ c :: s)
                else [] :: re_split_runs cls (y :: a ++ c :: s))
          else match re_split_runs cls (y :: a ++ c :: s) with
               | [] => [[x]]
               | t :: ts => (x :: t) :: ts
               end).
  change (re_split_runs cls (x :: y :: a))
    with (if cls x
          then (if cls y then re_split_runs cls (y :: a)
                else [] :: re_split_runs cls (y :: a))
          else match re_split_runs cls (y :: a) with
               | [] => [[x]]
               | t :: ts => (x :: t) :: ts
               end).
  destruct (re_split_runs_cons (y :: a ++ c :: s)) as (t1 & ts1 & H1).
  destruct (re_split_runs_cons (y :: a)) as (t2 & ts2 & H2).
  rewrite H1, H2 in *. simpl in IH1, IH2. subst t2.
  destruct (cls x); [destruct (cls y)|]; simpl.
  - done.
  - split; [done|]. rewrite (clean_set_cons t1 ts1), (clean_set_cons t1 ts2).
    rewrite IH2. set_solver.
  - done.
Qed.

Lemma clean_set_runs_app a c s :
  cls c = true →
  clean_set (re_split_runs cls (a ++ c :: s))
  = clean_set (re_split_runs cls a) ∪ clean_set (re_split_runs cls s).
Proof.
  intros Hc. destruct (re_split_runs_app a c s Hc) as [H1 H2].
  destruct (re_split_runs_cons (a ++ c :: s)) as (t1 & ts1 & E1).
  destruct (re_split_runs_cons a) as (t2 & ts2 & E2).
  rewrite E1, E2 in *. cbn [hd tl] in H1, H2. subst t2.
  rewrite (clean_set_cons t1 ts1), (clean_set_cons t1 ts2), H2.
  assert (clean_set (re_split_runs cls (c :: s))
          = clean_set (re_split_runs cls s)) as ->; [|set_solver].
  destruct s as [|c' s].
  { simpl. rewrite Hc. by rewrite clean_set_empty_token. }
  change (re_split_runs cls (c :: c' :: s))
    with (if cls c
          then (if cls c' then re_split_runs cls (c' :: s)
                else [] :: re_split_runs cls (c' :: s))
          else match re_split_runs cls (c' :: s) with
               | [] => [[c]]
               | t :: ts => (c :: t) :: ts
               end).
  rewrite Hc. destruct (cls c'); [done|]. by rewrite clean_set_empty_token.
Qed.

(** A text without a separator is one token. *)
Lemma re_split_runs_token t :
  Forall (λ c, cls c = false) t → re_split_runs cls t = [t].
Proof.
  induction 1 as [|c t Hc Ht IH]; [done|]. simpl. by rewrite Hc, IH.
Qed.

(** A blank in front of a text is stripped from its first token. *)
Lemma clean_set_runs_blank c s :
  cls c = false → isspace c = true →
  clean_set (re_split_runs cls (c :: s)) = clean_set (re_split_runs cls s).
Proof.
  intros Hc Hsp. simpl. rewrite Hc.
  destruct (re_split_runs_cons s) as (t & ts & ->).
  rewrite (clean_set_cons (c :: t)), (clean_set_cons t). f_equal.
  unfold clean_set. simpl.
  assert (strip (c :: t) = strip t) as Hs.
  { unfold strip. simpl. by rewrite Hsp. }
  destruct (decide (strip t = [])) as [He|Hn].
  - rewrite !filter_cons_False; [done| |]; intros H; apply H; congruence.
  - rewrite !filter_cons_True by congruence. rewrite !filter_nil.
    csimpl. by rewrite Hs.
Qed.

End tokens.

(** X18. The request grows with the text: the entries of two revoke
    texts joined by a comma, a line feed or a carriage return are the
    entries of the one together with the entries of the other, whatever
    separators the two texts begin and end with. *)
Theorem request_of_joined_texts (a b : str) (c : char) :
  is_revoke_separator c = true →
  remove_list_clean (a ++ c :: b)
  = remove_list_clean a ∪ remove_list_clean b.
Proof. intros Hc. by apply clean_set_runs_app. Qed.

Lemma request_of_joined_texts_witness :
  remove_list_clean (lit "2.2.2.2," ++ LF :: lit ",9.9.9.9")
  = remove_list_clean (lit "2.2.2.2,") ∪ remove_list_clean (lit ",9.9.9.9").
Proof.
  apply (request_of_joined_texts (lit "2.2.2.2,") (lit ",9.9.9.9") LF).
  reflexivity.
Defined.

(** The characters of an address are neither separators of the revoke
    text nor whitespace. *)
Lemma address_char_plain c :
  address_char c → is_revoke_separator c = false ∧ isspace c = false.
Proof.
  unfold address_char, Ipaddress.is_hex_digit, Ipaddress.is_ascii_digit,
    Ipaddress.COLON, Ipaddress.DOT, is_revoke_separator, isspace, COMMA, LF,
    CR.
  rewrite !orb_true_iff, !andb_true_iff, !N.leb_le.
  intros H.
  split; apply not_true_iff_false;
    rewrite !orb_true_iff, ?andb_true_iff, ?N.leb_le, ?N.eqb_eq; lia.
Qed.

Lemma address_stripped (x : str) : Forall address_char x → strip x = x.
Proof.
  intros Hx. rewrite Forall_forall in Hx. unfold strip.
  rewrite lstrip_fixed.
  - apply rstrip_fixed. intros c Hc. apply address_char_plain, Hx.
    by apply last_Some_elem_of.
  - intros c Hc. apply address_char_plain, Hx. by apply head_Some_elem_of.
Qed.

Lemma request_of_one_address (x : str) :
  x ≠ [] → Forall address_char x → remove_list_clean x = {[ x ]}.
Proof.
  intros Hne Hx. unfold remove_list_clean, raw_remove_list.
  rewrite re_split_runs_token.
  2: { eapply Forall_impl; [exact Hx|]. intros c Hc.
       by apply address_char_plain. }
  rewrite clean_set_fixed.
  - simpl. set_solver.
  - constructor; [|constructor]. split; [by apply address_stripped|done].
Qed.

Lemma request_of_separated (sep x rest : str) :
  sep ∈ [[COMMA]; [LF]; [COMMA; 32]; [CR; LF]] →
  remove_list_clean (x ++ sep ++ rest)
  = remove_list_clean x ∪ remove_list_clean rest.
Proof.
  intros Hsep. unfold remove_list_clean, raw_remove_list.
  repeat (apply elem_of_cons in Hsep as [->|Hsep]).
  - by apply clean_set_runs_app.
  - by apply clean_set_runs_app.
  - change (x ++ [COMMA; 32] ++ rest) with (x ++ COMMA :: (32 :: rest)).
    rewrite clean_set_runs_app by done.
    by rewrite (clean_set_runs_blank _ 32).
  - change (x ++ [CR; LF] ++ rest) with (x ++ CR :: ([] ++ LF :: rest)).
    rewrite clean_set_runs_app by done.
    rewrite (clean_set_runs_app _ []) by done.
    change (clean_set (re_split_runs is_revoke_separator []))
      with (∅ : gset str).
    set_solver.
  - by apply elem_of_nil in Hsep.
Qed.

Lemma plain_address (x : str) :
  wf_ipv4 x ∨ wf_ipv6_address x → x ≠ [] ∧ Forall address_char x.
Proof.
  intros Hwf. split.
  - intros ->. apply not_wf_empty. destruct Hwf; [by left|by right; left].
  - destruct Hwf as [H|H]; [|by apply wf_ipv6_address_chars].
    eapply Forall_impl; [by apply wf_ipv4_chars|].
    intros c [Hc|Hc]; [left | right; by right].
    unfold Ipaddress.is_hex_digit. by rewrite Hc.
Qed.

Lemma request_of_address_list (l : list str) (sep : str) :
  sep ∈ [[COMMA]; [LF]; [COMMA; 32]; [CR; LF]] →
  Forall (λ x, wf_ipv4 x ∨ wf_ipv6_address x) l →
  remove_list_clean (join sep l) = list_to_set l.
Proof.
  intros Hsep. induction 1 as [|x l Hx Hl IH]; [done|].
  destruct (plain_address x Hx) as [Hne Hchars].
  destruct l as [|y l].
  - simpl. rewrite request_of_one_address by done. set_solver.
  - rewrite join_cons, request_of_separated by done.
    rewrite IH, request_of_one_address by done. set_solver.
Qed.

(** X19. A list of addresses is a valid request: the text of one or more
    well-formed addresses (dotted decimal, or colon hexadecimal without a
    zone), separated by commas, by a comma and a blank, by line feeds or
    by carriage return and line feed, passes validation, and the request
    is the set of these addresses. *)
Theorem request_of_addresses (l : list str) (sep : str) :
  l ≠ [] →
  sep ∈ [[COMMA]; [LF]; [COMMA; 32]; [CR; LF]] →
  Forall (λ x, wf_ipv4 x ∨ wf_ipv6_address x) l →
  remove_list_clean (join sep l) = list_to_set l
  ∧ valid_request (join sep l)
  ∧ invalid_ips (elements (remove_list_clean (join sep l))) = Ret [].
Proof.
  intros Hne Hsep Hl.
  pose proof (request_of_address_list l sep Hsep Hl) as Hset.
  assert (valid_request (join sep l)) as Hvalid.
  { split; rewrite Hset.
    - destruct l as [|x l]; [done|]. set_solver.
    - intros x Hx%elem_of_list_to_set. rewrite Forall_forall in Hl.
      apply valid_ip_true. destruct (Hl x Hx); [by left|by right; left]. }
  split; [done|]. split; [done|].
  rewrite invalid_ips_filter. f_equal.
  by apply valid_request_no_invalid.
Qed.

Lemma request_of_addresses_witness :
  remove_list_clean (join [COMMA; 32] [lit "2.2.2.2"; lit "9.9.9.9"])
  = list_to_set [lit "2.2.2.2"; lit "9.9.9.9"]
  ∧ valid_request (join [COMMA; 32] [lit "2.2.2.2"; lit "9.9.9.9"])
  ∧ invalid_ips (elements (remove_list_clean
                             (join [COMMA; 32]
                                   [lit "2.2.2.2"; lit "9.9.9.9"])))
    = Ret [].
Proof.
  apply (request_of_addresses [lit "2.2.2.2"; lit "9.9.9.9"] [COMMA; 32]).
  - discriminate.
  - apply list_elem_of_further, list_elem_of_further, list_elem_of_here.
  - repeat (apply Forall_cons; split;
              [left; apply IPv4Address_succeeds; eexists; vm_compute;
               reflexivity|]).
    constructor.
Defined.

End request_text.


(** ** The texts the script builds *)

Section built_texts.

(** One replacement of a field that occurs once. *)
Lemma replaced_once (pre post field value : str) :
  field ≠ [] →
  ¬ occurs_in field (pre ++ removelast field) →
  ¬ occurs_in field post →
  replaced (pre ++ field ++ post) field value = pre ++ value ++ post.
Proof.
  intros Hne Hpre Hpost. unfold replaced.
  assert (split (pre ++ field ++ post) field = Ret [pre; post]) as Hsplit.
  { apply split_spec; [done|].
    apply split_of_cons; [done|]. by apply split_of_last. }
  rewrite split_Ret in Hsplit by done. injection Hsplit as ->. done.
Qed.

Lemma replaced_absent (s field value : str) :
  field ≠ [] → ¬ occurs_in field s → replaced s field value = s.
Proof.
  intros Hne Habsent. unfold replaced.
  assert (split s field = Ret [s]) as Hsplit.
  { apply split_spec; [done|]. by apply split_of_last. }
  rewrite split_Ret in Hsplit by done. injection Hsplit as ->. done.
Qed.

Lemma no_char_no_occurrence (c : char) (sep t : str) :
  c ∈ sep → c ∉ t → ¬ occurs_in sep t.
Proof. intros Hc Ht (a & b & ->). set_solver. Qed.

(** The name of the file without its extension. *)
Lemma no_txt_across (stem : str) :
  ¬ occurs_in (lit ".txt") stem →
  ¬ occurs_in (lit ".txt") (stem ++ removelast (lit ".txt")).
Proof.
  change (lit ".txt") with [46; 116; 120; 116].
  change (removelast [46; 116; 120; 116]) with [46; 116; 120].
  intros Hstem (a & b & Heq). apply Hstem.
  apply (f_equal reverse) in Heq.
  rewrite !reverse_app in Heq.
  change (reverse [46; 116; 120]) with [120; 116; 46] in Heq.
  change (reverse [46; 116; 120; 116]) with [116; 120; 116; 46] in Heq.
  destruct (reverse b) as [|r1 [|r2 [|r3 rb]]] eqn:Hb; simpl in Heq;
    try discriminate Heq.
  injection Heq as -> -> -> Heq.
  apply (f_equal reverse) in Heq.
  rewrite !reverse_app, !reverse_involutive in Heq.
  change (reverse ([116; 120; 116; 46])) with [46; 116; 120; 116] in Heq.
  exists a, (reverse rb). rewrite Heq. by rewrite <- ?app_assoc.
Qed.

(** X20. The names of the downloads: for a file whose name is a stem
    followed by [.txt], the stem not containing [.txt], the base name
    stored for the downloads is the stem; a name without [.txt] is its
    own base name. *)
Theorem base_name_of_txt_file (stem : str) (bytes : list N) :
  ¬ occurs_in (lit ".txt") stem →
  base_name {| file_name := stem ++ lit ".txt"; file_bytes := bytes |}
  = stem
  ∧ base_name {| file_name := stem; file_bytes := bytes |} = stem.
Proof.
  intros Hstem. unfold base_name. simpl. split.
  - rewrite <- (app_nil_r (stem ++ lit ".txt")), <- app_assoc.
    rewrite replaced_once; [by rewrite app_nil_r|done| |].
    + by apply no_txt_across.
    + intros (a & b & H). by destruct a.
  - by apply replaced_absent.
Qed.

Lemma base_name_of_txt_file_witness :
  base_name {| file_name := lit "allow" ++ lit ".txt";
               file_bytes := lit "10.0.0.1" |} = lit "allow"
  ∧ base_name {| file_name := lit "allow"; file_bytes := lit "10.0.0.1" |}
    = lit "allow".
Proof.
  apply (base_name_of_txt_file (lit "allow") (lit "10.0.0.1")).
  apply (no_char_no_occurrence 46); [|vm_compute; set_solver].
  apply list_elem_of_here.
Defined.

(** The decimal text of a number. *)
Lemma one_digit d a :
  d < 10 →
  fold_left (λ acc c, acc * 10 + (c - 48)) [digit_char d] a
  = a * 10 ^ N.of_nat (length [digit_char d]) + d.
Proof.
  intros Hd. cbn [fold_left length]. change (N.of_nat 1) with 1.
  rewrite N.pow_1_r. unfold digit_char. lia.
Qed.

Lemma digit_char_range d : d < 10 → 48 ≤ digit_char d ∧ digit_char d ≤ 57.
Proof. unfold digit_char. lia. Qed.

Lemma div10_fuel n fuel :
  n / 10 ≠ 0 → (N.to_nat n ≤ S fuel)%nat → (N.to_nat (n / 10) ≤ fuel)%nat.
Proof.
  intros Hnz Hn.
  assert (n ≠ 0) as Hn0 by (by intros ->).
  assert (n / 10 < n) as Hlt by (apply N.div_lt; lia).
  revert Hlt. clear Hnz. generalize (n / 10). intros q Hlt. lia.
Qed.

Lemma decimal_go_spec fuel n acc :
  (N.to_nat n ≤ fuel)%nat →
  ∃ ds, decimal_go fuel n acc = ds ++ acc
        ∧ Forall (λ c, 48 ≤ c ∧ c ≤ 57) ds
        ∧ ∀ a, fold_left (λ acc c, acc * 10 + (c - 48)) ds a
               = a * 10 ^ N.of_nat (length ds) + n.
Proof.
  revert n acc. induction fuel as [|fuel IH]; intros n acc Hn.
  - assert (n = 0) as -> by lia. exists [digit_char 0].
    split; [done|]. split; [by repeat constructor|]. intros a.
    by apply one_digit.
  - cbn [decimal_go]. pose proof (N.mod_lt n 10 ltac:(done)) as Hmod.
    pose proof (N.div_mod n 10 ltac:(done)) as Hdiv.
    destruct (N.eqb_spec (n / 10) 0) as [Hz|Hnz].
    + exists [digit_char (n mod 10)]. split; [done|].
      split; [constructor; [by apply digit_char_range | constructor]|].
      intros a. rewrite one_digit by done.
      rewrite Hz, N.mul_0_r, N.add_0_l in Hdiv. by rewrite <- Hdiv.
    + destruct (IH (n / 10) (digit_char (n mod 10) :: acc))
        as (ds & -> & Hd & Hv).
      { by apply div10_fuel. }
      exists (ds ++ [digit_char (n mod 10)]). rewrite <- app_assoc.
      split; [done|]. split.
      * apply Forall_app. split; [done|].
        constructor; [by apply digit_char_range | constructor].
      * intros a. rewrite fold_left_app, Hv, length_app.
        cbn [fold_left length]. unfold digit_char.
        replace (N.of_nat (length ds + 1)) with (N.succ (N.of_nat (length ds)))
          by lia.
        rewrite N.pow_succ_r'.
        generalize dependent (10 ^ N.of_nat (length ds)). intros p.
        generalize dependent (n / 10). intros q ? ? ?.
        generalize dependent (n mod 10). intros r ? ?. nia.
Qed.

Lemma str_of_nat_spec n :
  Forall (λ c, 48 ≤ c ∧ c ≤ 57) (str_of_nat n)
  ∧ Ipaddress.int10 (str_of_nat n) = N.of_nat n.
Proof.
  unfold str_of_nat, Ipaddress.int10.
  destruct (decimal_go_spec n (N.of_nat n) [] ltac:(lia)) as (ds & -> & Hd & Hv).
  rewrite app_nil_r. split; [done|]. rewrite Hv. lia.
Qed.

Lemma digits_without (c : char) n :
  c < 48 ∨ 57 < c → c ∉ str_of_nat n.
Proof.
  intros Hc Hin. destruct (str_of_nat_spec n) as [Hd _].
  rewrite Forall_forall in Hd. specialize (Hd c Hin). lia.
Qed.

(** The second field of the warning, behind a first part that holds no
    closing brace. *)
Lemma replaced_total (front post value : str) :
  125 ∉ front → 123 ∉ post →
  replaced (front ++ lit "{total}" ++ post) (lit "{total}") value
  = front ++ value ++ post.
Proof.
  intros Hfront Hpost. apply replaced_once; [done| |].
  - apply (no_char_no_occurrence 125).
    + change (lit "{total}") with [123; 116; 111; 116; 97; 108; 125].
      set_solver.
    + change (removelast (lit "{total}")) with [123; 116; 111; 116; 97; 108].
      rewrite elem_of_app. intros [?|Hin]; [done|].
      revert Hin. apply (bool_decide_unpack _). vm_compute. reflexivity.
  - apply (no_char_no_occurrence 123); [|done].
    change (lit "{total}") with [123; 116; 111; 116; 97; 108; 125].
    set_solver.
Qed.

(** X21. The warning names the two counts: the text shown before an
    action is confirmed is the template of the selected language with the
    number of matching addresses and the number of addresses of the file
    written in decimal in place of its two fields. *)
Theorem warning_names_counts (l : lang) (removals total : nat) :
  format_warning_audit (TEXTS l) removals total
  = Ret (match l with
         | es => lit "⚠️ Se eliminarán **" ++ str_of_nat removals
                 ++ lit "** de **" ++ str_of_nat total
                 ++ lit "** IPs que coinciden. Confirme la acción."
         | en => lit "⚠️ **" ++ str_of_nat removals
                 ++ lit "** out of **" ++ str_of_nat total
                 ++ lit "** matching IPs will be removed. Confirm the action."
         end)
  ∧ Ipaddress.int10 (str_of_nat removals) = N.of_nat removals
  ∧ Ipaddress.int10 (str_of_nat total) = N.of_nat total.
Proof.
  split; [|split; apply str_of_nat_spec].
  rewrite format_warning_audit_Ret. f_equal. unfold warning_text, replaced at 2.
  pose proof (digits_without 125 removals ltac:(lia)) as Hdigits.
  destruct l.
  - assert (split_scan (length (t_warning_audit (TEXTS es))) (lit "{removals}")
              (t_warning_audit (TEXTS es))
            = [lit "⚠️ Se eliminarán **";
               lit "** de **" ++ lit "{total}"
               ++ lit "** IPs que coinciden. Confirme la acción."]) as ->
      by (vm_compute; reflexivity).
    change (join ?v [?a; ?b]) with (a ++ v ++ b).
    rewrite !app_assoc, <- (app_assoc _ (lit "{total}")).
    rewrite replaced_total; [by rewrite <- !app_assoc| |].
    + rewrite !elem_of_app. intros [[Hin|?]|Hin]; [|done|];
        revert Hin; apply (bool_decide_unpack _); vm_compute; reflexivity.
    + apply (bool_decide_unpack _). vm_compute. reflexivity.
  - assert (split_scan (length (t_warning_audit (TEXTS en))) (lit "{removals}")
              (t_warning_audit (TEXTS en))
            = [lit "⚠️ **";
               lit "** out of **" ++ lit "{total}"
               ++ lit "** matching IPs will be removed. Confirm the action."])
      as -> by (vm_compute; reflexivity).
    change (join ?v [?a; ?b]) with (a ++ v ++ b).
    rewrite !app_assoc, <- (app_assoc _ (lit "{total}")).
    rewrite replaced_total; [by rewrite <- !app_assoc| |].
    + rewrite !elem_of_app. intros [[Hin|?]|Hin]; [|done|];
        revert Hin; apply (bool_decide_unpack _); vm_compute; reflexivity.
    + apply (bool_decide_unpack _). vm_compute. reflexivity.
Qed.

End built_texts.


(** ** What a valid address looks like, and what is revoked *)

Section valid_addresses.

Import Ipaddress.

Lemma wf_ipv4_length s : wf_ipv4 s → (7 ≤ length s ≤ 15)%nat.
Proof.
  intros (octets & Hlen & Hoct & ->).
  destruct octets as [|o1 [|o2 [|o3 [|o4 [|o5 octets]]]]];
    simpl in Hlen; try lia.
  assert (∀ o, decimal_octet o → (1 ≤ length o ≤ 3)%nat) as Hbound.
  { intros o (Hne & _ & Hle & _). destruct o; [done|]. simpl in *. lia. }
  repeat (apply Forall_cons in Hoct as [?%Hbound Hoct]).
  rewrite !join_cons. simpl join. rewrite !length_app. simpl. lia.
Qed.

Lemma groups_eight_colon gs : groups gs 8 → COLON ∈ join [COLON] gs.
Proof.
  intros Hg.
  assert (2 ≤ length gs)%nat as Hlen.
  { inversion Hg as [hs Hhs Hn Heq | hs v4 Hhs Hv4 Hn Heq]; subst.
    - lia.
    - rewrite length_app. simpl. lia. }
  destruct gs as [|g1 [|g2 gs]]; simpl in Hlen; try lia.
  rewrite join_cons. set_solver.
Qed.

Lemma wf_ipv6_address_colon s : wf_ipv6_address s → COLON ∈ s.
Proof.
  intros [(gs & Hgs & ->) | (hi & lo & n & _ & _ & _ & ->)].
  - by apply groups_eight_colon.
  - set_solver.
Qed.

(** X22. The shape of a valid address: a text without a percent sign
    that the validator accepts consists of hexadecimal digits, colons and
    dots only, so that host names are refused; without a colon it is a
    dotted decimal address of between 7 and 15 characters. *)
Theorem valid_address_shape (s : str) :
  is_valid_ip s = Ret true →
  PERCENT ∉ s →
  Forall address_char s
  ∧ s ≠ []
  ∧ (COLON ∉ s → wf_ipv4 s ∧ (7 ≤ length s ≤ 15)%nat).
Proof.
  rewrite is_valid_ip_total. intros [= Hvalid] Hzone.
  apply valid_ip_true in Hvalid.
  assert (wf_ipv4 s ∨ wf_ipv6_address s) as Hwf.
  { destruct Hvalid as [?|[?|(a & zone & -> & _)]]; auto.
    destruct Hzone. set_solver. }
  destruct (plain_address s Hwf) as [Hne Hchars].
  split; [done|]. split; [done|]. intros Hcolon.
  destruct Hwf as [H4|H6%wf_ipv6_address_colon]; [|done].
  split; [done | by apply wf_ipv4_length].
Qed.

Lemma valid_address_shape_witness :
  Forall address_char (lit "10.0.0.1")
  ∧ lit "10.0.0.1" ≠ []
  ∧ (COLON ∉ lit "10.0.0.1"
     → wf_ipv4 (lit "10.0.0.1") ∧ (7 ≤ length (lit "10.0.0.1") ≤ 15)%nat).
Proof.
  apply (valid_address_shape (lit "10.0.0.1")).
  - vm_compute. reflexivity.
  - apply (bool_decide_unpack _). vm_compute. reflexivity.
Defined.

(** X23. Only addresses are revoked: once the request has passed
    validation, every address that is matched, counted in the ledger and
    listed in the report is a well-formed address, and an entry of the
    file that is no well-formed address is always retained. *)
Theorem only_addresses_are_revoked (text : str) (original : gset str) :
  valid_request text →
  (∀ x, x ∈ potential_removals original (remove_list_clean text) →
        is_valid_ip x = Ret true ∧ (wf_ipv4 x ∨ wf_ipv6 x))
  ∧ (∀ x, x ∈ original → ¬ (wf_ipv4 x ∨ wf_ipv6 x) →
          x ∈ ips_to_keep original (remove_list_clean text)).
Proof.
  intros [_ Hall]. unfold potential_removals, ips_to_keep. split.
  - intros x [_ Hx%Hall]%elem_of_intersection.
    rewrite is_valid_ip_total, Hx. split; [done|]. by apply valid_ip_true.
  - intros x Hx Hnot. apply elem_of_difference. split; [done|].
    intros Hin%Hall. by apply Hnot, valid_ip_true.
Qed.

Lemma only_addresses_are_revoked_witness :
  (∀ x, x ∈ potential_removals {[ lit "2.2.2.2"; lit "gateway" ]}
              (remove_list_clean (lit "2.2.2.2, 9.9.9.9")) →
        is_valid_ip x = Ret true ∧ (wf_ipv4 x ∨ wf_ipv6 x))
  ∧ (∀ x, x ∈ ({[ lit "2.2.2.2"; lit "gateway" ]} : gset str) →
          ¬ (wf_ipv4 x ∨ wf_ipv6 x) →
          x ∈ ips_to_keep {[ lit "2.2.2.2"; lit "gateway" ]}
                (remove_list_clean (lit "2.2.2.2, 9.9.9.9"))).
Proof.
  apply (only_addresses_are_revoked (lit "2.2.2.2, 9.9.9.9")
           {[ lit "2.2.2.2"; lit "gateway" ]}).
  exact scenario_valid_request.
Defined.

End valid_addresses.


(** ** The sidebar and the tables of the report *)

Section sidebar.

(** X24. The delimiter selection: in either language the select box
    offers four distinct labels, the dictionary built from the labels and
    the values maps each label to its delimiter (line feed, comma, blank,
    tab), the lookup of an offered label never raises [KeyError], and
    every delimiter is a single character, so that splitting by it never
    raises. *)
Theorem delimiter_selection (l : lang) (d : delimiter_option) :
  NoDup (delimiter_options l)
  ∧ option_label l d ∈ delimiter_options l
  ∧ dict_item (delimiter_dict l) (option_label l d) = Ret (delimiter_map d)
  ∧ (∀ key, key ∉ delimiter_options l →
            dict_item (delimiter_dict l) key = Raise KeyError)
  ∧ length (delimiter_map d) = 1%nat
  ∧ ∀ content,
      ∃ result, get_ips_from_content content (delimiter_map d) = Ret result.
Proof.
  split; [|split; [|split; [|split; [|split]]]].
  - destruct l; apply (bool_decide_unpack _); vm_compute; reflexivity.
  - destruct l, d; apply (bool_decide_unpack _); vm_compute; reflexivity.
  - destruct l, d; vm_compute; reflexivity.
  - intros key Hkey. unfold dict_item.
    destruct (delimiter_dict l !! key) as [v|] eqn:Hv; [|done].
    destruct Hkey. destruct l; unfold delimiter_dict, dict in Hv;
      simpl in Hv;
      repeat (apply lookup_insert_Some in Hv as [[<- _]|[_ Hv]];
              [set_solver|]);
      by rewrite lookup_empty in Hv.
  - by destruct d.
  - intros content.
    destruct (get_ips_delimiter_map content d) as (result & Hr & _).
    by exists result.
Qed.

(** X25. The tables of the report are well formed: whatever the sets,
    the language and the clock, the story holds exactly two tables, the
    summary of three rows and the detail table of a header and at least
    one row, and every row of both has exactly two cells, as the two
    column widths require; the date line ends with the 19 characters of
    the clock reading. *)
Theorem report_tables_rectangular (now : datetime)
    (original matched updated : gset str) (language : lang) :
  let story := generate_pdf_report now original matched updated language in
  ∃ summary detail,
    tables story = [summary; detail]
    ∧ length summary = 3%nat
    ∧ length detail = S (Nat.max 1 (size matched))
    ∧ Forall (λ row, length row = 2%nat) (summary ++ detail)
    ∧ length (strftime_report now) = 19%nat
    ∧ Paragraph (lit "<b>" ++ r_date (report_labels_of language)
                 ++ lit "</b> " ++ strftime_report now) Normal ∈ story.
Proof.
  cbv zeta. eexists _, _. rewrite tables_report. cbv zeta.
  split; [reflexivity|].
  split; [done|]. rewrite detail_rows_eq. split; [|split; [|split]].
  - case_decide as He.
    + rewrite He, size_empty. done.
    + simpl. rewrite length_fmap, length_sorted_elements.
      assert (size matched ≠ 0%nat).
      { intros Hs%size_empty_inv. apply He. by apply leibniz_equiv. }
      lia.
  - apply Forall_app. split; [by repeat constructor|].
    constructor; [by destruct language|].
    case_decide; [by repeat constructor|].
    apply Forall_fmap, Forall_forall. done.
  - unfold strftime_report. rewrite !length_app, !length_zfill. done.
  - unfold generate_pdf_report. set_solver.
Qed.

End sidebar.


(** ** Dotted decimal texts and zones *)

Section dotted_and_zones.

Import Ipaddress.

Lemma not_in_join (c : char) sep l :
  c ∉ sep → Forall (λ o, c ∉ o) l → c ∉ join sep l.
Proof.
  intros Hsep Hl Hin.
  assert (Forall (λ x, x ≠ c) (join sep l)) as Hall.
  { apply Forall_join.
    - apply Forall_forall. by intros x Hx ->.
    - eapply Forall_impl; [exact Hl|]. intros o Ho.
      apply Forall_forall. by intros x Hx ->. }
  rewrite Forall_forall in Hall. by apply (Hall c).
Qed.

Lemma wf_ipv6_colon s : wf_ipv6 s → COLON ∈ s.
Proof.
  intros [H|(a & zone & -> & H & _)].
  - by apply wf_ipv6_address_colon.
  - apply wf_ipv6_address_colon in H. set_solver.
Qed.

(** X26. The decision on a dotted text: a text made of pieces without
    dots and colons, joined by dots, is accepted exactly when there are
    four pieces and each is a decimal number of at most three digits, at
    most 255 and without a leading zero; so [010.0.0.1], [1.2.3],
    [1.2.3.256] and [1.2.3.4.5] are all refused. *)
Theorem dotted_text_decision (pieces : list str) :
  pieces ≠ [] →
  Forall (λ o, (DOT ∉ o) ∧ (COLON ∉ o)) pieces →
  (is_valid_ip (join [DOT] pieces) = Ret true
   ↔ length pieces = 4%nat ∧ Forall decimal_octet pieces).
Proof.
  intros Hne Hpieces. rewrite is_valid_ip_total.
  assert (COLON ∉ join [DOT] pieces) as Hcolon.
  { apply not_in_join; [by apply (bool_decide_unpack _)|].
    eapply Forall_impl; [exact Hpieces|]. by intros o [_ ?]. }
  assert (Forall (λ o, DOT ∉ o) pieces) as Hdots.
  { eapply Forall_impl; [exact Hpieces|]. by intros o [? _]. }
  split.
  - intros [= Hvalid]. apply valid_ip_true in Hvalid as [H4|H6].
    2: { by apply wf_ipv6_colon in H6. }
    destruct H4 as (octets & Hlen & Hoct & Heq).
    assert (octets = pieces) as ->; [|done].
    assert (split (join [DOT] pieces) [DOT] = Ret pieces) as H1
      by (by apply split_join_char).
    assert (split (join [DOT] octets) [DOT] = Ret octets) as H2.
    { apply split_join_char; [by destruct octets|].
      eapply Forall_impl; [exact Hoct|]. intros o Ho.
      by apply decimal_octet_chars. }
    rewrite Heq in H1. congruence.
  - intros [Hlen Hoct]. f_equal. apply valid_ip_true. left.
    by exists pieces.
Qed.

Lemma dotted_text_decision_witness :
  (is_valid_ip (join [DOT] [lit "010"; lit "0"; lit "0"; lit "1"])
   = Ret true
   ↔ length [lit "010"; lit "0"; lit "0"; lit "1"] = 4%nat
     ∧ Forall decimal_octet [lit "010"; lit "0"; lit "0"; lit "1"]).
Proof.
  apply (dotted_text_decision [lit "010"; lit "0"; lit "0"; lit "1"]).
  - discriminate.
  - repeat (apply Forall_cons; split;
              [split; apply (bool_decide_unpack _); vm_compute; reflexivity|]).
    constructor.
Defined.

(** X27. Zones: behind a well-formed IPv6 address a percent sign and any
    non-empty zone text without percent sign and slash is accepted,
    whatever else the zone holds; behind a dotted decimal address a
    percent sign is never accepted. *)
Theorem zone_only_behind_ipv6 (a zone : str) :
  (wf_ipv6_address a → zone ≠ [] → PERCENT ∉ zone → SLASH ∉ zone →
   is_valid_ip (a ++ [PERCENT] ++ zone) = Ret true)
  ∧ (wf_ipv4 a → is_valid_ip (a ++ [PERCENT] ++ zone) = Ret false).
Proof.
  rewrite !is_valid_ip_total. split.
  - intros Ha Hne Hp Hs. f_equal. apply valid_ip_true. right. right.
    exists a, zone. by rewrite !in_str_false.
  - intros Ha. f_equal. apply not_true_iff_false. intros Hvalid.
    apply valid_ip_true in Hvalid as [H4|H6].
    + apply wf_ipv4_chars in H4. rewrite Forall_forall in H4.
      destruct (H4 PERCENT) as [?|?]; [set_solver|done|done].
    + pose proof (wf_ipv4_no_colon a Ha) as Hcolon.
      assert (Forall (λ c, c ≠ PERCENT) a) as Hplain.
      { eapply Forall_impl; [by apply wf_ipv4_chars|].
        intros c [Hc|Hc] Hp; subst c; done. }
      destruct H6 as [H6|(a' & zone' & Heq & Ha' & _)].
      * apply wf_ipv6_address_chars in H6.
        apply (address_char_not _ PERCENT) in H6;
          [set_solver | apply percent_no_address_char].
      * assert (Forall (λ c, c ≠ PERCENT) a') as Hplain'.
        { eapply Forall_impl; [by apply wf_ipv6_address_chars|].
          intros c Hc ->. by apply percent_no_address_char. }
        destruct (prefix_break (λ c, c ≠ PERCENT) a a'
                    ([PERCENT] ++ zone) ([PERCENT] ++ zone'))
          as [-> _]; try done.
        1,2: by intros c [= <-] Hc.
        by apply wf_ipv6_address_colon in Ha'.
Qed.

(** A zone with a blank behind an IPv6 address, and a zone behind an IPv4
    address. *)
Example zone_examples :
  is_valid_ip (lit "fe80::1%eth 0") = Ret true
  ∧ is_valid_ip (lit "10.0.0.1%eth0") = Ret false.
Proof. split; vm_compute; reflexivity. Qed.

End dotted_and_zones.


(** ** The language selection *)

Section language.

Lemma same_but_texts_shown w1 w2 e1 e2 :
  same_but_texts w1 w2 → same_but_texts (shown w1 [e1]) (shown w2 [e2]).
Proof.
  intros (Hdb & Hlen & Hss). split; [done|]. split; [|done].
  simpl. rewrite !length_app. simpl. lia.
Qed.

Lemma tail_same_but_texts T1 T2 w1 w2 :
  same_but_texts w1 w2 →
  (session_state w1 !! "pdf_report" = None
   ↔ session_state w2 !! "pdf_report" = None) →
  ((downloads T1;; audit_history) w1).1 = ((downloads T2;; audit_history) w2).1
  ∧ same_but_texts ((downloads T1;; audit_history) w1).2
                   ((downloads T2;; audit_history) w2).2.
Proof.
  intros Hsame Hpdf. pose proof Hsame as (Hdb & Hlen & Hss).
  rewrite !tail_eq, !downloads_eq.
  rewrite <- (Hss "success"), <- (Hss "updated_content_txt"),
    <- (Hss "file_name_base") by done.
  destruct (session_state w1 !! "success") as [v|]; [|done].
  destruct (truthy v).
  2: { rewrite !audit_history_eq. split; [done|].
       by apply same_but_texts_shown. }
  destruct (session_state w1 !! "updated_content_txt") as [txt|].
  2: { split; [done|]. by apply same_but_texts_shown. }
  destruct (session_state w1 !! "file_name_base") as [base|].
  2: { split; [done|]. by apply same_but_texts_shown. }
  cbv zeta.
  destruct (session_state w1 !! "pdf_report") as [pdf1|] eqn:H1;
    destruct (session_state w2 !! "pdf_report") as [pdf2|] eqn:H2.
  - rewrite !audit_history_eq. split; [done|].
    by repeat apply same_but_texts_shown.
  - destruct Hpdf as [_ Hp]. discriminate (Hp eq_refl).
  - destruct Hpdf as [Hp _]. discriminate (Hp eq_refl).
  - split; [done|]. by repeat apply same_but_texts_shown.
Qed.

(** X28. The language changes texts only: with another language
    selected, a run ends in the same way, leaves the same ledger and the
    same session state apart from the labels of the stored report, and
    puts as many elements on the screen. *)
Theorem language_changes_texts_only (l : lang) (i : run_input) (w : world) :
  (run (with_language l i) w).1 = (run i w).1
  ∧ db (run (with_language l i) w).2 = db (run i w).2
  ∧ length (screen (run (with_language l i) w).2)
    = length (screen (run i w).2)
  ∧ ∀ k : string, k ≠ "pdf_report" →
      session_state (run (with_language l i) w).2 !! k
      = session_state (run i w).2 !! k.
Proof.
  assert ((run (with_language l i) w).1 = (run i w).1
          ∧ same_but_texts (run (with_language l i) w).2 (run i w).2)
    as (Hr & Hdb & Hlen & Hss); [|done].
  unfold run.
  set (w0 := {| session_state := session_state w; db := db w; screen := [] |}).
  destruct (init_db (db w0)) as [db'|e] eqn:Hinit.
  2: { by rewrite !(app_init_fails _ _ e). }
  rewrite !(app_eq _ _ db') by done. simpl.
  set (w1 := {| session_state := with_success_default (session_state w);
                db := db'; screen := [] |}).
  assert (same_but_texts w1 w1) as Hrefl by done.
  destruct (uploaded_file i) as [f|].
  2: { by apply tail_same_but_texts. }
  destruct (get_ips_delimiter_map (file_content f) (delimiter_name i))
    as (original & Hparse & _).
  destruct (decodes_dec f) as [Hdec|Hnot].
  2: { by rewrite !with_uploaded_file_undecodable. }
  rewrite !(with_uploaded_file_eq _ _ _ _ original) by done. simpl.
  destruct (remove_input i) as [|c s].
  { by apply tail_same_but_texts. }
  case_decide; [done|].
  destruct (filter _ (elements _)) as [|bad invalid]; [|done].
  destruct (button i).
  - rewrite !(confirm_action_eq _ _ _ _ original) by done. simpl.
    destruct (log_audit_event _ _ _ _ db') as [db''|e']; [|done].
    split; [done|]. split; [done|]. split; [done|]. simpl.
    intros k Hk. unfold stored.
    destruct (decide (k = "success")) as [->|?];
      [by rewrite !lookup_insert_eq|].
    rewrite !(lookup_insert_ne _ "success") by done.
    destruct (decide (k = "file_name_base")) as [->|?];
      [by rewrite !lookup_insert_eq|].
    rewrite !(lookup_insert_ne _ "file_name_base") by done.
    by rewrite !(lookup_insert_ne _ "pdf_report").
  - apply tail_same_but_texts; [|done].
    split; [done|]. split; [|done]. done.
Qed.

End language.
